(** * Bi-RRT* (hpp-core, [path-planner/bi-rrt-star.cc]): a shallow embedding

    The planner keeps two parent maps over a shared roadmap.  This file
    embeds the functions of [bi-rrt-star.cc] and states the properties of
    the design document against them.

    Modelling conventions.
    - [value_type] (a C++ [double]) is taken as an exact rational [Q]:
      rounding, infinities and NaN are outside the model.
    - [NodePtr_t] and [ConnectedComponentPtr_t] are handles ([nat]);
      [EdgePtr_t] and [PathPtr_t] are nullable pointers, hence [option].
    - [std::map<NodePtr_t, EdgePtr_t>] is [gmap nat (option Edge)]; an
      iterator is the [option] returned by the lookup, [None] being
      [map.end()].
    - A call either returns, throws, trips an [assert], or loops for ever:
      the four constructors of [outcome].  The planner object is threaded
      through every member function, so that the state left behind by a
      throw is visible.
    - The roadmap, the steering method, the path projector, the path
      validation and the paths themselves are collaborators whose code is
      not part of [bi-rrt-star.cc]; they are operations of a type class. *)

From Stdlib Require Import QArith Qabs Qround Lqa Lia Permutation.
From stdpp Require Import gmap list strings.

Local Open Scope Q_scope.

(** ** Paths and edges *)

(** [hpp::core::Path] and [Configuration_t]: only the members the planner
    calls. *)
Class PathModel := {
  Configuration_t : Type;
  Path : Type;
  (** [path->length()] *)
  path_length : Path -> Q;
  (** [path->reverse()] *)
  reverse : Path -> Path;
  (** [path->end()] *)
  path_end : Path -> Configuration_t;
  (** [path->timeRange().first] *)
  timeRange_first : Path -> Q;
  (** [path->extract(t0, t1)] *)
  extract : Path -> Q -> Q -> Path;
}.

Abbreviation NodePtr_t := nat.
Abbreviation ConnectedComponentPtr_t := nat.

(** [hpp::core::Edge]: [from()], [to()], [path()]. *)
Record Edge `{PM : PathModel} :=
  mkEdge { from : NodePtr_t; to : NodePtr_t; path : Path }.
Arguments mkEdge {PM} from to path.

Abbreviation EdgePtr_t := (option Edge).
Abbreviation PathPtr_t := (option Path).

(** [struct WeighedNode_t]. *)
Record WeighedNode_t `{PM : PathModel} := mkWeighedNode {
  node : NodePtr_t;
  parent : EdgePtr_t;
  cost : Q;
}.
Arguments mkWeighedNode {PM} node parent cost.

(** [typedef std::pair<bool, PathPtr_t> ValidatedPath_t]. *)
Abbreviation ValidatedPath_t := (bool * PathPtr_t)%type.

(** [typedef std::map<NodePtr_t, EdgePtr_t> ParentMap_t]. *)
Abbreviation ParentMap_t := (gmap NodePtr_t EdgePtr_t).

(** ** Outcomes *)

Inductive exn :=
| logic_error (what : string)
| invalid_argument (what : string).

Inductive outcome (A : Type) :=
| Ret (a : A)
| Throw (e : exn)
| AssertFailure
| Diverges.
Arguments Ret {A}.
Arguments Throw {A}.
Arguments AssertFailure {A}.
Arguments Diverges {A}.

(** ** What the language leaves open *)

(** Choices the C++ standard leaves to the build or to the library. *)
Class Platform `{PM : PathModel} := {
  (** [true] when [assert] is compiled out. *)
  NDEBUG : bool;
  (** The value obtained by reading [it->second] through [map.end()].  The
      language gives it no meaning; the model keeps it as a parameter. *)
  past_the_end_second : EdgePtr_t;
  (** [top()] followed by [pop()] on a [std::priority_queue] holding the
      given elements: which of several greatest elements comes out is the
      library's choice. *)
  priority_queue_pop :
    list WeighedNode_t -> option (WeighedNode_t * list WeighedNode_t);
}.

(** ** Collaborators of the planner *)

Class Collaborators `{PM : PathModel} := {
  (** [problem().steeringMethod()->steer(q0, q1)] *)
  steer : Configuration_t -> Configuration_t -> PathPtr_t;
  (** [problem().pathProjector()], possibly null, and its [apply] *)
  pathProjector : option (Path -> PathPtr_t);
  (** [problem().pathValidation()->validate(path, false, validPart, report)]:
      the returned flag and [validPart] *)
  pathValidation : Path -> bool * PathPtr_t;
  (** [problem().robot()->numberDof()] *)
  numberDof : nat;
  (** [problem().getParameter("BiRRT*/maxStepLength").floatValue()] *)
  param_maxStepLength : Q;
  (** [problem().getParameter("BiRRT*/gamma").floatValue()] *)
  param_gamma : Q;
  (** [std::log], [std::pow], [std::sqrt] *)
  std_log : Q -> Q;
  std_pow : Q -> Q -> Q;
  std_sqrt : Q -> Q;
  (** [hpp::core::Roadmap] *)
  Roadmap : Type;
  nodes : Roadmap -> list NodePtr_t;
  initNode : Roadmap -> NodePtr_t;
  goalNodes : Roadmap -> list NodePtr_t;
  connectedComponents_size : Roadmap -> nat;
  (** [node->connectedComponent()], [node->configuration()],
      [node->outEdges()] *)
  connectedComponent : Roadmap -> NodePtr_t -> ConnectedComponentPtr_t;
  configuration : Roadmap -> NodePtr_t -> Configuration_t;
  outEdges : Roadmap -> NodePtr_t -> list Edge;
  (** [nearestNode(q, dist)] and [nearestNode(q, cc, dist)] *)
  nearestNode : Roadmap -> Configuration_t -> NodePtr_t * Q;
  nearestNode_cc :
    Roadmap -> Configuration_t -> ConnectedComponentPtr_t -> NodePtr_t * Q;
  nodesWithinBall :
    Roadmap -> Configuration_t -> ConnectedComponentPtr_t -> Q ->
    list NodePtr_t;
  (** [addNode(config)]: the node handed back and the roadmap afterwards *)
  addNode : Roadmap -> Configuration_t -> NodePtr_t * Roadmap;
  (** [addEdge(from, to, path)]: the roadmap afterwards.  The edge handed
      back is the object [Edge(from, to, path)]. *)
  addEdge : Roadmap -> NodePtr_t -> NodePtr_t -> Path -> Roadmap;
  (** [Parent_t::startSolve()], the member of the base class [PathPlanner]
      that [BiRrtStar::startSolve] calls first: how it ends and the roadmap
      it leaves.  It has no access to the members of [BiRrtStar]. *)
  Parent_startSolve : Roadmap -> outcome unit * Roadmap;
}.

(** ** Comparisons on [value_type] *)

Definition Qltb (a b : Q) : bool := negb (Qle_bool b a).

(** [std::min(a, b)]: [(b < a) ? b : a]. *)
Definition std_min (a b : Q) : Q := if Qltb b a then b else a.

(** The two thresholds of [extend] and [improve]: [1e-16] and [1e-10]. *)
Definition eps_dist : Q := 1 # 10000000000000000.
Definition eps_length : Q := 1 # 10000000000.

(** ** Parent maps (lines 74-98) *)

Section ParentMap.
Context `{PF : Platform}.

(** [current->second], also when [current == map.end()]. *)
Definition It_second (current : option EdgePtr_t) : EdgePtr_t :=
  match current with
  | Some e => e
  | None => past_the_end_second
  end.

(** The [for] loop of [computeCost].  The loop condition [current->second]
    is evaluated first; the test against [map.end()] is the first statement
    of the body. *)
Fixpoint computeCost_loop (fuel : nat) (map : gmap NodePtr_t EdgePtr_t)
    (current : option EdgePtr_t) (c : Q) : outcome Q :=
  match It_second current with
  | None => Ret c
  | Some e =>
      match current with
      | None => Throw (logic_error "this node has no parent.")
      | Some _ =>
          match fuel with
          | O => Diverges
          | S fuel' =>
              computeCost_loop fuel' map (map !! from e)
                (c + path_length (path e))
          end
      end
  end.

(** [computeCost(map, n)].  The loop is given [size map] iterations: a
    parent chain that needs more repeats a node, and the C++ loop then never
    ends (see [computeCost_Diverges_cycle]). *)
Definition computeCost (map : gmap NodePtr_t EdgePtr_t) (n : NodePtr_t)
    : outcome Q :=
  computeCost_loop (size map) map (map !! n) 0.

(** [setParent(map, n, e)]; [map] is passed by reference and returned.  The
    text sent to [std::cout] before the throw is not modelled. *)
Definition setParent (map : gmap NodePtr_t EdgePtr_t) (n : NodePtr_t)
    (e : EdgePtr_t) : outcome unit * gmap NodePtr_t EdgePtr_t :=
  match e with
  | Some ed =>
      if negb NDEBUG && negb (to ed =? n)%nat then (AssertFailure, map)
      else
        match map !! from ed with
        | None =>
            (Throw (logic_error
               "could not find node from of edge in parent map."), map)
        | Some _ => (Ret tt, <[n := e]> map)
        end
  | None => (Ret tt, <[n := e]> map)
  end.

(** The parent chain as a relation: [chain map n es] holds when following
    parents from [n] crosses the edges [es], in this order, and stops on an
    entry that holds the null edge. *)
Inductive chain (map : gmap NodePtr_t EdgePtr_t)
  : NodePtr_t -> list Edge -> Prop :=
| chain_root n : map !! n = Some None -> chain map n []
| chain_step n e es :
    map !! n = Some (Some e) -> chain map (from e) es ->
    chain map n (e :: es).

(** The parent chain that leaves the map: following parents from [n] crosses
    [es] and arrives on a node that is not a key. *)
Inductive broken_chain (map : gmap NodePtr_t EdgePtr_t)
  : NodePtr_t -> list Edge -> Prop :=
| broken_here n : map !! n = None -> broken_chain map n []
| broken_step n e es :
    map !! n = Some (Some e) -> broken_chain map (from e) es ->
    broken_chain map n (e :: es).

(** The running sum of [computeCost], started from [c]. *)
Definition sum_lengths (c : Q) (es : list Edge) : Q :=
  fold_left (fun acc e => acc + path_length (path e)) es c.

(** The nodes met along a chain, its start included. *)
Fixpoint chain_nodes (n : NodePtr_t) (es : list Edge) : list NodePtr_t :=
  match es with
  | [] => [n]
  | e :: es' => n :: chain_nodes (from e) es'
  end.

(** The keys crossed by a chain that leaves the map. *)
Fixpoint chain_keys (n : NodePtr_t) (es : list Edge) : list NodePtr_t :=
  match es with
  | [] => []
  | e :: es' => n :: chain_keys (from e) es'
  end.

(** A map is closed when the source of every parent edge is a key. *)
Definition closed_map (map : gmap NodePtr_t EdgePtr_t) : Prop :=
  forall m e, map !! m = Some (Some e) -> is_Some (map !! from e).

(** ** Best-first tree builder (lines 100-151) *)

(** [queue.push(x)] on the multiset of queued elements. *)
Definition priority_queue_push (x : WeighedNode_t) (q : list WeighedNode_t)
    : list WeighedNode_t := x :: q.

(** The inner [for] over [current.node->outEdges()]. *)
Definition push_children (current : WeighedNode_t) (edges : list Edge)
    (queue : list WeighedNode_t) : list WeighedNode_t :=
  fold_left
    (fun q edge =>
       priority_queue_push
         (mkWeighedNode (to edge) (Some edge)
            (cost current + path_length (path edge))) q)
    edges queue.

(** One turn of the [while] loop on [(visited, queue)] after [current] was
    popped.  [visited.insert] does nothing when the key is present. *)
Definition visit (out : NodePtr_t -> list Edge) (current : WeighedNode_t)
    (visited : gmap NodePtr_t WeighedNode_t) (queue : list WeighedNode_t)
    : gmap NodePtr_t WeighedNode_t * list WeighedNode_t :=
  match visited !! node current with
  | None =>
      (<[node current := current]> visited,
       push_children current (out (node current)) queue)
  | Some old =>
      if Qltb (cost current) (cost old) then
        (<[node current :=
             mkWeighedNode (node old) (parent current) (cost current)]>
           visited,
         push_children current (out (node current)) queue)
      else (visited, queue)
  end.

(** The [while (!queue.empty())] loop; [pops] records the costs of the
    elements in the order they left the queue (a ghost variable). *)
Fixpoint computeParentMap_loop (fuel : nat) (out : NodePtr_t -> list Edge)
    (visited : gmap NodePtr_t WeighedNode_t) (queue : list WeighedNode_t)
    (pops : list Q) : option (gmap NodePtr_t WeighedNode_t * list Q) :=
  match priority_queue_pop queue with
  | None => Some (visited, pops)
  | Some (current, queue') =>
      match fuel with
      | O => None
      | S fuel' =>
          let '(visited', queue'') := visit out current visited queue' in
          computeParentMap_loop fuel' out visited' queue''
            (pops ++ [cost current])
      end
  end.

Definition computeParentMap_run (fuel : nat) (out : NodePtr_t -> list Edge)
    (root : NodePtr_t) : option (gmap NodePtr_t WeighedNode_t * list Q) :=
  computeParentMap_loop fuel out ∅
    (priority_queue_push (mkWeighedNode root None 0) []) [].

(** [computeParentMap(root)], reading the out-edges of the nodes through
    [out]; [None] when the loop is still running after [fuel] turns. *)
Definition computeParentMap (fuel : nat) (out : NodePtr_t -> list Edge)
    (root : NodePtr_t) : option (gmap NodePtr_t EdgePtr_t) :=
  match computeParentMap_run fuel out root with
  | Some (visited, _) => Some (parent <$> visited)
  | None => None
  end.

End ParentMap.

(** ** The planner object *)

(** Members of [BiRrtStar] and the roadmap it works on.  [ball_queries]
    is a ghost member: the arguments of every [nodesWithinBall] call, most
    recent first. *)
Record BiRrtStar `{CO : Collaborators} := mkBiRrtStar {
  roadmap : Roadmap;
  gamma_ : Q;
  extendMaxLength_ : Q;
  roots_ : NodePtr_t * NodePtr_t;
  toRoot_ : gmap NodePtr_t EdgePtr_t * gmap NodePtr_t EdgePtr_t;
  ball_queries : list (Configuration_t * ConnectedComponentPtr_t * Q);
}.
Arguments mkBiRrtStar {PM CO}.

(** [a[k]] and [a[k] = v] on a two-element array; [k] is [0] or [1]. *)
Definition at2 {A : Type} (k : nat) (a : A * A) : A :=
  match k with O => fst a | _ => snd a end.

Definition set2 {A : Type} (k : nat) (v : A) (a : A * A) : A * A :=
  match k with O => (v, snd a) | _ => (fst a, v) end.

(** The index of the other element. *)
Definition other (k : nat) : nat := match k with O => 1%nat | _ => O end.

(** [std::swap(a[0], a[1])]. *)
Definition swap2 {A : Type} (a : A * A) : A * A := (snd a, fst a).

Section Planner.
Context `{PF : Platform} `{CO : !Collaborators}.

(** Member functions: the planner object goes in and comes out. *)
Definition M (A : Type) : Type := BiRrtStar -> outcome A * BiRrtStar.

Definition ret {A : Type} (a : A) : M A := fun s => (Ret a, s).

Definition bind {A B : Type} (m : M A) (f : A -> M B) : M B :=
  fun s =>
    match m s with
    | (Ret a, s') => f a s'
    | (Throw e, s') => (Throw e, s')
    | (AssertFailure, s') => (AssertFailure, s')
    | (Diverges, s') => (Diverges, s')
    end.

Notation "x <- m ;; f" := (bind m (fun x => f))
  (at level 100, m at level 99, f at level 200, right associativity).
Notation "m ;;; f" := (bind m (fun _ => f))
  (at level 100, f at level 200, right associativity).

(** [assert(b)]. *)
Definition assert_ (b : bool) : M unit :=
  fun s => if negb NDEBUG && negb b then (AssertFailure, s) else (Ret tt, s).

(** A call that returns its result and leaves the planner alone. *)
Definition lift {A : Type} (o : outcome A) : M A := fun s => (o, s).

Definition get_roadmap : M Roadmap := fun s => (Ret (roadmap s), s).

Definition set_roadmap (r : Roadmap) : M unit :=
  fun s =>
    (Ret tt,
     mkBiRrtStar r (gamma_ s) (extendMaxLength_ s) (roots_ s) (toRoot_ s)
       (ball_queries s)).

Definition set_toRoot (k : nat) (m : gmap NodePtr_t EdgePtr_t) : M unit :=
  fun s =>
    (Ret tt,
     mkBiRrtStar (roadmap s) (gamma_ s) (extendMaxLength_ s) (roots_ s)
       (set2 k m (toRoot_ s)) (ball_queries s)).

(** [computeCost(toRoot_[k], n)]. *)
Definition computeCost_k (k : nat) (n : NodePtr_t) : M Q :=
  fun s => (computeCost (at2 k (toRoot_ s)) n, s).

(** [setParent(toRoot_[k], n, e)]. *)
Definition setParent_k (k : nat) (n : NodePtr_t) (e : EdgePtr_t) : M unit :=
  fun s =>
    let '(o, m) := setParent (at2 k (toRoot_ s)) n e in
    (o,
     mkBiRrtStar (roadmap s) (gamma_ s) (extendMaxLength_ s) (roots_ s)
       (set2 k m (toRoot_ s)) (ball_queries s)).

(** [roadmap()->addNode(boost::make_shared<Configuration_t>(q))]. *)
Definition roadmap_addNode (q : Configuration_t) : M NodePtr_t :=
  fun s =>
    let '(n, r) := addNode (roadmap s) q in
    (Ret n,
     mkBiRrtStar r (gamma_ s) (extendMaxLength_ s) (roots_ s) (toRoot_ s)
       (ball_queries s)).

(** [roadmap()->addEdge(n1, n2, p)]. *)
Definition roadmap_addEdge (n1 n2 : NodePtr_t) (p : Path) : M EdgePtr_t :=
  fun s =>
    (Ret (Some (mkEdge n1 n2 p)),
     mkBiRrtStar (addEdge (roadmap s) n1 n2 p) (gamma_ s)
       (extendMaxLength_ s) (roots_ s) (toRoot_ s) (ball_queries s)).

(** [roadmap()->nodesWithinBall(q, cc, radius)], recorded in the ghost
    member. *)
Definition roadmap_nodesWithinBall (q : Configuration_t)
    (cc : ConnectedComponentPtr_t) (radius : Q) : M (list NodePtr_t) :=
  fun s =>
    (Ret (nodesWithinBall (roadmap s) q cc radius),
     mkBiRrtStar (roadmap s) (gamma_ s) (extendMaxLength_ s) (roots_ s)
       (toRoot_ s) ((q, cc, radius) :: ball_queries s)).

(** [validate(problem, path)] (lines 207-213). *)
Definition validate (p : Path) : bool := fst (pathValidation p).

(** [BiRrtStar::buildPath] (lines 215-239). *)
Definition buildPath (q0 q1 : Configuration_t) (maxLength : Q)
    (validatePath : bool) : PathPtr_t :=
  match steer q0 q1 with
  | None => None
  | Some path0 =>
      let projected :=
        match pathProjector with
        | Some apply => apply path0
        | None => Some path0
        end in
      match projected with
      | None => None
      | Some path1 =>
          let path2 :=
            if Qltb 0 maxLength && Qltb maxLength (path_length path1) then
              extract path1 (timeRange_first path1)
                (timeRange_first path1 + maxLength)
            else path1 in
          if negb validatePath then Some path2
          else snd (pathValidation path2)
      end
  end.

(** The radius handed to [nodesWithinBall] (lines 254-257 and 334-337),
    with [n] the value of [roadmap()->nodes().size()]. *)
Definition ball_radius (gamma extendMaxLength : Q) (n : nat) : Q :=
  let n' := inject_Z (Z.of_nat n) in
  std_min
    (gamma *
     std_pow (std_log n' / n') (1 / inject_Z (Z.of_nat numberDof)))
    extendMaxLength.

(** The locals that the choose-parent loop updates. *)
Record Choice := mkChoice {
  cost_q : Q;
  near : NodePtr_t;
  near_path : Path;
  paths : list ValidatedPath_t;
}.

(** The choose-parent loop over [nearNodes] (lines 262-286 of [extend],
    lines 351-375 of [improve], the same text up to the names [path] /
    [toqnew] and [parentMap] / [toRoot_[k]]). *)
Fixpoint chooseParent (k : nat) (q : Configuration_t)
    (nearNodes : list NodePtr_t) (c : Choice) : M Choice :=
  match nearNodes with
  | [] => ret c
  | _near :: rest =>
      if (_near =? near c)%nat then
        chooseParent k q rest
          (mkChoice (cost_q c) (near c) (near_path c)
             (paths c ++ [(true, Some (near_path c))]))
      else
        r <- get_roadmap ;;
        let near2new := buildPath (configuration r _near) q (-1) false in
        match near2new with
        | None =>
            chooseParent k q rest
              (mkChoice (cost_q c) (near c) (near_path c)
                 (paths c ++ [(false, None)]))
        | Some p =>
            c_near <- computeCost_k k _near ;;
            let _cost_q := c_near + path_length p in
            if Qltb _cost_q (cost_q c) then
              if validate p then
                chooseParent k q rest
                  (mkChoice _cost_q _near p (paths c ++ [(true, Some p)]))
              else
                chooseParent k q rest
                  (mkChoice (cost_q c) (near c) (near_path c)
                     (paths c ++ [(true, None)]))
            else
              chooseParent k q rest
                (mkChoice (cost_q c) (near c) (near_path c)
                   (paths c ++ [(false, Some p)]))
        end
  end.

(** Lines 289-292 of [extend] and 377-380 of [improve]: the two edges
    between [near] and [qnew], and the parent entry of [qnew]. *)
Definition attach (k : nat) (near qnew : NodePtr_t) (p : Path) : M unit :=
  edge <- roadmap_addEdge near qnew p ;;
  roadmap_addEdge qnew near (reverse p) ;;;
  (fun s => assert_ (bool_decide (is_Some (at2 k (toRoot_ s) !! near))) s) ;;;
  setParent_k k qnew edge.

(** One turn of the rewiring loop (lines 295-307 of [extend], 383-396 of
    [improve]) on [nearNodes[i]] and [paths[i]]; [check_qnew] is set for
    [improve], whose loop carries one more [assert]. *)
Definition rewire_one (check_qnew : bool) (k : nat) (near qnew : NodePtr_t)
    (cost_q : Q) (n_i : NodePtr_t) (vp : ValidatedPath_t) : M unit :=
  match vp with
  | (validated, None) => ret tt
  | (validated, Some p_i) =>
      if (n_i =? near)%nat then ret tt
      else
        let cost_q_near := cost_q + path_length p_i in
        c_i <- computeCost_k k n_i ;;
        if Qltb cost_q_near c_i then
          let pathValid := if validated then true else validate p_i in
          if pathValid then
            roadmap_addEdge n_i qnew p_i ;;;
            edge <- roadmap_addEdge qnew n_i (reverse p_i) ;;
            (if check_qnew then
               fun s =>
                 assert_ (bool_decide (is_Some (at2 k (toRoot_ s) !! qnew))) s
             else ret tt) ;;;
            setParent_k k n_i edge
          else ret tt
        else ret tt
  end.

(** The rewiring loop (lines 294-308 of [extend], 382-397 of [improve]) over
    [nearNodes[i]] and [paths[i]]. *)
Fixpoint rewire (check_qnew : bool) (k : nat) (near qnew : NodePtr_t)
    (cost_q : Q) (l : list (NodePtr_t * ValidatedPath_t)) : M unit :=
  match l with
  | [] => ret tt
  | (n_i, vp) :: rest =>
      rewire_one check_qnew k near qnew cost_q n_i vp ;;;
      rewire check_qnew k near qnew cost_q rest
  end.

(** [BiRrtStar::extend(target, toRoot_[k], q)] (lines 241-310).  The
    reference [q] comes back with the result. *)
Definition extend (target : NodePtr_t) (k : nat) (q : Configuration_t)
    : M (bool * Configuration_t) :=
  fun s =>
    let cc := connectedComponent (roadmap s) target in
    let '(near0, dist) := nearestNode_cc (roadmap s) q cc in
    if Qltb dist eps_dist then (Ret (false, q), s)
    else
      match
        buildPath (configuration (roadmap s) near0) q (extendMaxLength_ s)
          true
      with
      | None => (Ret (false, q), s)
      | Some path0 =>
          if Qltb (path_length path0) eps_length then (Ret (false, q), s)
          else
            let q' := path_end path0 in
            (nearNodes <-
               roadmap_nodesWithinBall q' cc
                 (ball_radius (gamma_ s) (extendMaxLength_ s)
                    (length (nodes (roadmap s)))) ;;
             c_near <- computeCost_k k near0 ;;
             ch <-
               chooseParent k q' nearNodes
                 (mkChoice (c_near + path_length path0) near0 path0 []) ;;
             qnew <- roadmap_addNode q' ;;
             attach k (near ch) qnew (near_path ch) ;;;
             rewire false k (near ch) qnew (cost_q ch)
               (zip nearNodes (paths ch)) ;;;
             ret (true, q')) s
      end.

(** [BiRrtStar::connect(b, toRoot_[k], q)] (lines 312-322); [fuel] bounds
    the turns of the [while]. *)
Fixpoint connect (fuel : nat) (b : NodePtr_t) (k : nat) (q : Configuration_t)
    : M bool :=
  fun s =>
    if (connectedComponents_size (roadmap s) =? 2)%nat then
      match fuel with
      | O => (Diverges, s)
      | S fuel' =>
          (r <- extend b k q ;;
           if negb (fst r) then ret false else connect fuel' b k q) s
      end
    else (Ret true, s).

(** One turn of [for (int k = 0; k < 2; ++k)] in [improve] (lines 345-397).
    [near] is declared outside the [for]: the value left by this turn is
    handed back for the next one.  [toqnew] is a fresh copy of [path]. *)
Definition improve_pass (k : nat) (q : Configuration_t) (qnew : NodePtr_t)
    (nearNodes : list NodePtr_t) (path0 : Path) (near0 : NodePtr_t)
    : M NodePtr_t :=
  c_near <- computeCost_k k near0 ;;
  ch <-
    chooseParent k q nearNodes
      (mkChoice (c_near + path_length path0) near0 path0 []) ;;
  attach k (near ch) qnew (near_path ch) ;;;
  rewire true k (near ch) qnew (cost_q ch) (zip nearNodes (paths ch)) ;;;
  ret (near ch).

(** [BiRrtStar::improve(q)] (lines 324-400). *)
Definition improve (q : Configuration_t) : M bool :=
  fun s =>
    let '(near0, dist) := nearestNode (roadmap s) q in
    if Qltb dist eps_dist then (Ret false, s)
    else
      match
        buildPath (configuration (roadmap s) near0) q (extendMaxLength_ s)
          true
      with
      | None => (Ret false, s)
      | Some path0 =>
          if Qltb (path_length path0) eps_length then (Ret false, s)
          else
            (nearNodes <-
               roadmap_nodesWithinBall q
                 (connectedComponent (roadmap s) (fst (roots_ s)))
                 (ball_radius (gamma_ s) (extendMaxLength_ s)
                    (length (nodes (roadmap s)))) ;;
             qnew <- roadmap_addNode q ;;
             near1 <- improve_pass 0 q qnew nearNodes path0 near0 ;;
             improve_pass 1 q qnew nearNodes path0 near1 ;;;
             ret true) s
      end.

(** The planner as the constructors leave it (lines 50-62).  [roots_] is
    not initialised by the constructor; [startSolve] assigns it before any
    use. *)
Definition create (r : Roadmap) (uninitialised : NodePtr_t * NodePtr_t)
    : BiRrtStar :=
  mkBiRrtStar r 1 1 uninitialised (∅, ∅) [].

(** Line 155 of [startSolve]: the call of the base class. *)
Definition parent_startSolve : M unit :=
  fun s =>
    let '(o, r) := Parent_startSolve (roadmap s) in
    (o,
     mkBiRrtStar r (gamma_ s) (extendMaxLength_ s) (roots_ s) (toRoot_ s)
       (ball_queries s)).

(** [BiRrtStar::startSolve] (lines 153-170). *)
Definition startSolve : M unit :=
  parent_startSolve ;;;
  (fun s =>
    match goalNodes (roadmap s) with
    | [goal] =>
        let l := param_maxStepLength in
        let l' :=
          if Qle_bool l 0 then std_sqrt (inject_Z (Z.of_nat numberDof))
          else l in
        let s' :=
          mkBiRrtStar (roadmap s) param_gamma l'
            (initNode (roadmap s), goal) (toRoot_ s) (ball_queries s) in
        (setParent_k 0 (initNode (roadmap s)) None ;;;
         setParent_k 1 goal None) s'
    | _ =>
        (Throw (invalid_argument "there should be only one goal node."), s)
    end).

(** Lines 187-191 of [oneStep]: the parent maps are filled when [roots_[0]]
    is not a key of [toRoot_[1]]. *)
Definition fillParentMaps (fuel : nat) : M unit :=
  fun s =>
    match snd (toRoot_ s) !! fst (roots_ s) with
    | None =>
        match computeParentMap fuel (outEdges (roadmap s)) (fst (roots_ s))
        with
        | None => (Diverges, s)
        | Some m0 =>
            let s0 :=
              mkBiRrtStar (roadmap s) (gamma_ s) (extendMaxLength_ s)
                (roots_ s) (m0, snd (toRoot_ s)) (ball_queries s) in
            match
              computeParentMap fuel (outEdges (roadmap s)) (snd (roots_ s))
            with
            | None => (Diverges, s0)
            | Some m1 =>
                (Ret tt,
                 mkBiRrtStar (roadmap s) (gamma_ s) (extendMaxLength_ s)
                   (roots_ s) (m0, m1) (ball_queries s))
            end
        end
    | Some _ => (Ret tt, s)
    end.

(** Lines 193-194 of [oneStep]. *)
Definition assert_sizes : M unit :=
  (fun s =>
     assert_ (size (fst (toRoot_ s)) =? size (snd (toRoot_ s)))%nat s) ;;;
  (fun s =>
     assert_ (size (fst (toRoot_ s)) =? length (nodes (roadmap s)))%nat s).

(** Lines 184-185 of [oneStep]. *)
Definition swap_slots : M unit :=
  fun s =>
    (Ret tt,
     mkBiRrtStar (roadmap s) (gamma_ s) (extendMaxLength_ s)
       (swap2 (roots_ s)) (swap2 (toRoot_ s)) (ball_queries s)).

(** [BiRrtStar::oneStep] (lines 172-197).  [q] is the configuration drawn by
    [sample()]; [fuel] bounds the loops of [connect] and
    [computeParentMap]. *)
Definition oneStep (fuel : nat) (q : Configuration_t) : M unit :=
  fun s =>
    if (connectedComponents_size (roadmap s) =? 2)%nat then
      (r <- extend (fst (roots_ s)) 0 q ;;
       if fst r then
         fun s1 =>
           if (connectedComponent (roadmap s1) (fst (roots_ s1)) =?
               connectedComponent (roadmap s1) (snd (roots_ s1)))%nat
           then (Ret tt, s1)
           else
             (connect fuel (snd (roots_ s1)) 1 (snd r) ;;; swap_slots) s1
       else swap_slots) s
    else
      (fillParentMaps fuel ;;;
       assert_sizes ;;;
       improve q ;;;
       ret tt) s.

End Planner.

(** ** A reference priority queue *)

(** [top()] and [pop()] with the leftmost greatest element chosen: one
    lawful [priority_queue_pop]. *)
Fixpoint pop_greatest `{PM : PathModel} (l : list WeighedNode_t)
    : option (WeighedNode_t * list WeighedNode_t) :=
  match l with
  | [] => None
  | x :: r =>
      match pop_greatest r with
      | None => Some (x, [])
      | Some (y, r') =>
          if Qltb (cost x) (cost y) then Some (y, x :: r') else Some (x, r)
      end
  end.

(** What [std::priority_queue<WeighedNode_t>] guarantees with
    [operator<] comparing [cost]: nothing comes out of an empty queue, and
    the element that comes out is one of the queued elements, none of the
    others being greater. *)
Class PlatformLaws `{PF : Platform} := {
  pop_empty : forall q, priority_queue_pop q = None <-> q = [];
  pop_perm :
    forall q x r, priority_queue_pop q = Some (x, r) -> Permutation q (x :: r);
  pop_top :
    forall q x r y,
      priority_queue_pop q = Some (x, r) -> y ∈ r -> ~ cost x < cost y;
}.

(** ** A one-dimensional test bench

    Configurations are rationals, paths are straight segments, the distance
    is the absolute difference, and the roadmap is a list of nodes and
    edges.  As [hpp::core::Roadmap] does, [addNode] hands back the node that
    already holds the configuration when [g_dedup] is set; with the flag
    cleared every call creates a node, as the design document words it. *)
Module Toy.

Record Segment := mkSegment { seg_start : Q; seg_end : Q }.

Definition seg_length (s : Segment) : Q := Qabs (seg_end s - seg_start s).

Definition seg_extract (s : Segment) (t0 t1 : Q) : Segment :=
  let dir := if Qltb (seg_end s) (seg_start s) then -1 else 1 in
  mkSegment (Qred (seg_start s + dir * t0)) (Qred (seg_start s + dir * t1)).

Definition paths : PathModel := {|
  Configuration_t := Q;
  Path := Segment;
  path_length := seg_length;
  reverse := fun s => mkSegment (seg_end s) (seg_start s);
  path_end := seg_end;
  timeRange_first := fun _ => 0;
  extract := seg_extract;
|}.
#[local] Existing Instance paths.

Definition platform (ndebug : bool) (garbage : option (@Edge paths))
    : @Platform paths := {|
  NDEBUG := ndebug;
  past_the_end_second := garbage;
  priority_queue_pop := @pop_greatest paths;
|}.

Record Graph := mkGraph {
  g_configs : list Q;
  g_edges : list (@Edge paths);
  g_init : nat;
  g_goals : list nat;
  g_dedup : bool;
}.

Definition g_nodes (g : Graph) : list nat := seq 0 (length (g_configs g)).

Definition g_config (g : Graph) (n : nat) : Q := nth n (g_configs g) 0.

Definition dist (a b : Q) : Q := Qabs (a - b).

(** Component labels: every edge merges the labels of its two ends. *)
Definition relabel (a b : nat) (lab : list nat) : list nat :=
  let la := nth a lab a in
  let lb := nth b lab b in
  map (fun l => if (l =? la)%nat || (l =? lb)%nat then Nat.min la lb else l)
    lab.

Definition g_labels (g : Graph) : list nat :=
  fold_left (fun lab e => relabel (@from paths e) (@to paths e) lab)
    (g_edges g) (g_nodes g).

Definition g_component (g : Graph) (n : nat) : nat := nth n (g_labels g) n.

Definition g_nearest_among (g : Graph) (q : Q) (cands : list nat)
    : nat * Q :=
  match cands with
  | [] => (O, 0)
  | n0 :: rest =>
      fold_left
        (fun best n =>
           let d := dist (g_config g n) q in
           if Qltb d (snd best) then (n, d) else best)
        rest (n0, dist (g_config g n0) q)
  end.

Definition g_addNode (g : Graph) (q : Q) : nat * Graph :=
  let same :=
    filter (fun n => Qeq_bool (g_config g n) q = true) (g_nodes g) in
  match g_dedup g, same with
  | true, n :: _ => (n, g)
  | _, _ =>
      (length (g_configs g),
       mkGraph (g_configs g ++ [q]) (g_edges g) (g_init g) (g_goals g)
         (g_dedup g))
  end.

Definition g_addEdge (g : Graph) (a b : nat) (p : Segment) : Graph :=
  mkGraph (g_configs g) (g_edges g ++ [@mkEdge paths a b p]) (g_init g)
    (g_goals g) (g_dedup g).

(** [std::log] on the node counts the test bench meets, to four decimals. *)
Definition log_table (x : Q) : Q :=
  if Qeq_bool x 1 then 0
  else if Qeq_bool x 2 then 6931 # 10000
  else if Qeq_bool x 3 then 10986 # 10000
  else if Qeq_bool x 4 then 13863 # 10000
  else if Qeq_bool x 5 then 16094 # 10000
  else 17918 # 10000.

Definition g_steer (q0 q1 : Q) : option Segment := Some (mkSegment q0 q1).

Definition g_components_size (g : Graph) : nat :=
  length (nodup Nat.eq_dec (g_labels g)).

Definition g_outEdges (g : Graph) (n : nat) : list (@Edge paths) :=
  filter (fun e => @from paths e = n) (g_edges g).

Definition g_nearestNode (g : Graph) (q : Q) : nat * Q :=
  g_nearest_among g q (g_nodes g).

Definition g_nearestNode_cc (g : Graph) (q : Q) (cc : nat) : nat * Q :=
  g_nearest_among g q (filter (fun n => g_component g n = cc) (g_nodes g)).

Definition g_nodesWithinBall (g : Graph) (q : Q) (cc : nat) (r : Q)
    : list nat :=
  filter
    (fun n => g_component g n = cc /\ Qltb (dist (g_config g n) q) r = true)
    (g_nodes g).

(** The collaborators of the test bench: straight-line steering, no path
    projector, one degree of freedom (so that the exponent of [std::pow] is
    [1]), and the path validation given as [validation].  The graphs of the
    bench carry their init and goal nodes from the start: the base class's
    [startSolve] returns and leaves them as they are. *)
Definition collaborators (maxStepLength gamma : Q)
    (validation : Segment -> bool * option Segment)
    : @Collaborators paths :=
  @Build_Collaborators paths
    g_steer None validation 1%nat maxStepLength gamma
    log_table (fun x _ => x) (fun x => x)
    Graph g_nodes g_init g_goals g_components_size g_component g_config
    g_outEdges g_nearestNode g_nearestNode_cc g_nodesWithinBall
    g_addNode g_addEdge (fun g => (Ret tt, g)).

(** The path validation that accepts every path. *)
Definition accept_all (p : Segment) : bool * option Segment := (true, Some p).

(** A two-way edge. *)
Definition two_way (a b : nat) (qa qb : Q) : list (@Edge paths) :=
  [@mkEdge paths a b (mkSegment qa qb); @mkEdge paths b a (mkSegment qb qa)].

(** Assertions on, and a null pointer read through [map.end()]. *)
Definition bench : @Platform paths := platform false None.

(** Start at [0], goal at [1], nothing else; default parameters. *)
Definition two_nodes : Graph := mkGraph [0; 1] [] 0%nat [1%nat] true.

Definition growth_collaborators : @Collaborators paths :=
  collaborators (-1) 1 accept_all.

(** The planner on [two_nodes] once [startSolve] has run. *)
Definition growth_planner : @BiRrtStar paths growth_collaborators :=
  snd (@startSolve paths bench growth_collaborators
         (@create paths growth_collaborators two_nodes (0%nat, 0%nat))).

(** Start at [0] (node 0), goal at [10] (node 1), and two more nodes at [4]
    (node 2) and [5] (node 3); two-way straight edges 0-3, 2-3 and 3-1. *)
Definition four_nodes : Graph :=
  mkGraph [0; 10; 4; 5]
    (two_way 0 3 0 5 ++ two_way 2 3 4 5 ++ two_way 3 1 5 10)
    0%nat [1%nat] true.

Definition refine_collaborators : @Collaborators paths :=
  collaborators 100 10 accept_all.

(** The path validation that accepts no part of any path. *)
Definition reject_all (p : Segment) : bool * option Segment := (false, None).

Definition blocked_collaborators : @Collaborators paths :=
  collaborators (-1) 1 reject_all.

(** The planner on [two_nodes], every path being rejected. *)
Definition blocked_planner : @BiRrtStar paths blocked_collaborators :=
  snd (@startSolve paths bench blocked_collaborators
         (@create paths blocked_collaborators two_nodes (0%nat, 0%nat))).

(** The planner on [four_nodes] once [startSolve] has run. *)
Definition refine_planner : @BiRrtStar paths refine_collaborators :=
  snd (@startSolve paths bench refine_collaborators
         (@create paths refine_collaborators four_nodes (0%nat, 0%nat))).

(** The path validation of a goal that cannot be reached: a path that
    starts or ends at [1] has no valid part, any other path is valid. *)
Definition walled (p : Segment) : bool * option Segment :=
  if Qeq_bool (seg_start p) 1 || Qeq_bool (seg_end p) 1 then (false, None)
  else (true, Some p).

Definition walled_collaborators : @Collaborators paths :=
  collaborators (-1) 1 walled.

(** The planner on [two_nodes] behind that wall, after [startSolve] and four
    calls of [oneStep] with the samples [9/10], [1/2], [3/5] and [1/2]: the
    tree of the start has grown by node 2 (at [9/10]) and by node 3 (at
    [3/5], hung below node 2), the tree of the goal has not grown, and the
    slots have been swapped four times. *)
Definition walled_planner : @BiRrtStar paths walled_collaborators :=
  let step q s := snd (@oneStep paths bench walled_collaborators 10 q s) in
  step (1 # 2)
    (step (3 # 5)
       (step (1 # 2)
          (step (9 # 10)
             (snd (@startSolve paths bench walled_collaborators
                     (@create paths walled_collaborators two_nodes
                        (0%nat, 0%nat))))))).

(** Start at [0] (node 0), goal at [10] (node 1) and one more node at [3]
    (node 2), reached from the start through the goal only: two-way straight
    edges 0-1 and 1-2. *)
Definition detour : Graph :=
  mkGraph [0; 10; 3] (two_way 0 1 0 10 ++ two_way 1 2 10 3) 0%nat [1%nat]
    true.

(** The planner on [detour] once [startSolve] has run and the parent maps
    have been filled as [oneStep] fills them. *)
Definition detour_planner : @BiRrtStar paths refine_collaborators :=
  snd (@fillParentMaps paths bench refine_collaborators 100
         (snd (@startSolve paths bench refine_collaborators
                 (@create paths refine_collaborators detour
                    (0%nat, 0%nat))))).

End Toy.


(** ** Specifications of member functions *)

Section Specifications.
Context `{PF : Platform} `{CO : !Collaborators}.

(** [triple P m Q E]: from a planner satisfying [P], a call of [m] that
    returns [a] leaves a planner satisfying [Q a]; a call that stops
    otherwise leaves a planner satisfying [E]. *)
Definition triple {A : Type} (P : BiRrtStar -> Prop) (m : M A)
    (Q : A -> BiRrtStar -> Prop) (E : BiRrtStar -> Prop) : Prop :=
  forall s o s', P s -> m s = (o, s') ->
    match o with
    | Ret a => Q a s'
    | _ => E s'
    end.

(** [preserves R m]: the planner left by [m], however it stops, is related
    by [R] to the planner it started from. *)
Definition preserves {A : Type} (R : BiRrtStar -> BiRrtStar -> Prop)
    (m : M A) : Prop :=
  forall s o s', m s = (o, s') -> R s s'.

(** The members that only [startSolve] and [oneStep] assign, and the ghost
    record of ball queries. *)
Definition same_settings (s s' : BiRrtStar) : Prop :=
  gamma_ s' = gamma_ s /\ extendMaxLength_ s' = extendMaxLength_ s /\
  roots_ s' = roots_ s.

Definition same_queries (s s' : BiRrtStar) : Prop :=
  ball_queries s' = ball_queries s.

(** The state relations that every primitive but [roadmap_nodesWithinBall]
    respects. *)
Definition quiet (s s' : BiRrtStar) : Prop :=
  same_settings s s' /\ same_queries s s'.

(** The radius of the design document for a roadmap of [N] nodes. *)
Definition radius_formula (gamma L : Q) (N : nat) : Q :=
  std_min
    (gamma *
     std_pow (std_log (inject_Z (Z.of_nat N)) / inject_Z (Z.of_nat N))
       (1 / inject_Z (Z.of_nat numberDof)))
    L.

End Specifications.

(** ** Vocabulary for the tree builder *)

Section TreeBuilderSpec.
Context `{PM : PathModel}.

(** [b] is the target of an out-edge of [a]. *)
Definition edge_step (out : NodePtr_t -> list Edge) (a b : NodePtr_t) : Prop :=
  exists e, e ∈ out a /\ to e = b.

(** [n] can be reached from [root] by following out-edges. *)
Definition reachable (out : NodePtr_t -> list Edge) (root n : NodePtr_t)
    : Prop :=
  rtc (edge_step out) root n.


(** The cost of a walk: the sum of the lengths of its edges. *)
Definition walk_cost (es : list Edge) : Q :=
  fold_right (fun e acc => path_length (path e) + acc) 0 es.

(** A common denominator of the rationals of [l]. *)
Definition common_den (l : list Q) : positive :=
  fold_right (fun c acc => (Qden c * acc)%positive) 1%positive l.

(** [c] is a non-negative multiple of [1/D]. *)
Definition integral (D : positive) (c : Q) : Prop :=
  exists z : Z, (0 <= z)%Z /\ c == z # D.

(** The multiple of [1/D] below [c]. *)
Definition scaled (D : positive) (c : Q) : nat :=
  Z.to_nat (Qfloor (c * (Zpos D # 1))).

(** The three components of the termination measure of the [while] loop of
    [computeParentMap], over the nodes [ns] of the graph: nodes not yet
    visited, recorded costs, queued elements. *)
Definition unvisited_count (ns : list NodePtr_t)
    (visited : gmap NodePtr_t WeighedNode_t) : nat :=
  sum_list (map (fun n => match visited !! n with
                          | None => 1%nat
                          | Some _ => 0%nat
                          end) ns).

Definition recorded_cost (D : positive) (ns : list NodePtr_t)
    (visited : gmap NodePtr_t WeighedNode_t) : nat :=
  sum_list (map (fun n => match visited !! n with
                          | None => 0%nat
                          | Some w => scaled D (cost w)
                          end) ns).

(** The lengths of all the out-edges of the nodes [ns]. *)
Definition edge_lengths (out : NodePtr_t -> list Edge) (ns : list NodePtr_t)
    : list Q :=
  flat_map (fun n => map (fun e => path_length (path e)) (out n)) ns.

End TreeBuilderSpec.

(** ** Invariants of the [while] loop of [computeParentMap] *)

Section TreeBuilderInvariants.
Context `{PM : PathModel}.

(** Every queued and every visited node is reachable from [root]; every
    out-edge of a visited node leads to a visited node or to a node that is
    queued; [root] is visited or queued. *)
Definition reach_inv (out : NodePtr_t -> list Edge) (root : NodePtr_t)
    (visited : gmap NodePtr_t WeighedNode_t) (queue : list WeighedNode_t)
    : Prop :=
  (forall x, x ∈ queue -> reachable out root (node x)) /\
  (forall n, is_Some (visited !! n) -> reachable out root n) /\
  (forall n e, is_Some (visited !! n) -> e ∈ out n ->
     is_Some (visited !! to e) \/ exists x, x ∈ queue /\ node x = to e) /\
  (is_Some (visited !! root) \/ exists x, x ∈ queue /\ node x = root).

(** The nodes met lie in [ns] and the costs met are multiples of [1/D]. *)
Definition term_inv (D : positive) (ns : list NodePtr_t)
    (visited : gmap NodePtr_t WeighedNode_t) (queue : list WeighedNode_t)
    : Prop :=
  (forall x, x ∈ queue -> node x ∈ ns /\ integral D (cost x)) /\
  (forall n w, visited !! n = Some w -> n ∈ ns /\ integral D (cost w)).

(** The root, once visited, is recorded with the null edge and cost zero,
    and no queued cost is negative. *)
Definition root_inv (root : NodePtr_t)
    (visited : gmap NodePtr_t WeighedNode_t) (queue : list WeighedNode_t)
    : Prop :=
  (visited !! root = None /\ queue = [mkWeighedNode root None 0]) \/
  ((exists w, visited !! root = Some w /\ parent w = None /\ cost w == 0) /\
   forall x, x ∈ queue -> 0 <= cost x).

End TreeBuilderInvariants.

(** ** Vocabulary for the roadmap *)

Section RoadmapSpec.
Context `{CO : Collaborators}.

(** The node list has no repetition, edges lead to listed nodes, and no
    edge has a negative length. *)
Definition roadmap_wf (r : Roadmap) : Prop :=
  NoDup (nodes r) /\
  forall n e, n ∈ nodes r -> e ∈ outEdges r n ->
    to e ∈ nodes r /\ 0 <= path_length (path e).

(** One connected component: the nodes are mutually reachable through
    roadmap edges. *)
Definition one_component (r : Roadmap) : Prop :=
  forall a b, a ∈ nodes r -> b ∈ nodes r -> reachable (outEdges r) a b.

End RoadmapSpec.

(** ** Vocabulary for rewiring *)

Section RewiringSpec.
Context `{PM : PathModel}.

(** A parent map is a tree when the parent chain of every key reaches an
    entry that holds the null edge. *)
Definition tree (map : gmap NodePtr_t EdgePtr_t) : Prop :=
  forall n, is_Some (map !! n) -> exists es, chain map n es.

(** [map'] is no worse than [map]: every node that has a cost to its root in
    [map] has one in [map'] that is not greater, and the entries that hold
    the null edge are kept. *)
Definition no_worse (map map' : gmap NodePtr_t EdgePtr_t) : Prop :=
  (forall n es, chain map n es ->
     exists es', chain map' n es' /\ sum_lengths 0 es' <= sum_lengths 0 es) /\
  (forall n, map !! n = Some None -> map' !! n = Some None).

(** The entry [e'] of [n] is one that [extend] and [improve] write for the
    new node [qnew]: the entry of [qnew] itself, an edge that arrives on
    [qnew] from a key of [map]; or the entry of a key of [map] other than
    [qnew], an edge that arrives on this key from [qnew]. *)
Definition new_entry (qnew : NodePtr_t) (map : gmap NodePtr_t EdgePtr_t)
    (n : NodePtr_t) (e' : EdgePtr_t) : Prop :=
  exists e, e' = Some e /\ to e = n /\
    ((n = qnew /\ is_Some (map !! from e)) \/
     (n <> qnew /\ is_Some (map !! n) /\ from e = qnew)).

(** The entries of [map'] are those of [map], but for keys of [map] other
    than [qnew] that now hold an edge coming from [qnew]. *)
Definition repointed (qnew : NodePtr_t) (map map' : gmap NodePtr_t EdgePtr_t)
    : Prop :=
  forall n e', map' !! n = Some e' ->
    map !! n = Some e' \/
    (n <> qnew /\ is_Some (map !! n) /\
     exists e, e' = Some e /\ from e = qnew /\ to e = n).

(** The cost to the root of [n] in [map] is at most [c]. *)
Definition reaches (map : gmap NodePtr_t EdgePtr_t) (n : NodePtr_t) (c : Q)
    : Prop :=
  exists es, chain map n es /\ sum_lengths 0 es <= c.

(** What the planner expects from paths: no negative length, and a reversed
    path as long as the path. *)
Class PathLaws := {
  path_length_nonneg : forall p : Path, 0 <= path_length p;
  reverse_length : forall p : Path, path_length (reverse p) == path_length p;
}.

End RewiringSpec.

(** ** Vocabulary for parent chains that never end *)

Section ParentCycles.
Context `{PM : PathModel}.

(** [b] is the source of the parent edge of [a]. *)
Definition parent_step (map : gmap NodePtr_t EdgePtr_t) (a b : NodePtr_t)
    : Prop :=
  exists e, map !! a = Some (Some e) /\ from e = b.

(** Following parents from [n] leads to a node that is its own ancestor. *)
Definition runs_into_cycle (map : gmap NodePtr_t EdgePtr_t) (n : NodePtr_t)
    : Prop :=
  exists m, rtc (parent_step map) n m /\ tc (parent_step map) m m.

(** The nodes crossed by following parents from [n], all of them keys that
    hold an edge. *)
Inductive parent_path (map : gmap NodePtr_t EdgePtr_t)
  : NodePtr_t -> list NodePtr_t -> Prop :=
| parent_path_one n e : map !! n = Some (Some e) -> parent_path map n [n]
| parent_path_cons n e l :
    map !! n = Some (Some e) -> parent_path map (from e) l ->
    parent_path map n (n :: l).

End ParentCycles.

(** ** Invariant of [computeParentMap] for shortest paths *)

Section TreeBuilderCosts.
Context `{PM : PathModel}.

(** A recorded or queued element [(n, par, c)] is sound: [c] is not
    negative; without a parent edge, [n] is the root and [c] is zero; with a
    parent edge [e], [e] is an out-edge of its source and leads to [n], and
    the source is visited with a cost that, increased by the length of [e],
    does not exceed [c]. *)
Definition entry_ok (out : NodePtr_t -> list Edge) (root : NodePtr_t)
    (visited : gmap NodePtr_t WeighedNode_t)
    (n : NodePtr_t) (par : EdgePtr_t) (c : Q) : Prop :=
  0 <= c /\
  match par with
  | None => n = root /\ c == 0
  | Some e =>
      to e = n /\ e ∈ out (from e) /\
      exists w', visited !! from e = Some w' /\
        cost w' + path_length (path e) <= c
  end.

(** Every recorded and every queued element is sound; every out-edge of a
    visited node is relaxed, by the recorded cost of its target or by a
    queued element; following the recorded parents from a visited node
    reaches the root. *)
Definition label_inv (out : NodePtr_t -> list Edge) (root : NodePtr_t)
    (visited : gmap NodePtr_t WeighedNode_t) (queue : list WeighedNode_t)
    : Prop :=
  (forall n w, visited !! n = Some w ->
     entry_ok out root visited n (parent w) (cost w)) /\
  (forall x, x ∈ queue ->
     entry_ok out root visited (node x) (parent x) (cost x)) /\
  (forall n w e, visited !! n = Some w -> e ∈ out n ->
     (exists w', visited !! to e = Some w' /\
        cost w' <= cost w + path_length (path e)) \/
     (exists x, x ∈ queue /\ node x = to e /\
        cost x <= cost w + path_length (path e))) /\
  (forall n, is_Some (visited !! n) ->
     exists es, chain (parent <$> visited) n es) /\
  root_inv root visited queue.

End TreeBuilderCosts.

(** ** Vocabulary for the growth of the roadmap *)

Section RoadmapGrowth.
Context `{CO : Collaborators}.

(** [r'] is [r] after some insertions of edges, each one followed by the
    insertion of the reverse edge with the reversed path. *)
Inductive edge_pairs_added (r : Roadmap) : Roadmap -> Prop :=
| pairs_none : edge_pairs_added r r
| pairs_more r' a b p :
    edge_pairs_added r r' ->
    edge_pairs_added r (addEdge (addEdge r' a b p) b a (reverse p)).

(** The relation on planners: [edge_pairs_added] on their roadmaps. *)
Definition adds_edge_pairs (s s' : BiRrtStar) : Prop :=
  edge_pairs_added (roadmap s) (roadmap s').

(** The planner keeps the parent map of the slot other than [k]. *)
Definition keeps_other (k : nat) (s s' : BiRrtStar) : Prop :=
  at2 (other k) (toRoot_ s') = at2 (other k) (toRoot_ s).

(** What [extend] and [improve] expect from the path validation and from
    [extract]: the valid part of a path is not longer than the path, and a
    path cut to a shorter positive length has that length. *)
Class BuildLaws := {
  valid_part_length :
    forall p p', snd (pathValidation p) = Some p' ->
      path_length p' <= path_length p;
  extract_length :
    forall p l, 0 < l -> l < path_length p ->
      path_length (extract p (timeRange_first p) (timeRange_first p + l)) == l;
}.

End RoadmapGrowth.
(** * Properties *)

Lemma Qltb_lt a b : Qltb a b = true <-> a < b.
Proof.
  unfold Qltb. rewrite negb_true_iff, <- not_true_iff_false, Qle_bool_iff.
  split; [apply Qnot_le_lt | apply Qlt_not_le].
Qed.

Lemma Qltb_ge a b : Qltb a b = false <-> b <= a.
Proof. unfold Qltb. rewrite negb_false_iff, Qle_bool_iff. reflexivity. Qed.

Ltac case_Qltb a b :=
  let H := fresh "Hlt" in
  destruct (Qltb a b) eqn:H;
  [apply Qltb_lt in H | apply Qltb_ge in H].

(** ** Parent chains and [computeCost] *)

Section ParentMapFacts.
Context `{PF : Platform}.
Implicit Types (map : gmap NodePtr_t EdgePtr_t) (n : NodePtr_t).
Implicit Types (es : list Edge) (c : Q).

Lemma sum_lengths_cons c e es :
  sum_lengths c (e :: es) = sum_lengths (c + path_length (path e)) es.
Proof. reflexivity. Qed.

Lemma sum_lengths_shift c es : sum_lengths c es == c + sum_lengths 0 es.
Proof.
  revert c. induction es as [|e es IH]; intros c.
  - unfold sum_lengths; simpl. lra.
  - rewrite !sum_lengths_cons, (IH (c + _)), (IH (0 + _)). lra.
Qed.

Lemma sum_lengths_nonneg es :
  (forall p, 0 <= path_length p) -> 0 <= sum_lengths 0 es.
Proof.
  intros Hp. induction es as [|e es IH].
  - unfold sum_lengths; simpl. lra.
  - rewrite sum_lengths_cons, sum_lengths_shift. specialize (Hp (path e)). lra.
Qed.

Lemma chain_functional map n es es' :
  chain map n es -> chain map n es' -> es = es'.
Proof.
  intros H. revert es'. induction H as [n Hn|n e es Hn _ IH]; intros es' H'.
  - inversion H'; subst; [done | congruence].
  - inversion H'; subst; [congruence |].
    assert (e0 = e) by congruence. subst. f_equal. by apply IH.
Qed.

Lemma chain_nodes_length n es : length (chain_nodes n es) = S (length es).
Proof. revert n. induction es; intros; simpl; [done | by rewrite IHes]. Qed.

Lemma chain_suffix map n es m :
  chain map n es -> m ∈ chain_nodes n es ->
  exists es', chain map m es' /\ (length es' <= length es)%nat /\
    (m <> n -> length es' < length es)%nat.
Proof.
  intros H. induction H as [n Hn|n e es Hn Hc IH]; simpl; intros Hm.
  - apply list_elem_of_singleton in Hm as ->.
    exists []. split; [by constructor | split; [done | congruence]].
  - apply elem_of_cons in Hm as [-> | Hm].
    + exists (e :: es). split; [by econstructor | split; [done | congruence]].
    + destruct (IH Hm) as (es' & H1 & H2 & _).
      exists es'. split; [done | simpl; split; lia].
Qed.

Lemma chain_nodes_NoDup map n es : chain map n es -> NoDup (chain_nodes n es).
Proof.
  intros H. induction H as [n Hn|n e es Hn Hc IH]; simpl.
  - apply NoDup_singleton.
  - constructor; [|done]. intros Hin.
    destruct (chain_suffix _ _ _ _ Hc Hin) as (es' & H1 & H2 & _).
    assert (es' = e :: es) by (eapply chain_functional; [done | by econstructor]).
    subst. simpl in H2. lia.
Qed.

Lemma chain_nodes_dom map n es :
  chain map n es -> forall m, m ∈ chain_nodes n es -> is_Some (map !! m).
Proof.
  intros H. induction H as [n Hn|n e es Hn Hc IH]; simpl; intros m Hm.
  - apply list_elem_of_singleton in Hm as ->. eauto.
  - apply elem_of_cons in Hm as [-> | Hm]; eauto.
Qed.

Lemma NoDup_keys_bound map (l : list NodePtr_t) :
  NoDup l -> (forall m, m ∈ l -> is_Some (map !! m)) ->
  (length l <= size map)%nat.
Proof.
  intros Hnd Hin.
  rewrite <- size_dom. unfold size, set_size; simpl.
  apply submseteq_length, NoDup_submseteq; [done |].
  intros m Hm. apply elem_of_elements, elem_of_dom. auto.
Qed.

Lemma chain_length_lt_size map n es :
  chain map n es -> (length es < size map)%nat.
Proof.
  intros H.
  pose proof (NoDup_keys_bound map _ (chain_nodes_NoDup _ _ _ H)
                (chain_nodes_dom _ _ _ H)) as Hb.
  rewrite chain_nodes_length in Hb. lia.
Qed.

Lemma computeCost_loop_chain fuel map n es c :
  chain map n es -> (length es <= fuel)%nat ->
  computeCost_loop fuel map (map !! n) c = Ret (sum_lengths c es).
Proof.
  intros H. revert fuel c.
  induction H as [n Hn|n e es Hn Hc IH]; intros fuel c Hf.
  - rewrite Hn. by destruct fuel.
  - rewrite Hn. destruct fuel as [|fuel]; simpl in *; [lia |].
    rewrite IH by lia. reflexivity.
Qed.

(** On a chain that reaches the root, [computeCost] returns the sum of the
    lengths along the chain. *)
Lemma computeCost_chain map n es :
  chain map n es -> computeCost map n = Ret (sum_lengths 0 es).
Proof.
  intros H. apply computeCost_loop_chain; [done |].
  apply chain_length_lt_size in H. lia.
Qed.

Lemma chain_keys_length n es : length (chain_keys n es) = length es.
Proof. revert n. induction es; intros; simpl; [done | by rewrite IHes]. Qed.

Lemma broken_chain_functional map n es es' :
  broken_chain map n es -> broken_chain map n es' -> es = es'.
Proof.
  intros H. revert es'. induction H as [n Hn|n e es Hn _ IH]; intros es' H'.
  - inversion H'; subst; [done | congruence].
  - inversion H'; subst; [congruence |].
    assert (e0 = e) by congruence. subst. f_equal. by apply IH.
Qed.

Lemma broken_chain_suffix map n es m :
  broken_chain map n es -> m ∈ chain_keys n es ->
  exists es', broken_chain map m es' /\ (length es' <= length es)%nat.
Proof.
  intros H. induction H as [n Hn|n e es Hn Hc IH]; simpl; intros Hm.
  - inversion Hm.
  - apply elem_of_cons in Hm as [-> | Hm].
    + exists (e :: es). split; [by econstructor | done].
    + destruct (IH Hm) as (es' & H1 & H2).
      exists es'. split; [done | simpl; lia].
Qed.

Lemma broken_chain_keys_NoDup map n es :
  broken_chain map n es -> NoDup (chain_keys n es).
Proof.
  intros H. induction H as [n Hn|n e es Hn Hc IH]; simpl.
  - constructor.
  - constructor; [|done]. intros Hin.
    destruct (broken_chain_suffix _ _ _ _ Hc Hin) as (es' & H1 & H2).
    assert (es' = e :: es)
      by (eapply broken_chain_functional; [done | by econstructor]).
    subst. simpl in H2. lia.
Qed.

Lemma broken_chain_keys_dom map n es :
  broken_chain map n es ->
  forall m, m ∈ chain_keys n es -> is_Some (map !! m).
Proof.
  intros H. induction H as [n Hn|n e es Hn Hc IH]; simpl; intros m Hm.
  - inversion Hm.
  - apply elem_of_cons in Hm as [-> | Hm]; eauto.
Qed.

Lemma broken_chain_length_le_size map n es :
  broken_chain map n es -> (length es <= size map)%nat.
Proof.
  intros H. rewrite <- (chain_keys_length n es).
  apply NoDup_keys_bound;
    [by eapply broken_chain_keys_NoDup | by eapply broken_chain_keys_dom].
Qed.

Lemma computeCost_loop_broken fuel map n es c :
  broken_chain map n es -> (length es <= fuel)%nat ->
  computeCost_loop fuel map (map !! n) c =
    match past_the_end_second with
    | None => Ret (sum_lengths c es)
    | Some _ => Throw (logic_error "this node has no parent.")
    end.
Proof.
  intros H. revert fuel c.
  induction H as [n Hn|n e es Hn Hc IH]; intros fuel c Hf.
  - rewrite Hn. destruct fuel; simpl; by destruct past_the_end_second.
  - rewrite Hn. destruct fuel as [|fuel]; simpl in *; [lia |].
    rewrite IH by lia. reflexivity.
Qed.

(** On a chain that arrives on a node that is not a key, the outcome is
    decided by what is read through [map.end()]: a null pointer ends the
    loop as if a root had been reached. *)
Lemma computeCost_broken map n es :
  broken_chain map n es ->
  computeCost map n =
    match past_the_end_second with
    | None => Ret (sum_lengths 0 es)
    | Some _ => Throw (logic_error "this node has no parent.")
    end.
Proof.
  intros H. apply computeCost_loop_broken; [done |].
  by apply (broken_chain_length_le_size map n).
Qed.

(** [Diverges] is produced only when the parent chain neither reaches a root
    nor leaves the map, that is when it runs into a cycle. *)
Lemma computeCost_Diverges_cycle map n :
  computeCost map n = Diverges ->
  (forall es, ~ chain map n es) /\ (forall es, ~ broken_chain map n es).
Proof.
  intros HD. split; intros es H.
  - rewrite (computeCost_chain _ _ _ H) in HD. discriminate.
  - rewrite (computeCost_broken _ _ _ H) in HD.
    destruct past_the_end_second; discriminate.
Qed.

Lemma computeCost_loop_Ret fuel map n c r :
  closed_map map -> is_Some (map !! n) ->
  computeCost_loop fuel map (map !! n) c = Ret r ->
  exists es, chain map n es /\ r = sum_lengths c es.
Proof.
  intros Hclosed. revert n c.
  induction fuel as [|fuel IH]; intros n c [e He] Hr; rewrite He in Hr.
  - destruct e as [e|]; simpl in Hr; [discriminate |].
    inversion Hr; subst. exists []. split; [by constructor | done].
  - destruct e as [e|]; simpl in Hr.
    + destruct (IH _ _ (Hclosed _ _ He) Hr) as (es & H1 & H2).
      exists (e :: es). split; [by econstructor | done].
    + inversion Hr; subst. exists []. split; [by constructor | done].
Qed.

(** In a closed map, a cost returned for a key is the sum along a chain
    that reaches a root. *)
Lemma computeCost_Ret map n r :
  closed_map map -> is_Some (map !! n) -> computeCost map n = Ret r ->
  exists es, chain map n es /\ r = sum_lengths 0 es.
Proof. apply computeCost_loop_Ret. Qed.

End ParentMapFacts.

(** ** [computeCost] and [setParent] against the design document *)

Section ParentMapClaims.
Context `{PF : Platform}.
Implicit Types (map : gmap NodePtr_t EdgePtr_t) (n : NodePtr_t).

Lemma setParent_unfold_None map n :
  setParent map n None = (Ret tt, <[n := None]> map).
Proof. reflexivity. Qed.

Lemma setParent_cases map n e o map' :
  setParent map n e = (o, map') ->
  (o = Ret tt /\ map' = <[n := e]> map) \/
  (o <> Ret tt /\ map' = map).
Proof.
  unfold setParent. destruct e as [ed|].
  - destruct (negb NDEBUG && negb (to ed =? n)%nat).
    + intros [= <- <-]. right. done.
    + destruct (map !! from ed); intros [= <- <-]; [left | right]; done.
  - intros [= <- <-]. by left.
Qed.

(** C8 (as amended): [setParent(map, n, e)] throws the logic error exactly
    when [e] is present, [e->from()] is not a key of [map], and the
    assertion on [e->to()] does not stop the call first; whenever it does not
    return, [map] is left as it was; when it returns, [map[n]] is [e]; and
    it returns whenever [e] is null, or [e->to() == n] and [e->from()] is a
    key.  A present edge with [e->to() != n] is a matter for the assertion:
    the call stops on it exactly when assertions are compiled in, and no
    logic error is thrown for it.  The call ends in one of these three ways
    and in no other. *)
Theorem setParent_spec map n e o map' :
  setParent map n e = (o, map') ->
  (o = Throw (logic_error "could not find node from of edge in parent map.")
   <-> exists ed, e = Some ed /\ map !! from ed = None /\
         (to ed = n \/ NDEBUG = true)) /\
  (o <> Ret tt -> map' = map) /\
  (o = Ret tt -> map' = <[n := e]> map) /\
  (e = None \/
   (exists ed, e = Some ed /\ to ed = n /\ is_Some (map !! from ed)) ->
   o = Ret tt) /\
  (o = AssertFailure
   <-> exists ed, e = Some ed /\ to ed <> n /\ NDEBUG = false) /\
  (o = Ret tt \/ o = AssertFailure \/
   o = Throw (logic_error "could not find node from of edge in parent map.")).
Proof.
  intros H. pose proof (setParent_cases _ _ _ _ _ H) as Hc.
  split; [|split; [|split; [|split; [|split]]]].
  - unfold setParent in H. destruct e as [ed|].
    + destruct NDEBUG eqn:HN; simpl in H.
      * destruct (map !! from ed) eqn:Hf; inversion H; subst; split.
        -- discriminate.
        -- intros (ed' & [= <-] & Hfe & _). congruence.
        -- intros _. exists ed. eauto.
        -- done.
      * destruct (to ed =? n)%nat eqn:Hto; simpl in H.
        -- apply Nat.eqb_eq in Hto.
           destruct (map !! from ed) eqn:Hf; inversion H; subst; split.
           ++ discriminate.
           ++ intros (ed' & [= <-] & Hfe & _). congruence.
           ++ intros _. exists ed. eauto.
           ++ done.
        -- apply Nat.eqb_neq in Hto. inversion H; subst. split.
           ++ discriminate.
           ++ intros (ed' & [= <-] & _ & [Ht | Ht]); [done | discriminate].
    + inversion H; subst. split; [discriminate |].
      intros (ed & Hed & _). discriminate.
  - intros Ho. destruct Hc as [[? ?] | [? ?]]; [done | done].
  - intros Ho. destruct Hc as [[? ?] | [? ?]]; [done | done].
  - intros [-> | (ed & -> & Hto & [x Hx])].
    + simpl in H. by inversion H.
    + unfold setParent in H. apply Nat.eqb_eq in Hto. rewrite Hto, Hx in H.
      rewrite andb_false_r in H. by inversion H.
  - unfold setParent in H. destruct e as [ed|].
    + destruct NDEBUG eqn:HN; simpl in H.
      * destruct (map !! from ed); inversion H; subst;
          (split; [discriminate | intros (? & _ & _ & ?); discriminate]).
      * destruct (to ed =? n)%nat eqn:Hto; simpl in H.
        -- apply Nat.eqb_eq in Hto.
           destruct (map !! from ed); inversion H; subst;
             (split; [discriminate |]);
             intros (ed' & [= <-] & Hne & _); done.
        -- apply Nat.eqb_neq in Hto. inversion H; subst.
           split; [|done]. intros _. exists ed. done.
    + inversion H; subst. split; [discriminate |].
      intros (ed & Hed & _). discriminate.
  - unfold setParent in H. destruct e as [ed|].
    + destruct (negb NDEBUG && negb (to ed =? n)%nat).
      * inversion H. right. by left.
      * destruct (map !! from ed); inversion H; [by left | right; by right].
    + inversion H. by left.
Qed.

End ParentMapClaims.

(** ** Reasoning rules for member functions *)

Section MonadRules.
Context `{PF : Platform} `{CO : !Collaborators}.

Lemma bind_inv {A B} (m : M A) (f : A -> M B) s o s' :
  bind m f s = (o, s') ->
  (exists a s1, m s = (Ret a, s1) /\ f a s1 = (o, s')) \/
  (exists o1, m s = (o1, s') /\ (forall a, o1 <> Ret a) /\
     match o1 with
     | Ret _ => False
     | Throw e => o = Throw e
     | AssertFailure => o = AssertFailure
     | Diverges => o = Diverges
     end).
Proof.
  unfold bind. destruct (m s) as [[a|e| |] s1] eqn:Hm; intros H.
  - left. eauto.
  - right. inversion H; subst. exists (Throw e). done.
  - right. inversion H; subst. exists AssertFailure. done.
  - right. inversion H; subst. exists Diverges. done.
Qed.

Lemma bind_inv_Ret {A B} (m : M A) (f : A -> M B) s b s' :
  bind m f s = (Ret b, s') ->
  exists a s1, m s = (Ret a, s1) /\ f a s1 = (Ret b, s').
Proof.
  intros H. apply bind_inv in H as [H | (o1 & _ & _ & H)]; [done |].
  destruct o1; [done | discriminate ..].
Qed.

Lemma preserves_ret {A} R (a : A) :
  (forall s, R s s) -> preserves R (ret a).
Proof. intros HR s o s' [= <- <-]. apply HR. Qed.

Lemma preserves_bind {A B} R (m : M A) (f : A -> M B) :
  (forall s1 s2 s3, R s1 s2 -> R s2 s3 -> R s1 s3) ->
  preserves R m -> (forall a, preserves R (f a)) -> preserves R (bind m f).
Proof.
  intros Htr Hm Hf s o s' H.
  apply bind_inv in H as [(a & s1 & H1 & H2) | (o1 & H1 & _)].
  - eapply Htr; [eapply Hm | eapply Hf]; eauto.
  - eapply Hm; eauto.
Qed.

Lemma triple_bind {A B} P (m : M A) Q (f : A -> M B) Q' E :
  triple P m Q E -> (forall a, triple (Q a) (f a) Q' E) ->
  triple P (bind m f) Q' E.
Proof.
  intros Hm Hf s o s' HP H.
  apply bind_inv in H as [(a & s1 & H1 & H2) | (o1 & H1 & Hn & Ho)].
  - specialize (Hm _ _ _ HP H1). simpl in Hm. exact (Hf a _ _ _ Hm H2).
  - specialize (Hm _ _ _ HP H1).
    destruct o1; [by destruct (Hn a) | subst o ..]; exact Hm.
Qed.

Lemma triple_ret {A} (P : BiRrtStar -> Prop) (a : A) Q E :
  (forall s, P s -> Q a s) -> triple P (ret a) Q E.
Proof. intros H s o s' HP [= <- <-]. by apply H. Qed.

Lemma triple_weaken {A} (P P' : BiRrtStar -> Prop) (m : M A)
    (Q Q' : A -> BiRrtStar -> Prop) (E E' : BiRrtStar -> Prop) :
  triple P m Q E ->
  (forall s, P' s -> P s) -> (forall a s, Q a s -> Q' a s) ->
  (forall s, E s -> E' s) -> triple P' m Q' E'.
Proof.
  intros H HP HQ HE s o s' Hs Hm. specialize (H _ _ _ (HP _ Hs) Hm).
  destruct o; auto.
Qed.

Lemma same_settings_refl s : same_settings s s.
Proof. by repeat split. Qed.

Lemma same_settings_trans s1 s2 s3 :
  same_settings s1 s2 -> same_settings s2 s3 -> same_settings s1 s3.
Proof.
  intros (?&?&?) (?&?&?). repeat split; congruence.
Qed.

Lemma same_queries_trans s1 s2 s3 :
  same_queries s1 s2 -> same_queries s2 s3 -> same_queries s1 s3.
Proof. unfold same_queries. congruence. Qed.

Lemma quiet_refl s : quiet s s.
Proof. split; [apply same_settings_refl | done]. Qed.

Lemma quiet_trans s1 s2 s3 : quiet s1 s2 -> quiet s2 s3 -> quiet s1 s3.
Proof.
  intros [? ?] [? ?].
  split; [by eapply same_settings_trans | by eapply same_queries_trans].
Qed.

Lemma quiet_computeCost_k k n : preserves quiet (computeCost_k k n).
Proof. intros s o s' [= <- <-]. apply quiet_refl. Qed.

Lemma quiet_setParent_k k n e : preserves quiet (setParent_k k n e).
Proof.
  intros s o s'. unfold setParent_k.
  destruct (setParent _ n e) as [o1 m]. intros [= <- <-]. by repeat split.
Qed.

Lemma quiet_addNode q : preserves quiet (roadmap_addNode q).
Proof.
  intros s o s'. unfold roadmap_addNode.
  destruct (addNode _ q) as [n r]. intros [= <- <-]. by repeat split.
Qed.

Lemma quiet_addEdge n1 n2 p : preserves quiet (roadmap_addEdge n1 n2 p).
Proof. intros s o s' [= <- <-]. by repeat split. Qed.

Lemma quiet_get_roadmap : preserves quiet get_roadmap.
Proof. intros s o s' [= <- <-]. apply quiet_refl. Qed.

Lemma quiet_assert b : preserves quiet (assert_ b).
Proof.
  intros s o s'. unfold assert_.
  destruct (negb NDEBUG && negb b); intros [= <- <-]; apply quiet_refl.
Qed.

Lemma quiet_assert_dep (b : BiRrtStar -> bool) :
  preserves quiet (fun s => assert_ (b s) s).
Proof. intros s o s' H. by eapply quiet_assert. Qed.

Ltac quiet_step :=
  first
    [ apply preserves_ret; apply quiet_refl
    | apply quiet_computeCost_k
    | apply quiet_setParent_k
    | apply quiet_addNode
    | apply quiet_addEdge
    | apply quiet_get_roadmap
    | apply quiet_assert_dep
    | apply quiet_assert
    | apply preserves_bind; [apply quiet_trans | | intros ?] ].

Lemma quiet_chooseParent k q nearNodes c :
  preserves quiet (chooseParent k q nearNodes c).
Proof.
  revert c. induction nearNodes as [|n rest IH]; intros c; simpl.
  - quiet_step.
  - destruct (n =? near c)%nat; [apply IH |].
    quiet_step; [quiet_step |].
    destruct (buildPath _ q (-1) false) as [p|]; [|apply IH].
    quiet_step; [quiet_step |].
    destruct (Qltb _ _); [destruct (validate p) |]; apply IH.
Qed.

Lemma quiet_attach k near qnew p : preserves quiet (attach k near qnew p).
Proof. unfold attach. repeat quiet_step. Qed.

Lemma quiet_rewire_one chk k near qnew cost_q n vp :
  preserves quiet (rewire_one chk k near qnew cost_q n vp).
Proof.
  destruct vp as [v [p|]]; simpl; [|quiet_step].
  destruct (n =? near)%nat; [quiet_step |].
  quiet_step; [quiet_step |].
  destruct (Qltb _ _); [|quiet_step].
  destruct (if v then true else validate p); [|quiet_step].
  quiet_step; [quiet_step |]. quiet_step; [quiet_step |].
  quiet_step; [|quiet_step]. destruct chk; quiet_step.
Qed.

Lemma quiet_rewire chk k near qnew cost_q l :
  preserves quiet (rewire chk k near qnew cost_q l).
Proof.
  induction l as [|[n vp] rest IH]; simpl; [quiet_step |].
  quiet_step; [apply quiet_rewire_one | apply IH].
Qed.

(** What is left of [extend] once [nodesWithinBall] has answered. *)
Lemma quiet_extend_tail k q' near0 path0 nearNodes :
  preserves quiet
    (bind (computeCost_k k near0) (fun c_near =>
     bind (chooseParent k q' nearNodes
             (mkChoice (c_near + path_length path0) near0 path0 []))
       (fun ch =>
     bind (roadmap_addNode q') (fun qnew =>
     bind (attach k (near ch) qnew (near_path ch)) (fun _ =>
     bind (rewire false k (near ch) qnew (cost_q ch)
             (zip nearNodes (paths ch))) (fun _ =>
     ret (true, q'))))))).
Proof.
  quiet_step; [quiet_step |]. quiet_step; [apply quiet_chooseParent |].
  quiet_step; [quiet_step |]. quiet_step; [apply quiet_attach |].
  quiet_step; [apply quiet_rewire | quiet_step].
Qed.

Lemma quiet_improve_pass k q qnew nearNodes path0 near0 :
  preserves quiet (improve_pass k q qnew nearNodes path0 near0).
Proof.
  unfold improve_pass.
  quiet_step; [quiet_step |]. quiet_step; [apply quiet_chooseParent |].
  quiet_step; [apply quiet_attach |].
  quiet_step; [apply quiet_rewire | quiet_step].
Qed.

End MonadRules.

(** ** [extend] and [improve]: guards and ball queries *)

Section ExtendFacts.
Context `{PF : Platform} `{CO : !Collaborators}.

Lemma ball_radius_is_formula gamma L N :
  ball_radius gamma L N = radius_formula gamma L N.
Proof. reflexivity. Qed.

(** The planner right after the ball query of [extend] or [improve]. *)
Lemma nodesWithinBall_inv q cc r s o s1 :
  roadmap_nodesWithinBall q cc r s = (o, s1) ->
  o = Ret (nodesWithinBall (roadmap s) q cc r) /\
  roadmap s1 = roadmap s /\ toRoot_ s1 = toRoot_ s /\
  same_settings s s1 /\ ball_queries s1 = (q, cc, r) :: ball_queries s.
Proof. intros [= <- <-]. by repeat split. Qed.

(** [extend] past its guards: the ball query is made around the end of the
    built path, and what follows leaves the record of queries alone. *)
Lemma extend_past_guards target k q s near0 dist path0 :
  nearestNode_cc (roadmap s) q (connectedComponent (roadmap s) target)
    = (near0, dist) ->
  Qltb dist eps_dist = false ->
  buildPath (configuration (roadmap s) near0) q (extendMaxLength_ s) true
    = Some path0 ->
  Qltb (path_length path0) eps_length = false ->
  forall o s', extend target k q s = (o, s') ->
    ball_queries s' =
      (path_end path0, connectedComponent (roadmap s) target,
       ball_radius (gamma_ s) (extendMaxLength_ s)
         (length (nodes (roadmap s)))) :: ball_queries s /\
    same_settings s s' /\
    forall r, o = Ret r -> r = (true, path_end path0).
Proof.
  intros Hn Hd Hp Hl o s' H. unfold extend in H.
  rewrite Hn, Hd, Hp, Hl in H.
  apply bind_inv in H as [(nn & s1 & H1 & H2) | (o1 & H1 & Hne & _)].
  - apply nodesWithinBall_inv in H1 as (_ & _ & _ & Hs1 & Hq1).
    pose proof (quiet_extend_tail _ _ _ _ _ _ _ _ H2) as [Hs2 Hq2].
    split; [unfold same_queries in Hq2; congruence |].
    split; [by eapply same_settings_trans |].
    intros r ->.
    repeat (apply bind_inv_Ret in H2 as (? & ? & _ & H2)).
    by inversion H2.
  - apply nodesWithinBall_inv in H1 as (-> & _). by edestruct Hne.
Qed.

(** C9: [extend] returns false, raising nothing and leaving the roadmap and
    the parent maps as they were, when the nearest node of the target
    component is closer than [1e-16], or when the capped, validated path is
    missing or shorter than [1e-10]; otherwise the path exists, the ball
    query is made around its end configuration, and [q] holds that
    configuration when [extend] returns, which it then does with [true]. *)
Theorem extend_guards target k q s :
  let cc := connectedComponent (roadmap s) target in
  let near0 := fst (nearestNode_cc (roadmap s) q cc) in
  let dist := snd (nearestNode_cc (roadmap s) q cc) in
  let p :=
    buildPath (configuration (roadmap s) near0) q (extendMaxLength_ s) true in
  let stop :=
    dist < eps_dist \/ p = None \/
    exists p0, p = Some p0 /\ path_length p0 < eps_length in
  (stop -> extend target k q s = (Ret (false, q), s)) /\
  (~ stop ->
   exists p0, p = Some p0 /\
     forall o s', extend target k q s = (o, s') ->
       (exists r, ball_queries s' = (path_end p0, cc, r) :: ball_queries s) /\
       (forall b q', o = Ret (b, q') -> b = true /\ q' = path_end p0)).
Proof.
  intros cc near0 dist p stop. subst near0 dist p cc.
  destruct (nearestNode_cc _ _ _) as [near0 dist] eqn:Hn.
  subst stop. simpl. split.
  - intros Hstop. unfold extend. rewrite Hn.
    case_Qltb dist eps_dist; [done |].
    destruct Hstop as [Hd | [Hp | (p0 & Hp & Hl)]].
    + lra.
    + by rewrite Hp.
    + rewrite Hp. apply Qltb_lt in Hl. by rewrite Hl.
  - intros Hgo.
    destruct (buildPath _ _ _ _) as [p0|] eqn:Hp;
      [|exfalso; apply Hgo; right; left; done].
    exists p0. split; [done |]. intros o s' H.
    assert (Hd : Qltb dist eps_dist = false).
    { apply Qltb_ge. apply Qnot_lt_le. intros Hlt. apply Hgo. by left. }
    assert (Hl : Qltb (path_length p0) eps_length = false).
    { apply Qltb_ge. apply Qnot_lt_le. intros Hlt. apply Hgo.
      right; right. eauto. }
    destruct (extend_past_guards _ _ _ _ _ _ _ Hn Hd Hp Hl _ _ H)
      as (Hq & _ & Hr).
    split; [eauto |]. intros b q' ->.
    specialize (Hr _ eq_refl). by inversion Hr.
Qed.

End ExtendFacts.

(** ** [oneStep] in the growth phase *)

Section GrowthFacts.
Context `{PF : Platform} `{CO : !Collaborators}.

Lemma extend_same_settings target k q :
  preserves same_settings (extend target k q).
Proof.
  intros s o s' H.
  destruct (nearestNode_cc (roadmap s) q
              (connectedComponent (roadmap s) target))
    as [near0 dist] eqn:Hn.
  destruct (Qltb dist eps_dist) eqn:Hd.
  { unfold extend in H. rewrite Hn, Hd in H. inversion H.
    apply same_settings_refl. }
  destruct (buildPath (configuration (roadmap s) near0) q
              (extendMaxLength_ s) true) as [path0|] eqn:Hp.
  2:{ unfold extend in H. rewrite Hn, Hd, Hp in H. inversion H.
      apply same_settings_refl. }
  destruct (Qltb (path_length path0) eps_length) eqn:Hl.
  { unfold extend in H. rewrite Hn, Hd, Hp, Hl in H. inversion H.
    apply same_settings_refl. }
  by destruct (extend_past_guards _ _ _ _ _ _ _ Hn Hd Hp Hl _ _ H)
    as (_ & ? & _).
Qed.

Lemma connect_same_settings fuel b k q :
  preserves same_settings (connect fuel b k q).
Proof.
  induction fuel as [|fuel IH]; intros s o s'; simpl.
  - destruct (_ =? 2)%nat; intros [= <- <-]; apply same_settings_refl.
  - destruct (_ =? 2)%nat; [|intros [= <- <-]; apply same_settings_refl].
    revert s o s'.
    apply preserves_bind;
      [apply same_settings_trans | apply extend_same_settings | intros r].
    destruct (negb (fst r)); [|apply IH].
    apply preserves_ret, same_settings_refl.
Qed.

(** C5 (as amended): a call of [oneStep] that starts with two connected
    components and returns ends by swapping the two root slots and the two
    parent-map slots, unless [extend] returned true and left the two roots
    in one connected component: [oneStep] then returns at once and the
    slots stay as they were. *)
Theorem oneStep_growth_swap fuel q s s' :
  connectedComponents_size (roadmap s) = 2%nat ->
  oneStep fuel q s = (Ret tt, s') ->
  exists b q' s1,
    extend (fst (roots_ s)) 0 q s = (Ret (b, q'), s1) /\
    let merged :=
      b = true /\
      connectedComponent (roadmap s1) (fst (roots_ s)) =
      connectedComponent (roadmap s1) (snd (roots_ s)) in
    (merged -> s' = s1 /\ roots_ s' = roots_ s) /\
    (~ merged ->
     roots_ s' = swap2 (roots_ s) /\
     exists s2,
       (if b then
          exists r, connect fuel (snd (roots_ s)) 1 q' s1 = (Ret r, s2)
        else s2 = s1) /\
       toRoot_ s' = swap2 (toRoot_ s2) /\ roadmap s' = roadmap s2).
Proof.
  intros Hcc H. unfold oneStep in H. rewrite Hcc in H. simpl in H.
  apply bind_inv_Ret in H as ([b q'] & s1 & He & H). simpl in H.
  pose proof (extend_same_settings _ _ _ _ _ _ He) as (_ & _ & Hr1).
  exists b, q', s1. split; [done |]. rewrite <- Hr1.
  destruct b.
  - destruct (_ =? _)%nat eqn:Hsame.
    + apply Nat.eqb_eq in Hsame. inversion H; subst. split; [done |].
      intros Hn. destruct Hn. done.
    + apply Nat.eqb_neq in Hsame. split; [intros [_ ?]; done |]. intros _.
      apply bind_inv_Ret in H as (r & s2 & Hc & H).
      pose proof (connect_same_settings _ _ _ _ _ _ _ Hc) as (_ & _ & Hr2).
      inversion H; subst; simpl. split; [by rewrite Hr2 |].
      exists s2. eauto.
  - split; [intros [? _]; done |]. intros _. inversion H; subst; simpl.
    split; [done |]. exists s1. done.
Qed.

End GrowthFacts.

(** ** Arithmetic of the termination measure *)

Section Measure.

Lemma sum_list_map_le {A} (f g : A -> nat) l :
  (forall x, x ∈ l -> (f x <= g x)%nat) ->
  (sum_list (map f l) <= sum_list (map g l))%nat.
Proof.
  induction l as [|a l IH]; intros H; simpl; [lia |].
  pose proof (H a ltac:(left)) as Ha.
  assert (forall x, x ∈ l -> (f x <= g x)%nat) by (intros; apply H; by right).
  specialize (IH ltac:(done)). lia.
Qed.

Lemma sum_list_map_lt {A} (f g : A -> nat) l a :
  (forall x, x ∈ l -> (f x <= g x)%nat) -> a ∈ l -> (f a < g a)%nat ->
  (sum_list (map f l) < sum_list (map g l))%nat.
Proof.
  induction l as [|b l IH]; intros H Ha Hlt; [inversion Ha |]. simpl.
  assert (Hl : forall x, x ∈ l -> (f x <= g x)%nat)
    by (intros; apply H; by right).
  pose proof (H b ltac:(left)) as Hb.
  apply elem_of_cons in Ha as [-> | Ha].
  - pose proof (sum_list_map_le f g l Hl). lia.
  - specialize (IH Hl Ha Hlt). lia.
Qed.

Lemma integral_0 D : integral D 0.
Proof. exists 0%Z. split; [lia | reflexivity]. Qed.

Lemma integral_plus D a b : integral D a -> integral D b -> integral D (a + b).
Proof.
  intros (za & Ha & Hza) (zb & Hb & Hzb). exists (za + zb)%Z.
  split; [lia |]. rewrite Hza, Hzb. apply Qinv_plus_distr.
Qed.

Lemma integral_nonneg D a : integral D a -> 0 <= a.
Proof.
  intros (z & Hz & ->). unfold Qle; simpl. lia.
Qed.

Lemma scaled_integral D c z : (0 <= z)%Z -> c == z # D -> scaled D c = Z.to_nat z.
Proof.
  intros Hz Hc. unfold scaled. f_equal.
  assert (H : c * (Z.pos D # 1) == inject_Z z).
  { rewrite Hc. unfold Qeq, inject_Z; simpl. lia. }
  rewrite H. apply Qfloor_Z.
Qed.

Lemma scaled_lt D a b :
  integral D a -> integral D b -> a < b -> (scaled D a < scaled D b)%nat.
Proof.
  intros (za & Ha & Hza) (zb & Hb & Hzb) Hlt.
  rewrite (scaled_integral _ _ _ Ha Hza), (scaled_integral _ _ _ Hb Hzb).
  rewrite Hza, Hzb in Hlt. unfold Qlt in Hlt; simpl in Hlt. nia.
Qed.

Lemma common_den_integral l c :
  c ∈ l -> 0 <= c -> integral (common_den l) c.
Proof.
  intros Hin Hc. induction l as [|a l IH]; [inversion Hin |].
  simpl. apply elem_of_cons in Hin as [-> | Hin].
  - exists (Qnum a * Z.pos (common_den l))%Z. split.
    + unfold Qle in Hc; simpl in Hc. nia.
    + unfold Qeq; simpl. lia.
  - destruct (IH Hin) as (z & Hz & Hcz).
    exists (z * Z.pos (Qden a))%Z. split; [nia |].
    rewrite Hcz. unfold Qeq; simpl. lia.
Qed.

End Measure.

(** ** The [while] loop of [computeParentMap] *)

Section TreeBuilderFacts.
Context `{PF : Platform} {PL : PlatformLaws}.
Variable out : NodePtr_t -> list Edge.
Implicit Types (v : gmap NodePtr_t WeighedNode_t) (q r : list WeighedNode_t).
Implicit Types (x y : WeighedNode_t).

Lemma elem_of_push_children x es q y :
  y ∈ push_children x es q <->
  y ∈ q \/
  exists e, e ∈ es /\
    y = mkWeighedNode (to e) (Some e) (cost x + path_length (path e)).
Proof.
  unfold push_children, priority_queue_push. revert q.
  induction es as [|e es IH]; intros q; simpl.
  - split; [auto | intros [H | (e & He & _)]; [done | inversion He]].
  - rewrite IH, elem_of_cons. split.
    + intros [[-> | H] | (e' & He' & ->)].
      * right. exists e. split; [left | done].
      * by left.
      * right. exists e'. split; [by right | done].
    + intros [H | (e' & He' & ->)]; [left; by right |].
      apply elem_of_cons in He' as [-> | He'].
      * left. by left.
      * right. eauto.
Qed.

Lemma push_children_length x es q :
  length (push_children x es q) = (length es + length q)%nat.
Proof.
  unfold push_children, priority_queue_push. revert q.
  induction es as [|e es IH]; intros q; simpl; [done |].
  rewrite IH. simpl. lia.
Qed.

Lemma visit_cases x v r v' q' :
  visit out x v r = (v', q') ->
  (v !! node x = None /\ v' = <[node x := x]> v /\
   q' = push_children x (out (node x)) r) \/
  (exists old, v !! node x = Some old /\ cost x < cost old /\
     v' = <[node x := mkWeighedNode (node old) (parent x) (cost x)]> v /\
     q' = push_children x (out (node x)) r) \/
  (exists old, v !! node x = Some old /\ cost old <= cost x /\
     v' = v /\ q' = r).
Proof.
  unfold visit. destruct (v !! node x) as [old|] eqn:Hv.
  - case_Qltb (cost x) (cost old); intros [= <- <-].
    + right; left. eauto.
    + right; right. eauto.
  - intros [= <- <-]. by left.
Qed.

Lemma computeParentMap_loop_invariant
    (I : gmap NodePtr_t WeighedNode_t -> list WeighedNode_t -> Prop) :
  (forall v q x r v' q',
     I v q -> priority_queue_pop q = Some (x, r) ->
     visit out x v r = (v', q') -> I v' q') ->
  forall fuel v q pops v' pops',
    I v q -> computeParentMap_loop fuel out v q pops = Some (v', pops') ->
    I v' [].
Proof.
  intros Hstep fuel. induction fuel as [|fuel IH]; intros v q pops v' pops' HI;
    simpl; destruct (priority_queue_pop q) as [[x r]|] eqn:Hpop.
  - discriminate.
  - intros [= <- <-]. apply pop_empty in Hpop. by subst.
  - destruct (visit out x v r) as [v1 q1] eqn:Hv. apply IH. eauto.
  - intros [= <- <-]. apply pop_empty in Hpop. by subst.
Qed.

Lemma computeParentMap_loop_fuel fuel k v q pops res :
  computeParentMap_loop fuel out v q pops = Some res ->
  computeParentMap_loop (fuel + k) out v q pops = Some res.
Proof.
  revert v q pops. induction fuel as [|fuel IH]; intros v q pops; simpl.
  - destruct (priority_queue_pop q) as [[x r]|] eqn:Hpop; [discriminate |].
    intros <-. destruct k; simpl; by rewrite Hpop.
  - destruct (priority_queue_pop q) as [[x r]|] eqn:Hpop; [|done].
    destruct (visit out x v r) as [v1 q1]. apply IH.
Qed.

Lemma pop_elem q x r y :
  priority_queue_pop q = Some (x, r) -> y ∈ q <-> y = x \/ y ∈ r.
Proof.
  intros H. apply pop_perm in H. rewrite H. apply elem_of_cons.
Qed.

(** *** Domain: the nodes reachable from the root *)

Section Reach.
Variable root : NodePtr_t.

Lemma reach_inv_init :
  reach_inv out root ∅ (priority_queue_push (mkWeighedNode root None 0) []).
Proof.
  unfold reach_inv, priority_queue_push. split; [|split; [|split]].
  - intros x Hx. apply list_elem_of_singleton in Hx as ->. simpl.
    apply rtc_refl.
  - intros n [w Hw]. by rewrite lookup_empty in Hw.
  - intros n e [w Hw]. by rewrite lookup_empty in Hw.
  - right. eexists. split; [apply list_elem_of_singleton; reflexivity | done].
Qed.

Lemma reach_inv_step v q x r v' q' :
  reach_inv out root v q -> priority_queue_pop q = Some (x, r) ->
  visit out x v r = (v', q') -> reach_inv out root v' q'.
Proof.
  intros (Ha & Hb & Hc & Hd) Hpop Hv.
  pose proof (fun y => pop_elem _ _ _ y Hpop) as Hq.
  assert (Hx : reachable out root (node x)) by (apply Ha, Hq; by left).
  assert (Hchild : forall e, e ∈ out (node x) ->
            reachable out root (to e)).
  { intros e He. eapply rtc_r; [exact Hx |]. exists e. done. }
  apply visit_cases in Hv
    as [(Hn & -> & ->) | [(old & Hn & _ & -> & ->) | (old & Hn & _ & -> & ->)]].
  - split; [|split; [|split]].
    + intros y Hy. apply elem_of_push_children in Hy as [Hy | (e & He & ->)].
      * apply Ha, Hq. by right.
      * simpl. by apply Hchild.
    + intros n Hs. destruct (decide (n = node x)) as [-> | Hne]; [done |].
      rewrite lookup_insert_ne in Hs by done. by apply Hb.
    + intros n e Hs He. destruct (decide (n = node x)) as [-> | Hne].
      * right. eexists. split; [apply elem_of_push_children; right; eauto |].
        done.
      * rewrite lookup_insert_ne in Hs by done.
        destruct (Hc _ _ Hs He) as [Hv | (y & Hy & Hyn)].
        -- left. destruct (decide (to e = node x)) as [-> | ?].
           ++ rewrite lookup_insert_eq. eauto.
           ++ by rewrite lookup_insert_ne.
        -- apply Hq in Hy as [-> | Hy].
           ++ left. rewrite <- Hyn, lookup_insert_eq. eauto.
           ++ right. exists y. split; [apply elem_of_push_children; by left |].
              done.
    + destruct Hd as [Hv | (y & Hy & Hyn)].
      * left. destruct (decide (root = node x)) as [-> | ?].
        -- rewrite lookup_insert_eq. eauto.
        -- by rewrite lookup_insert_ne.
      * apply Hq in Hy as [-> | Hy].
        -- left. rewrite <- Hyn, lookup_insert_eq. eauto.
        -- right. exists y. split; [apply elem_of_push_children; by left |].
           done.
  - assert (Hdom : forall n W, is_Some (<[node x := W]> v !! n) <->
                                is_Some (v !! n)).
    { intros n W. destruct (decide (n = node x)) as [-> | Hne].
      - rewrite lookup_insert_eq, Hn. split; eauto.
      - by rewrite lookup_insert_ne. }
    split; [|split; [|split]].
    + intros y Hy. apply elem_of_push_children in Hy as [Hy | (e & He & ->)].
      * apply Ha, Hq. by right.
      * simpl. by apply Hchild.
    + intros n Hs. apply Hdom in Hs. by apply Hb.
    + intros n e Hs He. apply Hdom in Hs. rewrite Hdom.
      destruct (decide (n = node x)) as [-> | Hne].
      * right. eexists. split; [apply elem_of_push_children; right; eauto |].
        done.
      * destruct (Hc _ _ Hs He) as [Hv | (y & Hy & Hyn)]; [by left |].
        apply Hq in Hy as [-> | Hy].
        -- left. rewrite <- Hyn, Hn. eauto.
        -- right. exists y. split; [apply elem_of_push_children; by left |].
           done.
    + rewrite Hdom. destruct Hd as [Hv | (y & Hy & Hyn)]; [by left |].
      apply Hq in Hy as [-> | Hy].
      * left. rewrite <- Hyn, Hn. eauto.
      * right. exists y. split; [apply elem_of_push_children; by left |].
        done.
  - split; [|split; [|split]].
    + intros y Hy. apply Ha, Hq. by right.
    + done.
    + intros n e Hs He.
      destruct (Hc _ _ Hs He) as [Hv | (y & Hy & Hyn)]; [by left |].
      apply Hq in Hy as [-> | Hy]; [|eauto].
      left. rewrite <- Hyn, Hn. eauto.
    + destruct Hd as [Hv | (y & Hy & Hyn)]; [by left |].
      apply Hq in Hy as [-> | Hy]; [|eauto].
      left. rewrite <- Hyn, Hn. eauto.
Qed.

Lemma reach_inv_final v n :
  reach_inv out root v [] -> is_Some (v !! n) <-> reachable out root n.
Proof.
  intros (_ & Hb & Hc & Hd). split; [apply Hb |].
  intros Hr. unfold reachable in Hr. revert n Hr. apply rtc_ind_r.
  - destruct Hd as [? | (y & Hy & _)]; [done | inversion Hy].
  - intros a b _ (e & He & <-) IH.
    destruct (Hc _ _ IH He) as [? | (y & Hy & _)]; [done | inversion Hy].
Qed.

(** When [computeParentMap] returns, the keys of the map are the nodes
    reachable from the root. *)
Lemma computeParentMap_dom fuel m n :
  computeParentMap fuel out root = Some m ->
  is_Some (m !! n) <-> reachable out root n.
Proof.
  unfold computeParentMap, computeParentMap_run.
  destruct (computeParentMap_loop _ _ _ _ _) as [[v pops]|] eqn:Hl; [|done].
  intros [= <-]. rewrite lookup_fmap, fmap_is_Some.
  apply reach_inv_final.
  eapply (computeParentMap_loop_invariant (reach_inv out root));
    [apply reach_inv_step | apply reach_inv_init | exact Hl].
Qed.

End Reach.

End TreeBuilderFacts.

(** *** Termination *)

Section TreeBuilderTermination.
Context `{PF : Platform} {PL : PlatformLaws}.
Variable out : NodePtr_t -> list Edge.
Variable D : positive.
Variable ns : list NodePtr_t.
Hypothesis closed_ns :
  forall n e, n ∈ ns -> e ∈ out n ->
    to e ∈ ns /\ integral D (path_length (path e)).
Implicit Types (v : gmap NodePtr_t WeighedNode_t) (q r : list WeighedNode_t).

Lemma term_inv_step v q x r v' q' :
  term_inv D ns v q -> priority_queue_pop q = Some (x, r) ->
  visit out x v r = (v', q') -> term_inv D ns v' q'.
Proof.
  intros (Ha & Hb) Hpop Hv.
  pose proof (fun y => pop_elem _ _ _ y Hpop) as Hq.
  destruct (Ha x ltac:(apply Hq; by left)) as (Hxn & Hxc).
  assert (Hpush : forall y, y ∈ push_children x (out (node x)) r ->
            node y ∈ ns /\ integral D (cost y)).
  { intros y Hy. apply elem_of_push_children in Hy as [Hy | (e & He & ->)].
    - apply Ha, Hq. by right.
    - destruct (closed_ns _ _ Hxn He) as (? & ?). simpl.
      split; [done | by apply integral_plus]. }
  apply visit_cases in Hv
    as [(Hn & -> & ->) | [(old & Hn & _ & -> & ->) | (old & Hn & _ & -> & ->)]].
  - split; [done |]. intros n w Hw.
    destruct (decide (n = node x)) as [-> | Hne].
    + rewrite lookup_insert_eq in Hw. inversion Hw; subst. done.
    + rewrite lookup_insert_ne in Hw by done. eauto.
  - split; [done |]. intros n w Hw.
    destruct (decide (n = node x)) as [-> | Hne].
    + rewrite lookup_insert_eq in Hw. inversion Hw; subst. done.
    + rewrite lookup_insert_ne in Hw by done. eauto.
  - split; [|done]. intros y Hy. apply Ha, Hq. by right.
Qed.

Lemma measure_step v q x r v' q' :
  term_inv D ns v q -> priority_queue_pop q = Some (x, r) ->
  visit out x v r = (v', q') ->
  (unvisited_count ns v' < unvisited_count ns v)%nat \/
  (unvisited_count ns v' = unvisited_count ns v /\
   recorded_cost D ns v' < recorded_cost D ns v)%nat \/
  (v' = v /\ length q' < length q)%nat.
Proof.
  intros (Ha & Hb) Hpop Hv.
  pose proof (fun y => pop_elem _ _ _ y Hpop) as Hq.
  destruct (Ha x ltac:(apply Hq; by left)) as (Hxn & Hxc).
  apply visit_cases in Hv
    as [(Hn & -> & ->) | [(old & Hn & Hlt & -> & ->) | (old & Hn & _ & -> & ->)]].
  - left. unfold unvisited_count.
    apply sum_list_map_lt with (a := node x); [|done|].
    + intros n _. destruct (decide (n = node x)) as [-> | Hne].
      * rewrite lookup_insert_eq, Hn. lia.
      * by rewrite lookup_insert_ne.
    + rewrite lookup_insert_eq, Hn. lia.
  - right; left. split.
    + unfold unvisited_count. f_equal. apply map_ext_in. intros n _.
      destruct (decide (n = node x)) as [-> | Hne].
      * by rewrite lookup_insert_eq, Hn.
      * by rewrite lookup_insert_ne.
    + unfold recorded_cost.
      apply sum_list_map_lt with (a := node x); [|done|].
      * intros n _. destruct (decide (n = node x)) as [-> | Hne].
        -- rewrite lookup_insert_eq, Hn. simpl.
           apply Nat.lt_le_incl, scaled_lt; [done | by eapply Hb | done].
        -- by rewrite lookup_insert_ne.
      * rewrite lookup_insert_eq, Hn. simpl.
        apply scaled_lt; [done | by eapply Hb | done].
  - right; right. split; [done |].
    apply pop_perm, Permutation_length in Hpop. simpl in Hpop. lia.
Qed.

Lemma computeParentMap_loop_terminates_aux a b c :
  forall v q pops,
    unvisited_count ns v = a -> recorded_cost D ns v = b -> length q = c ->
    term_inv D ns v q ->
    exists fuel res, computeParentMap_loop fuel out v q pops = Some res.
Proof.
  revert b c. induction a as [a IHa] using lt_wf_ind.
  intros b. induction b as [b IHb] using lt_wf_ind.
  intros c. induction c as [c IHc] using lt_wf_ind.
  intros v q pops Ha Hb Hc HI.
  destruct (priority_queue_pop q) as [[x r]|] eqn:Hpop.
  - destruct (visit out x v r) as [v' q'] eqn:Hv.
    pose proof (term_inv_step _ _ _ _ _ _ HI Hpop Hv) as HI'.
    assert (Hnext : exists fuel res,
              computeParentMap_loop fuel out v' q' (pops ++ [cost x])
              = Some res).
    { destruct (measure_step _ _ _ _ _ _ HI Hpop Hv)
        as [H1 | [(H1 & H2) | (-> & H3)]].
      - eapply (IHa (unvisited_count ns v')); [lia | done.. ].
      - eapply (IHb (recorded_cost D ns v')); [lia | congruence | done..].
      - eapply (IHc (length q')); [lia | done..]. }
    destruct Hnext as (fuel & res & Hres).
    exists (S fuel), res. simpl. by rewrite Hpop, Hv.
  - exists O. eexists. simpl. by rewrite Hpop.
Qed.

Lemma computeParentMap_loop_terminates v q pops :
  term_inv D ns v q ->
  exists fuel res, computeParentMap_loop fuel out v q pops = Some res.
Proof. by eapply computeParentMap_loop_terminates_aux. Qed.

End TreeBuilderTermination.

Section TreeBuilderTotal.
Context `{PF : Platform} {PL : PlatformLaws}.

(** On a finite graph with non-negative lengths, [computeParentMap]
    returns, and the keys of the returned map are the nodes reachable from
    the root. *)
Lemma computeParentMap_total out (ns : list NodePtr_t) root :
  root ∈ ns ->
  (forall n e, n ∈ ns -> e ∈ out n ->
     to e ∈ ns /\ 0 <= path_length (path e)) ->
  exists fuel0 m,
    (forall fuel, (fuel0 <= fuel)%nat ->
       computeParentMap fuel out root = Some m) /\
    forall n, is_Some (m !! n) <-> reachable out root n.
Proof.
  intros Hroot Hcl. set (D := common_den (edge_lengths out ns)).
  assert (Hcl' : forall n e, n ∈ ns -> e ∈ out n ->
            to e ∈ ns /\ integral D (path_length (path e))).
  { intros n e Hn He. destruct (Hcl _ _ Hn He) as (? & ?). split; [done |].
    apply common_den_integral; [|done].
    unfold edge_lengths. apply list_elem_of_In, in_flat_map.
    exists n. split; [by apply list_elem_of_In |].
    apply (in_map (fun e => path_length (path e))). by apply list_elem_of_In. }
  destruct (computeParentMap_loop_terminates out D ns Hcl' ∅
              (priority_queue_push (mkWeighedNode root None 0) []) [])
    as (fuel0 & [v pops] & Hl).
  { split.
    - intros x Hx. apply list_elem_of_singleton in Hx as ->. simpl.
      split; [done | apply integral_0].
    - intros n w Hw. by rewrite lookup_empty in Hw. }
  exists fuel0, (parent <$> v).
  assert (Hall : forall fuel, (fuel0 <= fuel)%nat ->
            computeParentMap fuel out root = Some (parent <$> v)).
  { intros fuel Hf. unfold computeParentMap, computeParentMap_run.
    replace fuel with (fuel0 + (fuel - fuel0))%nat by lia.
    by rewrite (computeParentMap_loop_fuel _ _ _ _ _ _ _ Hl). }
  split; [done |]. intros n.
  eapply computeParentMap_dom. by apply (Hall fuel0).
Qed.

End TreeBuilderTotal.

(** *** The entry of the root *)

Section TreeBuilderRoot.
Context `{PF : Platform} {PL : PlatformLaws}.
Variable out : NodePtr_t -> list Edge.
Variable root : NodePtr_t.
Hypothesis lengths_nonneg :
  forall n e, e ∈ out n -> 0 <= path_length (path e).

Lemma root_inv_step v q x r v' q' :
  root_inv root v q -> priority_queue_pop q = Some (x, r) ->
  visit out x v r = (v', q') -> root_inv root v' q'.
Proof.
  intros HI Hpop Hv.
  pose proof (fun y => pop_elem _ _ _ y Hpop) as Hq.
  assert (Hpush : 0 <= cost x -> (forall y, y ∈ r -> 0 <= cost y) ->
            forall y, y ∈ push_children x (out (node x)) r -> 0 <= cost y).
  { intros Hx Hr y Hy.
    apply elem_of_push_children in Hy as [Hy | (e & He & ->)]; [auto |].
    simpl. pose proof (lengths_nonneg _ _ He). lra. }
  destruct HI as [(Hn & ->) | ((w & Hw & Hp & Hc) & Hpos)].
  - apply pop_perm, Permutation_singleton_l in Hpop. inversion Hpop; subst.
    unfold visit in Hv. simpl in Hv. rewrite Hn in Hv.
    inversion Hv; subst. right. split.
    + eexists. split; [apply lookup_insert_eq |]. split; [done | simpl; lra].
    + apply Hpush; [simpl; lra |]. intros y Hy. inversion Hy.
  - assert (Hx : 0 <= cost x) by (apply Hpos, Hq; by left).
    assert (Hr : forall y, y ∈ r -> 0 <= cost y)
      by (intros y Hy; apply Hpos, Hq; by right).
    right.
    apply visit_cases in Hv
      as [(Hn & -> & ->) | [(old & Hn & Hlt & -> & ->) | (old & Hn & _ & -> & ->)]].
    + split; [|by apply Hpush]. exists w.
      rewrite lookup_insert_ne by congruence. done.
    + split; [|by apply Hpush]. exists w.
      rewrite lookup_insert_ne; [done |].
      intros Heq. rewrite Heq, Hw in Hn. inversion Hn; subst. lra.
    + split; [eauto | done].
Qed.

(** When [computeParentMap] returns, the root is mapped to the null edge. *)
Lemma computeParentMap_root fuel m :
  computeParentMap fuel out root = Some m -> m !! root = Some None.
Proof.
  unfold computeParentMap, computeParentMap_run.
  destruct (computeParentMap_loop _ _ _ _ _) as [[v pops]|] eqn:Hl; [|done].
  intros [= <-].
  assert (HI : root_inv root v []).
  { eapply (computeParentMap_loop_invariant out (root_inv root));
      [apply root_inv_step | | exact Hl].
    left. split; [apply lookup_empty | done]. }
  destruct HI as [(_ & Hq) | ((w & Hw & Hp & _) & _)]; [discriminate |].
  by rewrite lookup_fmap, Hw, <- Hp.
Qed.

End TreeBuilderRoot.

(** ** The first [oneStep] of the refinement phase *)

Section Refinement.
Context `{PF : Platform} {PL : PlatformLaws} `{CO : !Collaborators}.

Lemma computeParentMap_covers r root :
  roadmap_wf r -> one_component r -> root ∈ nodes r ->
  exists fuel0 m,
    (forall fuel, (fuel0 <= fuel)%nat ->
       computeParentMap fuel (outEdges r) root = Some m) /\
    dom m = list_to_set (nodes r) /\ size m = length (nodes r).
Proof.
  intros (Hnd & Hcl) Hone Hroot.
  destruct (computeParentMap_total (outEdges r) (nodes r) root Hroot Hcl)
    as (fuel0 & m & Hm & Hdom).
  exists fuel0, m. split; [done |].
  assert (Hd : dom m = list_to_set (nodes r)).
  { apply set_eq. intros n.
    rewrite elem_of_dom, Hdom, elem_of_list_to_set. split.
    - unfold reachable. revert n. apply rtc_ind_r; [done |].
      intros a b _ (e & He & <-) Ha. by apply (Hcl a).
    - intros Hn. by apply Hone. }
  split; [done |].
  rewrite <- size_dom, Hd. by apply size_list_to_set.
Qed.

(** C7: in a [oneStep] that finds other than two connected components and
    does not find [roots_[0]] among the keys of [toRoot_[1]], both parent
    maps are replaced by the results of [computeParentMap]; when the roadmap
    is one connected component, both then have the nodes of the roadmap as
    keys, the two assertions on the sizes hold, and [oneStep] goes on with
    [improve]. *)
Theorem oneStep_fills_parent_maps q s :
  roadmap_wf (roadmap s) -> one_component (roadmap s) ->
  fst (roots_ s) ∈ nodes (roadmap s) -> snd (roots_ s) ∈ nodes (roadmap s) ->
  connectedComponents_size (roadmap s) <> 2%nat ->
  snd (toRoot_ s) !! fst (roots_ s) = None ->
  exists fuel0, forall fuel, (fuel0 <= fuel)%nat ->
    exists m0 m1 s1,
      computeParentMap fuel (outEdges (roadmap s)) (fst (roots_ s)) = Some m0 /\
      computeParentMap fuel (outEdges (roadmap s)) (snd (roots_ s)) = Some m1 /\
      fillParentMaps fuel s = (Ret tt, s1) /\
      toRoot_ s1 = (m0, m1) /\ roadmap s1 = roadmap s /\
      dom m0 = list_to_set (nodes (roadmap s)) /\
      dom m1 = list_to_set (nodes (roadmap s)) /\
      size m0 = length (nodes (roadmap s)) /\
      size m1 = length (nodes (roadmap s)) /\
      assert_sizes s1 = (Ret tt, s1) /\
      oneStep fuel q s = bind (improve q) (fun _ => ret tt) s1.
Proof.
  intros Hwf Hone Hr0 Hr1 Hcc Hnew.
  destruct (computeParentMap_covers _ _ Hwf Hone Hr0)
    as (f0 & m0 & Hm0 & Hd0 & Hs0).
  destruct (computeParentMap_covers _ _ Hwf Hone Hr1)
    as (f1 & m1 & Hm1 & Hd1 & Hs1).
  exists (Nat.max f0 f1). intros fuel Hf.
  specialize (Hm0 fuel ltac:(lia)). specialize (Hm1 fuel ltac:(lia)).
  set (s1 := mkBiRrtStar (roadmap s) (gamma_ s) (extendMaxLength_ s)
               (roots_ s) (m0, m1) (ball_queries s)).
  assert (Hfill : fillParentMaps fuel s = (Ret tt, s1)).
  { unfold fillParentMaps. by rewrite Hnew, Hm0, Hm1. }
  assert (Hassert : assert_sizes s1 = (Ret tt, s1)).
  { assert (Htrue : forall s', assert_ true s' = (Ret tt, s')).
    { intros s'. unfold assert_. by rewrite andb_false_r. }
    unfold assert_sizes, bind. subst s1. cbn [toRoot_ roadmap fst snd].
    rewrite Hs0, Hs1, Nat.eqb_refl, Htrue. cbn [toRoot_ roadmap fst snd].
    by rewrite Hs0, Nat.eqb_refl, Htrue. }
  exists m0, m1, s1. repeat (split; [done |]).
  unfold oneStep. apply Nat.eqb_neq in Hcc. rewrite Hcc.
  unfold bind at 1. rewrite Hfill. unfold bind at 1. by rewrite Hassert.
Qed.

End Refinement.

(** ** The reference queue is lawful *)

Section ReferenceQueue.
Context `{PM : PathModel}.
Implicit Types (l r : list WeighedNode_t) (x y : WeighedNode_t).

Lemma pop_greatest_None l : pop_greatest l = None <-> l = [].
Proof.
  destruct l as [|a l]; simpl; [done |].
  destruct (pop_greatest l) as [[y r']|]; [|done].
  by destruct (Qltb (cost a) (cost y)).
Qed.

Lemma pop_greatest_perm l x r :
  pop_greatest l = Some (x, r) -> Permutation l (x :: r).
Proof.
  revert x r. induction l as [|a l IH]; intros x r; simpl; [done |].
  destruct (pop_greatest l) as [[y r']|] eqn:Hp.
  - destruct (Qltb (cost a) (cost y)); intros [= <- <-]; [|done].
    rewrite (IH _ _ eq_refl). apply perm_swap.
  - apply pop_greatest_None in Hp as ->. by intros [= <- <-].
Qed.

Lemma pop_greatest_top l x r y :
  pop_greatest l = Some (x, r) -> y ∈ r -> ~ cost x < cost y.
Proof.
  revert x r y. induction l as [|a l IH]; intros x r y; simpl; [done |].
  destruct (pop_greatest l) as [[z r']|] eqn:Hp.
  - case_Qltb (cost a) (cost z); intros [= <- <-] Hy.
    + apply elem_of_cons in Hy as [-> | Hy]; [lra | by eapply IH].
    + rewrite (pop_greatest_perm _ _ _ Hp) in Hy.
      apply elem_of_cons in Hy as [-> | Hy]; [lra |].
      pose proof (IH _ _ _ eq_refl Hy). lra.
  - intros [= <- <-] Hy. inversion Hy.
Qed.

End ReferenceQueue.

(** ** Rewiring a parent map *)

Section RewiringFacts.
Context `{PF : Platform} {PLen : PathLaws}.
Implicit Types (map : gmap NodePtr_t EdgePtr_t) (n x y : NodePtr_t).
Implicit Types (e : Edge) (es : list Edge).

Lemma sum_lengths_step e es :
  sum_lengths 0 (e :: es) == path_length (path e) + sum_lengths 0 es.
Proof. rewrite sum_lengths_cons, sum_lengths_shift. lra. Qed.

Lemma sum_lengths_ge es : 0 <= sum_lengths 0 es.
Proof. apply sum_lengths_nonneg, path_length_nonneg. Qed.

Lemma no_worse_refl map : no_worse map map.
Proof. split; [|done]. intros n es H. exists es. split; [done | lra]. Qed.

Lemma no_worse_trans m1 m2 m3 :
  no_worse m1 m2 -> no_worse m2 m3 -> no_worse m1 m3.
Proof.
  intros [H1 R1] [H2 R2]. split; [|auto].
  intros n es H. destruct (H1 _ _ H) as (es' & H' & Hle).
  destruct (H2 _ _ H') as (es'' & H'' & Hle'). exists es''. split; [done | lra].
Qed.

Lemma tree_closed map : tree map -> closed_map map.
Proof.
  intros Ht m e Hm. destruct (Ht m ltac:(eauto)) as (es & Hc).
  inversion Hc; subst; [congruence |].
  assert (e0 = e) by congruence. subst. inversion H0; eauto.
Qed.

Lemma chain_key map n es : chain map n es -> is_Some (map !! n).
Proof. intros H. inversion H; eauto. Qed.

(** A cost returned by [computeCost] is never negative. *)
Lemma computeCost_loop_nonneg fuel map cur c r :
  0 <= c -> computeCost_loop fuel map cur c = Ret r -> 0 <= r.
Proof.
  revert cur c. induction fuel as [|fuel IH]; intros cur c Hc; simpl.
  - destruct (It_second cur); [destruct cur; discriminate |].
    by intros [= <-].
  - destruct (It_second cur) as [e|]; [|by intros [= <-]].
    destruct cur; [|discriminate].
    apply IH. pose proof (path_length_nonneg (path e)). lra.
Qed.

Lemma computeCost_nonneg map n r : computeCost map n = Ret r -> 0 <= r.
Proof. apply computeCost_loop_nonneg. lra. Qed.

(** In a tree, a returned cost is the cost of the chain of a key, or the
    value obtained on a node that is not a key. *)
Lemma computeCost_tree map n r :
  tree map -> computeCost map n = Ret r ->
  (exists es, chain map n es /\ r = sum_lengths 0 es) \/ map !! n = None.
Proof.
  intros Ht Hr. destruct (map !! n) eqn:Hn; [|by right]. left.
  apply computeCost_Ret; [by apply tree_closed | by rewrite Hn | done].
Qed.

(** Adding a leaf: a node that is not a key gets a parent that is one. *)
Lemma add_leaf_chain map qnew e n es :
  map !! qnew = None -> chain map n es ->
  chain (<[qnew := Some e]> map) n es.
Proof.
  intros Hq H. induction H as [n Hn|n e0 es Hn _ IH].
  - constructor. rewrite lookup_insert_ne; [done | congruence].
  - econstructor; [|done]. rewrite lookup_insert_ne; [done | congruence].
Qed.

Lemma add_leaf map qnew e :
  tree map -> map !! qnew = None -> is_Some (map !! from e) ->
  tree (<[qnew := Some e]> map) /\ no_worse map (<[qnew := Some e]> map) /\
  forall es, chain map (from e) es ->
    chain (<[qnew := Some e]> map) qnew (e :: es).
Proof.
  intros Ht Hq Hf.
  assert (Hnew : forall es, chain map (from e) es ->
            chain (<[qnew := Some e]> map) qnew (e :: es)).
  { intros es H. econstructor; [apply lookup_insert_eq |].
    by apply add_leaf_chain. }
  split; [|split; [|done]].
  - intros n Hn. destruct (decide (n = qnew)) as [-> | Hne].
    + destruct (Ht _ Hf) as (es & H). eauto.
    + rewrite lookup_insert_ne in Hn by done.
      destruct (Ht _ Hn) as (es & H). exists es. by apply add_leaf_chain.
  - split.
    + intros n es H. exists es. split; [by apply add_leaf_chain | lra].
    + intros n Hn. rewrite lookup_insert_ne; [done | congruence].
Qed.

(** Re-pointing [y] to an edge that leaves [x], when this makes the cost of
    [y] strictly smaller. *)
Lemma rewire_below map y e esx esy z es :
  chain map (from e) esx -> chain map y esy ->
  chain map z es -> sum_lengths 0 es < sum_lengths 0 esy ->
  chain (<[y := Some e]> map) z es.
Proof.
  intros _ Hy H. induction H as [z Hz|z e0 es Hz Hc IH]; intros Hlt.
  - constructor. rewrite lookup_insert_ne; [done |]. intros ->.
    assert (esy = []) by (eapply chain_functional; [done | by constructor]).
    subst. lra.
  - assert (Hne : y <> z).
    { intros ->.
      assert (esy = e0 :: es)
        by (eapply chain_functional; [done | by econstructor]).
      subst. lra. }
    econstructor; [by rewrite lookup_insert_ne |].
    apply IH. rewrite sum_lengths_step in Hlt.
    pose proof (path_length_nonneg (path e0)). lra.
Qed.

Lemma rewire_entry map y e esx esy :
  tree map -> chain map (from e) esx -> chain map y esy ->
  path_length (path e) + sum_lengths 0 esx < sum_lengths 0 esy ->
  tree (<[y := Some e]> map) /\ no_worse map (<[y := Some e]> map).
Proof.
  intros Ht Hx Hy Hlt.
  pose proof (path_length_nonneg (path e)) as He.
  assert (Hx' : chain (<[y := Some e]> map) (from e) esx).
  { eapply rewire_below; eauto. lra. }
  assert (Hnw : forall n es, chain map n es ->
            exists es', chain (<[y := Some e]> map) n es' /\
              sum_lengths 0 es' <= sum_lengths 0 es).
  { intros n es H. induction H as [n Hn|n e0 es Hn Hc (es' & IH1 & IH2)].
    - destruct (decide (n = y)) as [-> | Hne].
      + assert (esy = []) by (eapply chain_functional; [done | by constructor]).
        subst. pose proof (sum_lengths_ge esx).
        change (sum_lengths 0 (@nil Edge)) with 0 in Hlt. lra.
      + exists []. split; [|lra]. constructor. by rewrite lookup_insert_ne.
    - destruct (decide (n = y)) as [-> | Hne].
      + assert (esy = e0 :: es)
          by (eapply chain_functional; [done | by econstructor]).
        subst. exists (e :: esx). split.
        * econstructor; [apply lookup_insert_eq | done].
        * rewrite (sum_lengths_step e esx). lra.
      + exists (e0 :: es'). split.
        * econstructor; [by rewrite lookup_insert_ne | done].
        * rewrite !sum_lengths_step. lra. }
  split; [|split; [done |]].
  - intros n Hn. destruct (decide (n = y)) as [-> | Hne].
    + exists (e :: esx). econstructor; [apply lookup_insert_eq | done].
    + rewrite lookup_insert_ne in Hn by done.
      destruct (Ht _ Hn) as (es & H). destruct (Hnw _ _ H) as (es' & ? & _).
      eauto.
  - intros n Hn. rewrite lookup_insert_ne; [done |]. intros ->.
    assert (esy = []) by (eapply chain_functional; [done | by constructor]).
    subst. pose proof (sum_lengths_ge esx).
    change (sum_lengths 0 (@nil Edge)) with 0 in Hlt. lra.
Qed.

End RewiringFacts.

(** * Further properties of the code *)

(** ** [computeCost] (lines 75-86) *)

Section ComputeCostMore.
Context `{PF : Platform}.
Implicit Types (map : gmap NodePtr_t EdgePtr_t) (n : NodePtr_t).
Implicit Types (es : list Edge).

Lemma sum_lengths_walk_cost es : sum_lengths 0 es == walk_cost es.
Proof.
  induction es as [|e es IH]; [reflexivity |].
  rewrite sum_lengths_cons, sum_lengths_shift, IH. simpl. lra.
Qed.

(** X1: When the parent chain of [n] reaches an entry that holds the null edge,
    [computeCost] returns, and the value is the sum of the lengths of the
    edges of the chain. *)
Theorem computeCost_sums_chain map n es :
  chain map n es ->
  exists r, computeCost map n = Ret r /\ r == walk_cost es.
Proof.
  intros H. exists (sum_lengths 0 es). split.
  - by apply computeCost_chain.
  - apply sum_lengths_walk_cost.
Qed.

(** X2: When the parent chain of [n] arrives on a node that is not a key, what
    [computeCost] does is decided by the pointer read through [map.end()]:
    a null pointer makes it return the sum collected so far, any other
    pointer makes it throw. *)
Theorem computeCost_orphan map n es :
  broken_chain map n es ->
  (past_the_end_second = None ->
   exists r, computeCost map n = Ret r /\ r == walk_cost es) /\
  (past_the_end_second <> None ->
   computeCost map n = Throw (logic_error "this node has no parent.")).
Proof.
  intros H. pose proof (computeCost_broken _ _ _ H) as Hc. split.
  - intros Hnull. rewrite Hnull in Hc. exists (sum_lengths 0 es).
    split; [done | apply sum_lengths_walk_cost].
  - intros Hgarbage. destruct past_the_end_second; [done | congruence].
Qed.

End ComputeCostMore.

Section ComputeCostCycles.
Context `{PF : Platform}.
Implicit Types (map : gmap NodePtr_t EdgePtr_t) (n m : NodePtr_t).
Implicit Types (es : list Edge).

Lemma computeCost_loop_Diverges fuel map n c :
  computeCost_loop fuel map (map !! n) c = Diverges ->
  exists l, parent_path map n l /\ length l = S fuel.
Proof.
  revert n c. induction fuel as [|fuel IH]; intros n c; simpl;
    destruct (map !! n) as [[e|]|] eqn:Hn; simpl; try discriminate.
  - intros _. exists [n]. split; [by econstructor | done].
  - by destruct past_the_end_second.
  - intros H. destruct (IH _ _ H) as (l & Hl & Hlen).
    exists (n :: l). split; [by econstructor | simpl; lia].
  - by destruct past_the_end_second.
Qed.

Lemma parent_path_elem map n l m :
  parent_path map n l -> m ∈ l ->
  rtc (parent_step map) n m /\ is_Some (map !! m).
Proof.
  intros H. induction H as [n e Hn|n e l Hn Hl IH]; intros Hm.
  - apply list_elem_of_singleton in Hm as ->. split; [done | eauto].
  - apply elem_of_cons in Hm as [-> | Hm]; [split; [done | eauto] |].
    destruct (IH Hm) as [Hr Hs]. split; [|done].
    eapply rtc_l; [|done]. by exists e.
Qed.

Lemma parent_path_repeats map n l :
  parent_path map n l -> ~ NoDup l -> runs_into_cycle map n.
Proof.
  intros H. induction H as [n e Hn|n e l Hn Hl IH]; intros Hdup.
  - destruct Hdup. apply NoDup_singleton.
  - destruct (decide (n ∈ l)) as [Hin | Hnotin].
    + exists n. split; [done |].
      destruct (parent_path_elem _ _ _ _ Hl Hin) as [Hr _].
      eapply tc_rtc_r; [|done]. apply tc_once. by exists e.
    + destruct IH as (m & Hr & Hc).
      { intros Hnd. apply Hdup. by constructor. }
      exists m. split; [|done]. eapply rtc_l; [|done]. by exists e.
Qed.

Lemma chain_along map n m es :
  chain map n es -> rtc (parent_step map) n m ->
  exists es', chain map m es' /\ (length es' <= length es)%nat.
Proof.
  intros Hc Hr. revert es Hc.
  induction Hr as [n|n k m (e & He & <-) _ IH]; intros es Hc; [eauto |].
  inversion Hc as [? Hn|? e0 es0 Hn Hrest]; subst; [congruence |].
  assert (e0 = e) by congruence. subst.
  destruct (IH _ Hrest) as (es' & ? & ?). exists es'. split; [done | simpl; lia].
Qed.

Lemma broken_chain_along map n m es :
  broken_chain map n es -> rtc (parent_step map) n m ->
  exists es', broken_chain map m es' /\ (length es' <= length es)%nat.
Proof.
  intros Hc Hr. revert es Hc.
  induction Hr as [n|n k m (e & He & <-) _ IH]; intros es Hc; [eauto |].
  inversion Hc as [? Hn|? e0 es0 Hn Hrest]; subst; [congruence |].
  assert (e0 = e) by congruence. subst.
  destruct (IH _ Hrest) as (es' & ? & ?). exists es'. split; [done | simpl; lia].
Qed.

Lemma chain_down map n m es :
  chain map n es -> tc (parent_step map) n m ->
  exists es', chain map m es' /\ (length es' < length es)%nat.
Proof.
  intros Hc Ht. revert es Hc.
  induction Ht as [n m (e & He & <-)|n k m (e & He & <-) _ IH]; intros es Hc.
  - inversion Hc as [? Hn|? e0 es0 Hn Hrest]; subst; [congruence |].
    assert (e0 = e) by congruence. subst. exists es0. split; [done | simpl; lia].
  - inversion Hc as [? Hn|? e0 es0 Hn Hrest]; subst; [congruence |].
    assert (e0 = e) by congruence. subst.
    destruct (IH _ Hrest) as (es' & ? & ?). exists es'. split; [done | simpl; lia].
Qed.

Lemma broken_chain_down map n m es :
  broken_chain map n es -> tc (parent_step map) n m ->
  exists es', broken_chain map m es' /\ (length es' < length es)%nat.
Proof.
  intros Hc Ht. revert es Hc.
  induction Ht as [n m (e & He & <-)|n k m (e & He & <-) _ IH]; intros es Hc.
  - inversion Hc as [? Hn|? e0 es0 Hn Hrest]; subst; [congruence |].
    assert (e0 = e) by congruence. subst. exists es0. split; [done | simpl; lia].
  - inversion Hc as [? Hn|? e0 es0 Hn Hrest]; subst; [congruence |].
    assert (e0 = e) by congruence. subst.
    destruct (IH _ Hrest) as (es' & ? & ?). exists es'. split; [done | simpl; lia].
Qed.

Lemma cycle_no_chain map n es : runs_into_cycle map n -> ~ chain map n es.
Proof.
  intros (m & Hr & Hc) Hch.
  destruct (chain_along _ _ _ _ Hch Hr) as (es' & Hm & _).
  destruct (chain_down _ _ _ _ Hm Hc) as (es2 & Hm2 & Hlen).
  pose proof (chain_functional _ _ _ _ Hm Hm2) as Heq. subst. lia.
Qed.

Lemma cycle_no_broken_chain map n es :
  runs_into_cycle map n -> ~ broken_chain map n es.
Proof.
  intros (m & Hr & Hc) Hch.
  destruct (broken_chain_along _ _ _ _ Hch Hr) as (es' & Hm & _).
  destruct (broken_chain_down _ _ _ _ Hm Hc) as (es2 & Hm2 & Hlen).
  pose proof (broken_chain_functional _ _ _ _ Hm Hm2) as Heq. subst. lia.
Qed.

(** Whatever the fuel, a loop that stops has followed a chain to a root or
    to a node that is not a key. *)
Lemma computeCost_loop_stops fuel map n c o :
  computeCost_loop fuel map (map !! n) c = o -> o <> Diverges ->
  (exists es, chain map n es) \/ (exists es, broken_chain map n es).
Proof.
  revert n c. induction fuel as [|fuel IH]; intros n c; simpl;
    destruct (map !! n) as [[e|]|] eqn:Hn; simpl.
  - intros <- H. done.
  - intros _ _. left. exists []. by constructor.
  - intros _ _. right. exists []. by constructor.
  - intros Ho Hd. destruct (IH _ _ Ho Hd) as [(es & H) | (es & H)].
    + left. exists (e :: es). by econstructor.
    + right. exists (e :: es). by econstructor.
  - intros _ _. left. exists []. by constructor.
  - intros _ _. right. exists []. by constructor.
Qed.

(** X3: [computeCost] loops for ever exactly when following parents from [n]
    leads into a cycle of the parent map. *)
Theorem computeCost_diverges_iff_cycle map n :
  computeCost map n = Diverges <-> runs_into_cycle map n.
Proof.
  split.
  - intros H. destruct (computeCost_loop_Diverges _ _ _ _ H) as (l & Hl & Hlen).
    apply (parent_path_repeats _ _ _ Hl). intros Hnd.
    assert (Hb : (length l <= size map)%nat).
    { apply NoDup_keys_bound; [done |]. intros m Hm.
      by destruct (parent_path_elem _ _ _ _ Hl Hm). }
    lia.
  - intros Hcyc. destruct (computeCost map n) as [r|ex| |] eqn:Ho; [| | |done].
    + destruct (computeCost_loop_stops _ _ _ _ _ Ho ltac:(done))
        as [(es & H) | (es & H)].
      * by destruct (cycle_no_chain _ _ es Hcyc).
      * by destruct (cycle_no_broken_chain _ _ es Hcyc).
    + destruct (computeCost_loop_stops _ _ _ _ _ Ho ltac:(done))
        as [(es & H) | (es & H)].
      * by destruct (cycle_no_chain _ _ es Hcyc).
      * by destruct (cycle_no_broken_chain _ _ es Hcyc).
    + destruct (computeCost_loop_stops _ _ _ _ _ Ho ltac:(done))
        as [(es & H) | (es & H)].
      * by destruct (cycle_no_chain _ _ es Hcyc).
      * by destruct (cycle_no_broken_chain _ _ es Hcyc).
Qed.

End ComputeCostCycles.

(** ** [computeParentMap] (lines 110-151): the tree of shortest paths *)

Section TreeBuilderCostsFacts.
Context `{PF : Platform} {PL : PlatformLaws}.
Variable out : NodePtr_t -> list Edge.
Variable root : NodePtr_t.
Hypothesis lengths_nonneg :
  forall n e, e ∈ out n -> 0 <= path_length (path e).
Hypothesis out_from : forall n e, e ∈ out n -> from e = n.
Implicit Types (v : gmap NodePtr_t WeighedNode_t) (q r : list WeighedNode_t).
Implicit Types (pm : gmap NodePtr_t EdgePtr_t) (es : list Edge).

Lemma entry_ok_mono v v' n par c :
  (forall f w, v !! f = Some w ->
     exists w', v' !! f = Some w' /\ cost w' <= cost w) ->
  entry_ok out root v n par c -> entry_ok out root v' n par c.
Proof.
  intros Hle (Hc & Hp). split; [done |]. destruct par as [e|]; [|done].
  destruct Hp as (Hto & Hin & w' & Hw' & Hle').
  destruct (Hle _ _ Hw') as (w'' & Hw'' & ?).
  split; [done |]. split; [done |]. exists w''. split; [done | lra].
Qed.

Lemma insert_labels_le v y (w : WeighedNode_t) :
  (forall old, v !! y = Some old -> cost w <= cost old) ->
  forall f w0, v !! f = Some w0 ->
    exists w', <[y := w]> v !! f = Some w' /\ cost w' <= cost w0.
Proof.
  intros Hy f w0 Hf. destruct (decide (f = y)) as [-> | Hne].
  - exists w. rewrite lookup_insert_eq. split; [done | by apply Hy].
  - exists w0. rewrite lookup_insert_ne by done. split; [done | lra].
Qed.

Lemma chain_insert_off pm y pv n es :
  chain pm n es -> y ∉ chain_nodes n es -> chain (<[y := pv]> pm) n es.
Proof.
  intros H. induction H as [n Hn|n e es Hn _ IH]; simpl; intros Hy.
  - constructor. rewrite lookup_insert_ne; [done |]. set_solver.
  - econstructor; [rewrite lookup_insert_ne; [done | set_solver] |].
    apply IH. set_solver.
Qed.

Lemma chain_redirect pm y pv esy n es :
  chain pm n es -> chain (<[y := pv]> pm) y esy ->
  exists es', chain (<[y := pv]> pm) n es'.
Proof.
  intros H Hy. induction H as [n Hn|n e es Hn _ (es' & IH)].
  - destruct (decide (n = y)) as [-> | Hne]; [eauto |].
    exists []. constructor. by rewrite lookup_insert_ne.
  - destruct (decide (n = y)) as [-> | Hne]; [eauto |].
    exists (e :: es'). econstructor; [by rewrite lookup_insert_ne | done].
Qed.

(** Along a chain of recorded parents the recorded costs do not increase. *)
Lemma labels_along_chain v f es wf :
  (forall n w, v !! n = Some w ->
     entry_ok out root v n (parent w) (cost w)) ->
  chain (parent <$> v) f es -> v !! f = Some wf ->
  forall z, z ∈ chain_nodes f es ->
    exists wz, v !! z = Some wz /\ cost wz <= cost wf.
Proof.
  intros HA H. revert wf.
  induction H as [f Hf|f e es Hf _ IH]; intros wf Hwf z Hz; simpl in Hz.
  - apply list_elem_of_singleton in Hz as ->. exists wf. split; [done | lra].
  - apply elem_of_cons in Hz as [-> | Hz]; [exists wf; split; [done | lra] |].
    rewrite lookup_fmap, Hwf in Hf. simpl in Hf. inversion Hf as [Hpar].
    destruct (HA _ _ Hwf) as (_ & Hp). rewrite Hpar in Hp.
    destruct Hp as (_ & Hin & w' & Hw' & Hle).
    destruct (IH _ Hw' _ Hz) as (wz & Hwz & Hlez).
    exists wz. split; [done |].
    pose proof (lengths_nonneg _ _ Hin). lra.
Qed.


Lemma label_inv_update v q x r W :
  label_inv out root v q -> (forall y, y ∈ q <-> y = x \/ y ∈ r) ->
  parent W = parent x -> cost W = cost x ->
  (forall old, v !! node x = Some old -> cost x < cost old) ->
  root_inv root (<[node x := W]> v) (push_children x (out (node x)) r) ->
  label_inv out root (<[node x := W]> v) (push_children x (out (node x)) r).
Proof.
  intros (HA & HB & HC & HT & HR) Hq HWp HWc Hold HR'.
  assert (Hx : entry_ok out root v (node x) (parent x) (cost x))
    by (apply HB, Hq; by left).
  assert (Hmono : forall f w0, v !! f = Some w0 ->
            exists w', <[node x := W]> v !! f = Some w' /\ cost w' <= cost w0).
  { apply insert_labels_le. intros old Ho. specialize (Hold _ Ho).
    rewrite HWc. lra. }
  assert (HA' : forall n w, <[node x := W]> v !! n = Some w ->
            entry_ok out root (<[node x := W]> v) n (parent w) (cost w)).
  { intros n w Hw. destruct (decide (n = node x)) as [-> | Hne].
    - rewrite lookup_insert_eq in Hw. inversion Hw; subst w.
      rewrite HWp, HWc. by eapply entry_ok_mono.
    - rewrite lookup_insert_ne in Hw by done.
      eapply entry_ok_mono; [done | by apply HA]. }
  split; [done |]. split; [|split; [|split; [|done]]].
  - intros y Hy. apply elem_of_push_children in Hy as [Hy | (e & He & ->)].
    + eapply entry_ok_mono; [done |]. apply HB, Hq. by right.
    + simpl. destruct Hx as (Hcx & _).
      pose proof (lengths_nonneg _ _ He) as Hlen.
      pose proof (out_from _ _ He) as Hfrom.
      split; [lra |]. split; [done |]. split; [by rewrite Hfrom |].
      exists W. rewrite Hfrom, lookup_insert_eq. split; [done |].
      rewrite HWc. lra.
  - intros n w e Hw He. destruct (decide (n = node x)) as [-> | Hne].
    + rewrite lookup_insert_eq in Hw. inversion Hw; subst w.
      right. eexists. split; [apply elem_of_push_children; right; eauto |].
      simpl. split; [done |]. rewrite HWc. lra.
    + rewrite lookup_insert_ne in Hw by done.
      destruct (HC _ _ _ Hw He) as [(w' & Hw' & Hle) | (y & Hy & Hyn & Hle)].
      * left. destruct (Hmono _ _ Hw') as (w'' & Hw'' & ?).
        exists w''. split; [done | lra].
      * apply Hq in Hy as [-> | Hy].
        -- left. exists W. rewrite <- Hyn, lookup_insert_eq.
           split; [done |]. rewrite HWc. lra.
        -- right. exists y.
           split; [apply elem_of_push_children; by left | done].
  - assert (Hself : exists es,
              chain (parent <$> <[node x := W]> v) (node x) es).
    { rewrite fmap_insert, HWp. destruct (parent x) as [e|] eqn:Hpar.
      - destruct Hx as (_ & _ & Hin & w' & Hw' & Hle).
        destruct (HT (from e) ltac:(eauto)) as (esf & Hf).
        exists (e :: esf). econstructor; [apply lookup_insert_eq |].
        apply chain_insert_off; [done |]. intros Hon.
        destruct (labels_along_chain _ _ _ _ HA Hf Hw' _ Hon)
          as (wz & Hwz & Hlez).
        specialize (Hold _ Hwz).
        pose proof (lengths_nonneg _ _ Hin). lra.
      - exists []. constructor. apply lookup_insert_eq. }
    destruct Hself as (esx & Hself).
    intros n Hn. destruct (decide (n = node x)) as [-> | Hne]; [eauto |].
    rewrite lookup_insert_ne in Hn by done.
    destruct (HT _ Hn) as (es & Hes).
    rewrite fmap_insert in Hself |- *. by eapply chain_redirect.
Qed.

Lemma label_inv_step v q x r v' q' :
  label_inv out root v q -> priority_queue_pop q = Some (x, r) ->
  visit out x v r = (v', q') -> label_inv out root v' q'.
Proof.
  intros HI Hpop Hv.
  pose proof HI as (HA & HB & HC & HT & HR).
  pose proof (root_inv_step out root lengths_nonneg _ _ _ _ _ _ HR Hpop Hv)
    as HR'.
  pose proof (fun y => pop_elem _ _ _ y Hpop) as Hq.
  apply visit_cases in Hv
    as [(Hn & -> & ->) | [(old & Hn & Hlt & -> & ->) | (old & Hn & Hle & -> & ->)]].
  - apply (label_inv_update v q x r x); try done.
    intros old Ho. congruence.
  - apply (label_inv_update v q x r); try done.
    intros old' Ho. congruence.
  - split; [done |]. split; [|split; [|split; [done | done]]].
    + intros y Hy. apply HB, Hq. by right.
    + intros n w e Hw He.
      destruct (HC _ _ _ Hw He) as [? | (y & Hy & Hyn & Hley)]; [by left |].
      apply Hq in Hy as [-> | Hy]; [|right; eauto].
      left. exists old. rewrite <- Hyn. split; [done | lra].
Qed.

Lemma label_inv_init :
  label_inv out root ∅ (priority_queue_push (mkWeighedNode root None 0) []).
Proof.
  unfold priority_queue_push. split; [|split; [|split; [|split]]].
  - intros n w Hw. by rewrite lookup_empty in Hw.
  - intros x Hx. apply list_elem_of_singleton in Hx as ->. simpl.
    split; [lra | split; [done | reflexivity]].
  - intros n w e Hw. by rewrite lookup_empty in Hw.
  - intros n [w Hw]. by rewrite lookup_empty in Hw.
  - left. split; [apply lookup_empty | done].
Qed.


Lemma computeParentMap_final fuel m :
  computeParentMap fuel out root = Some m ->
  exists v, m = parent <$> v /\ label_inv out root v [] /\
    is_Some (v !! root).
Proof.
  unfold computeParentMap, computeParentMap_run.
  destruct (computeParentMap_loop _ _ _ _ _) as [[v pops]|] eqn:Hl; [|done].
  intros [= <-]. exists v. split; [done |].
  assert (HI : label_inv out root v []).
  { eapply (computeParentMap_loop_invariant out (label_inv out root));
      [apply label_inv_step | apply label_inv_init | exact Hl]. }
  split; [done |].
  destruct HI as (_ & _ & _ & _ & [(_ & Hq) | ((w & Hw & _) & _)]);
    [discriminate | eauto].
Qed.

End TreeBuilderCostsFacts.

Section TreeBuilderResults.
Context `{PF : Platform} {PL : PlatformLaws}.
Implicit Types (out : NodePtr_t -> list Edge) (m : gmap NodePtr_t EdgePtr_t).
Implicit Types (es ws : list Edge).



(** X6: The keys of the map returned by [computeParentMap] are exactly the nodes
    that can be reached from the root by following out-edges. *)
Theorem computeParentMap_keys fuel out root m :
  computeParentMap fuel out root = Some m ->
  forall n, n ∈ dom m <-> reachable out root n.
Proof.
  intros H n. rewrite elem_of_dom. by eapply computeParentMap_dom.
Qed.

(** X5: On a finite graph without negative lengths the loop of
    [computeParentMap] ends, and the map it returns does not depend on the
    number of turns allowed. *)
Theorem computeParentMap_terminates out (ns : list NodePtr_t) root :
  root ∈ ns ->
  (forall n e, n ∈ ns -> e ∈ out n ->
     to e ∈ ns /\ 0 <= path_length (path e)) ->
  exists fuel0 m,
    (forall fuel, (fuel0 <= fuel)%nat ->
       computeParentMap fuel out root = Some m) /\
    (forall fuel m', computeParentMap fuel out root = Some m' -> m' = m).
Proof.
  intros Hroot Hcl.
  destruct (computeParentMap_total out ns root Hroot Hcl)
    as (fuel0 & m & Hall & _).
  exists fuel0, m. split; [done |]. intros fuel m' Hm'.
  pose proof (Hall (fuel + fuel0)%nat ltac:(lia)) as Hm.
  unfold computeParentMap, computeParentMap_run in Hm, Hm'.
  destruct (computeParentMap_loop fuel _ _ _ _) as [[v pops]|] eqn:Hl;
    [|done].
  rewrite (computeParentMap_loop_fuel _ _ fuel0 _ _ _ _ Hl) in Hm. congruence.
Qed.

(** X7: The map returned by [computeParentMap] is a parent map in the sense of
    [setParent] and [computeCost]: the root holds the null edge and is the
    only key that does; every other key [n] holds an out-edge of a key, and
    this edge leads to [n]; following parents from any key reaches the
    root. *)
Theorem computeParentMap_parent_map fuel out root m :
  (forall n e, e ∈ out n -> 0 <= path_length (path e)) ->
  (forall n e, e ∈ out n -> from e = n) ->
  computeParentMap fuel out root = Some m ->
  m !! root = Some None /\
  (forall n, m !! n = Some None -> n = root) /\
  (forall n e, m !! n = Some (Some e) ->
     to e = n /\ e ∈ out (from e) /\ is_Some (m !! from e)) /\
  tree m.
Proof.
  intros Hlen Hfrom H.
  pose proof (computeParentMap_root out root Hlen _ _ H) as Hroot.
  destruct (computeParentMap_final out root Hlen Hfrom _ _ H)
    as (v & -> & (HA & _ & _ & HT & _) & _).
  split; [done |]. split; [|split].
  - intros n Hn. rewrite lookup_fmap in Hn.
    destruct (v !! n) as [w|] eqn:Hw; [|done]. simpl in Hn.
    destruct (HA _ _ Hw) as (_ & Hp). inversion Hn as [Hpar].
    rewrite Hpar in Hp. by destruct Hp.
  - intros n e Hn. rewrite lookup_fmap in Hn.
    destruct (v !! n) as [w|] eqn:Hw; [|done]. simpl in Hn.
    destruct (HA _ _ Hw) as (_ & Hp). inversion Hn as [Hpar].
    rewrite Hpar in Hp. destruct Hp as (? & ? & w' & Hw' & _).
    split; [done |]. split; [done |]. rewrite lookup_fmap, Hw'. eauto.
  - intros n Hn. apply HT. rewrite lookup_fmap in Hn.
    by apply fmap_is_Some in Hn.
Qed.





End TreeBuilderResults.

(** ** [buildPath] (lines 215-239) *)

Section BuildPathFacts.
Context `{PF : Platform} `{CO : !Collaborators}.

(** X10: [buildPath] with validation is the path validation applied to what
    [buildPath] without validation returns; and without validation it
    returns nothing exactly when the steering method returns nothing or a
    path projector is set and returns nothing. *)
Theorem buildPath_stages q0 q1 maxLength :
  buildPath q0 q1 maxLength true =
    match buildPath q0 q1 maxLength false with
    | None => None
    | Some p => snd (pathValidation p)
    end /\
  (buildPath q0 q1 maxLength false = None <->
   steer q0 q1 = None \/
   exists p apply,
     steer q0 q1 = Some p /\ pathProjector = Some apply /\ apply p = None).
Proof.
  unfold buildPath. destruct (steer q0 q1) as [p|] eqn:Hs.
  - destruct pathProjector as [apply|] eqn:Hp.
    + destruct (apply p) as [p1|] eqn:Ha; simpl.
      * split; [done |]. split; [done |].
        intros [? | (p' & apply' & [= <-] & [= <-] & Hn)]; congruence.
      * split; [done |]. split; [|done]. intros _. right. eauto.
    + simpl. split; [done |]. split; [done |].
      intros [? | (p' & apply' & _ & ? & _)]; congruence.
  - split; [done |]. split; [|done]. intros _. by left.
Qed.

(** X11: With a positive [maxLength], the path that [buildPath] returns is not
    longer than [maxLength], validated or not. *)
Theorem buildPath_capped `{!BuildLaws} q0 q1 maxLength validatePath p :
  0 < maxLength ->
  buildPath q0 q1 maxLength validatePath = Some p ->
  path_length p <= maxLength.
Proof.
  intros Hpos. unfold buildPath.
  destruct (steer q0 q1) as [p0|]; [|done].
  destruct (match pathProjector with
            | Some apply => apply p0
            | None => Some p0
            end) as [p1|]; [|done].
  apply Qltb_lt in Hpos as Hb. rewrite Hb. simpl.
  assert (Hcap : path_length
            (if Qltb maxLength (path_length p1)
             then extract p1 (timeRange_first p1)
                    (timeRange_first p1 + maxLength)
             else p1) <= maxLength).
  { case_Qltb maxLength (path_length p1); [|done].
    rewrite extract_length by done. lra. }
  destruct validatePath; simpl.
  - intros Hv. apply valid_part_length in Hv. lra.
  - by intros [= <-].
Qed.

End BuildPathFacts.

(** ** What the member functions leave alone *)

Section PlannerEffects.
Context `{PF : Platform} `{CO : !Collaborators}.

Lemma at2_set2_same {A} k (v : A) a : at2 k (set2 k v a) = v.
Proof. by destruct k. Qed.

Lemma at2_set2_other {A} k (v : A) a :
  at2 (other k) (set2 k v a) = at2 (other k) a.
Proof. by destruct k. Qed.

Lemma keeps_other_refl k s : keeps_other k s s.
Proof. done. Qed.

Lemma keeps_other_trans k s1 s2 s3 :
  keeps_other k s1 s2 -> keeps_other k s2 s3 -> keeps_other k s1 s3.
Proof. unfold keeps_other. congruence. Qed.

Lemma keeps_other_same_maps k s s' : toRoot_ s' = toRoot_ s -> keeps_other k s s'.
Proof. unfold keeps_other. by intros ->. Qed.

Lemma other_computeCost_k k j n : preserves (keeps_other k) (computeCost_k j n).
Proof. intros s o s' [= <- <-]. done. Qed.

Lemma other_setParent_k k n e : preserves (keeps_other k) (setParent_k k n e).
Proof.
  intros s o s'. unfold setParent_k.
  destruct (setParent _ n e) as [o1 m]. intros [= <- <-].
  unfold keeps_other. simpl. apply at2_set2_other.
Qed.

Lemma other_addNode k q : preserves (keeps_other k) (roadmap_addNode q).
Proof.
  intros s o s'. unfold roadmap_addNode.
  destruct (addNode _ q) as [n r]. by intros [= <- <-].
Qed.

Lemma other_addEdge k n1 n2 p :
  preserves (keeps_other k) (roadmap_addEdge n1 n2 p).
Proof. by intros s o s' [= <- <-]. Qed.

Lemma other_get_roadmap k : preserves (keeps_other k) get_roadmap.
Proof. by intros s o s' [= <- <-]. Qed.

Lemma other_assert_dep k (b : BiRrtStar -> bool) :
  preserves (keeps_other k) (fun s => assert_ (b s) s).
Proof.
  intros s o s'. unfold assert_.
  by destruct (negb NDEBUG && negb (b s)); intros [= <- <-].
Qed.

Lemma other_nodesWithinBall k q cc r :
  preserves (keeps_other k) (roadmap_nodesWithinBall q cc r).
Proof. by intros s o s' [= <- <-]. Qed.

Ltac other_step :=
  first
    [ apply preserves_ret; apply keeps_other_refl
    | apply other_computeCost_k
    | apply other_setParent_k
    | apply other_addNode
    | apply other_addEdge
    | apply other_get_roadmap
    | apply other_assert_dep
    | apply other_nodesWithinBall
    | apply preserves_bind; [apply keeps_other_trans | | intros ?] ].

Lemma other_chooseParent k q nearNodes c :
  preserves (keeps_other k) (chooseParent k q nearNodes c).
Proof.
  revert c. induction nearNodes as [|n rest IH]; intros c; simpl.
  - other_step.
  - destruct (n =? near c)%nat; [apply IH |].
    other_step; [other_step |].
    destruct (buildPath _ q (-1) false) as [p|]; [|apply IH].
    other_step; [other_step |].
    destruct (Qltb _ _); [destruct (validate p) |]; apply IH.
Qed.

Lemma other_attach k near qnew p : preserves (keeps_other k) (attach k near qnew p).
Proof. unfold attach. repeat other_step. Qed.

Lemma other_rewire_one chk k near qnew cost_q n vp :
  preserves (keeps_other k) (rewire_one chk k near qnew cost_q n vp).
Proof.
  destruct vp as [v [p|]]; simpl; [|other_step].
  destruct (n =? near)%nat; [other_step |].
  other_step; [other_step |].
  destruct (Qltb _ _); [|other_step].
  destruct (if v then true else validate p); [|other_step].
  other_step; [other_step |]. other_step; [other_step |].
  other_step; [|other_step]. destruct chk; other_step.
Qed.

Lemma other_rewire chk k near qnew cost_q l :
  preserves (keeps_other k) (rewire chk k near qnew cost_q l).
Proof.
  induction l as [|[n vp] rest IH]; simpl; [other_step |].
  other_step; [apply other_rewire_one | apply IH].
Qed.

Lemma other_extend target k q : preserves (keeps_other k) (extend target k q).
Proof.
  intros s o s'. unfold extend.
  destruct (nearestNode_cc _ _ _) as [near0 dist].
  destruct (Qltb dist eps_dist); [by intros [= <- <-] |].
  destruct (buildPath _ _ _ _) as [path0|]; [|by intros [= <- <-]].
  destruct (Qltb _ eps_length); [by intros [= <- <-] |].
  revert s o s'.
  assert (Htail : forall r cc c,
    preserves (keeps_other k)
      (bind (roadmap_nodesWithinBall c cc r) (fun nearNodes =>
       bind (computeCost_k k near0) (fun c_near =>
       bind (chooseParent k c nearNodes
               (mkChoice (c_near + path_length path0) near0 path0 []))
         (fun ch =>
       bind (roadmap_addNode c) (fun qnew =>
       bind (attach k (near ch) qnew (near_path ch)) (fun _ =>
       bind (rewire false k (near ch) qnew (cost_q ch)
               (zip nearNodes (paths ch))) (fun _ =>
       ret (true, c))))))))).
  { intros r cc c.
    other_step; [other_step |]. other_step; [other_step |].
    other_step; [apply other_chooseParent |].
    other_step; [other_step |]. other_step; [apply other_attach |].
    other_step; [apply other_rewire | other_step]. }
  intros s o s' H. eapply Htail. exact H.
Qed.

Lemma other_connect fuel b k q : preserves (keeps_other k) (connect fuel b k q).
Proof.
  induction fuel as [|fuel IH]; intros s o s'; simpl.
  - by destruct (_ =? 2)%nat; intros [= <- <-].
  - destruct (_ =? 2)%nat; [|by intros [= <- <-]].
    revert s o s'.
    apply preserves_bind;
      [apply keeps_other_trans | apply other_extend | intros r].
    destruct (negb (fst r)); [|apply IH].
    apply preserves_ret, keeps_other_refl.
Qed.

(** X15: [extend] and [connect], called for the parent map of slot [k], leave
    [gamma_], [extendMaxLength_], [roots_] and the parent map of the other
    slot as they were, however they stop. *)
Theorem extend_connect_frame :
  (forall target k q s o s',
     extend target k q s = (o, s') ->
     same_settings s s' /\ keeps_other k s s') /\
  (forall fuel b k q s o s',
     connect fuel b k q s = (o, s') ->
     same_settings s s' /\ keeps_other k s s').
Proof.
  split.
  - intros target k q s o s' H. split.
    + by eapply extend_same_settings.
    + by eapply other_extend.
  - intros fuel b k q s o s' H. split.
    + by eapply connect_same_settings.
    + by eapply other_connect.
Qed.

End PlannerEffects.

(** ** [connect] (lines 312-322) *)

Section ConnectFacts.
Context `{PF : Platform} `{CO : !Collaborators}.

(** [extend] hands back [false] only from its guards, with the planner
    untouched. *)
Lemma extend_false target k q s q' s' :
  extend target k q s = (Ret (false, q'), s') -> s' = s /\ q' = q.
Proof.
  intros H.
  destruct (nearestNode_cc (roadmap s) q
              (connectedComponent (roadmap s) target))
    as [near0 dist] eqn:Hn.
  destruct (Qltb dist eps_dist) eqn:Hd.
  { unfold extend in H. rewrite Hn, Hd in H. by inversion H. }
  destruct (buildPath (configuration (roadmap s) near0) q
              (extendMaxLength_ s) true) as [path0|] eqn:Hp.
  2:{ unfold extend in H. rewrite Hn, Hd, Hp in H. by inversion H. }
  destruct (Qltb (path_length path0) eps_length) eqn:Hl.
  { unfold extend in H. rewrite Hn, Hd, Hp, Hl in H. by inversion H. }
  destruct (extend_past_guards _ _ _ _ _ _ _ Hn Hd Hp Hl _ _ H)
    as (_ & _ & Hr).
  specialize (Hr _ eq_refl). discriminate.
Qed.

(** X16: [connect] answers [true] only when the roadmap does not have two
    connected components any more, and [false] only when it still has two;
    when the roadmap does not have two components at the call, it answers
    [true] at once and changes nothing. *)
Theorem connect_outcome fuel b k q s o s' :
  connect fuel b k q s = (o, s') ->
  (o = Ret true -> connectedComponents_size (roadmap s') <> 2%nat) /\
  (o = Ret false -> connectedComponents_size (roadmap s') = 2%nat) /\
  (connectedComponents_size (roadmap s) <> 2%nat -> o = Ret true /\ s' = s).
Proof.
  revert s o s'. induction fuel as [|fuel IH]; intros s o s'; simpl;
    destruct (connectedComponents_size (roadmap s) =? 2)%nat eqn:Hcc.
  - apply Nat.eqb_eq in Hcc. intros [= <- <-].
    split; [discriminate |]. split; [discriminate | done].
  - apply Nat.eqb_neq in Hcc. intros [= <- <-].
    split; [done |]. split; [discriminate | done].
  - apply Nat.eqb_eq in Hcc. intros H.
    apply bind_inv in H as [([ok qn] & s1 & He & H) | (o1 & He & Hn & Ho)].
    + simpl in H. destruct ok; simpl in H.
      * destruct (IH _ _ _ H) as (H1 & H2 & _).
        split; [done |]. split; [done |]. intros Hne. done.
      * inversion H; subst.
        apply extend_false in He as [-> _].
        split; [discriminate |]. split; [done |]. intros Hne. done.
    + split; [|split].
      * intros ->. destruct o1 as [a|?| |]; first [by destruct (Hn a) | done].
      * intros ->. destruct o1 as [a|?| |]; first [by destruct (Hn a) | done].
      * intros Hne. done.
  - apply Nat.eqb_neq in Hcc. intros [= <- <-].
    split; [done |]. split; [discriminate | done].
Qed.

End ConnectFacts.

(** ** [improve] (lines 324-400): guards *)

Section ImproveFacts.
Context `{PF : Platform} `{CO : !Collaborators}.

Lemma quiet_improve_tail q nn path0 near0 :
  preserves quiet
    (bind (roadmap_addNode q) (fun qnew =>
     bind (improve_pass 0 q qnew nn path0 near0) (fun near1 =>
     bind (improve_pass 1 q qnew nn path0 near1) (fun _ => ret true)))).
Proof.
  apply preserves_bind; [apply quiet_trans | apply quiet_addNode | intros qnew].
  apply preserves_bind;
    [apply quiet_trans | apply quiet_improve_pass | intros near1].
  apply preserves_bind;
    [apply quiet_trans | apply quiet_improve_pass | intros _].
  apply preserves_ret, quiet_refl.
Qed.

Lemma improve_past_guards q s near0 dist path0 :
  nearestNode (roadmap s) q = (near0, dist) ->
  Qltb dist eps_dist = false ->
  buildPath (configuration (roadmap s) near0) q (extendMaxLength_ s) true
    = Some path0 ->
  Qltb (path_length path0) eps_length = false ->
  forall o s', improve q s = (o, s') ->
    ball_queries s' =
      (q, connectedComponent (roadmap s) (fst (roots_ s)),
       ball_radius (gamma_ s) (extendMaxLength_ s)
         (length (nodes (roadmap s)))) :: ball_queries s /\
    same_settings s s' /\
    forall r, o = Ret r -> r = true.
Proof.
  intros Hn Hd Hp Hl o s' H. unfold improve in H.
  rewrite Hn, Hd, Hp, Hl in H.
  apply bind_inv in H as [(nn & s1 & H1 & H2) | (o1 & H1 & Hne & _)].
  - apply nodesWithinBall_inv in H1 as (_ & _ & _ & Hs1 & Hq1).
    pose proof (quiet_improve_tail _ _ _ _ _ _ _ H2) as [Hs2 Hq2].
    split; [unfold same_queries in Hq2; congruence |].
    split; [by eapply same_settings_trans |].
    intros r ->.
    repeat (apply bind_inv_Ret in H2 as (? & ? & _ & H2)).
    by inversion H2.
  - apply nodesWithinBall_inv in H1 as (-> & _). by edestruct Hne.
Qed.

(** X18: [improve] returns false and leaves the planner as it was when the
    nearest node of the roadmap is closer than [1e-16], or when the capped,
    validated path is missing or shorter than [1e-10]; otherwise the ball
    query is made around the sample [q] itself, in the component of
    [roots_[0]], and [improve] can only return [true]. *)
Theorem improve_guards q s :
  let near0 := fst (nearestNode (roadmap s) q) in
  let dist := snd (nearestNode (roadmap s) q) in
  let p :=
    buildPath (configuration (roadmap s) near0) q (extendMaxLength_ s) true in
  let stop :=
    dist < eps_dist \/ p = None \/
    exists p0, p = Some p0 /\ path_length p0 < eps_length in
  (stop -> improve q s = (Ret false, s)) /\
  (~ stop ->
   forall o s', improve q s = (o, s') ->
     (exists r,
        ball_queries s' =
          (q, connectedComponent (roadmap s) (fst (roots_ s)), r)
            :: ball_queries s) /\
     (forall b, o = Ret b -> b = true)).
Proof.
  intros near0 dist p stop. subst near0 dist p.
  destruct (nearestNode _ _) as [near0 dist] eqn:Hn.
  subst stop. simpl. split.
  - intros Hstop. unfold improve. rewrite Hn.
    case_Qltb dist eps_dist; [done |].
    destruct Hstop as [Hd | [Hp | (p0 & Hp & Hl)]].
    + lra.
    + by rewrite Hp.
    + rewrite Hp. apply Qltb_lt in Hl. by rewrite Hl.
  - intros Hgo o s' H.
    destruct (buildPath _ _ _ _) as [p0|] eqn:Hp;
      [|exfalso; apply Hgo; right; left; done].
    assert (Hd : Qltb dist eps_dist = false).
    { apply Qltb_ge. apply Qnot_lt_le. intros Hlt. apply Hgo. by left. }
    assert (Hl : Qltb (path_length p0) eps_length = false).
    { apply Qltb_ge. apply Qnot_lt_le. intros Hlt. apply Hgo.
      right; right. eauto. }
    destruct (improve_past_guards _ _ _ _ _ Hn Hd Hp Hl _ _ H)
      as (Hq & _ & Hr).
    split; [eauto | done].
Qed.

(** C6: a call of [extend] or of [improve] that stops on one of its guards
    makes no ball query; a call that passes them makes exactly one, and its
    radius is [min(gamma * (ln N / N)^(1/d), extendMaxLength)] with [N] the
    number of roadmap nodes when the call starts, before the new node is
    added, and [d] the number of degrees of freedom.  The ball of [extend]
    is centred on the end of the built path, the ball of [improve] on the
    sample. *)
Theorem ball_radius_queries :
  (forall target k q s o s',
     extend target k q s = (o, s') ->
     let cc := connectedComponent (roadmap s) target in
     let near0 := fst (nearestNode_cc (roadmap s) q cc) in
     let dist := snd (nearestNode_cc (roadmap s) q cc) in
     let p :=
       buildPath (configuration (roadmap s) near0) q (extendMaxLength_ s)
         true in
     let radius :=
       std_min
         (gamma_ s *
          std_pow
            (std_log (inject_Z (Z.of_nat (length (nodes (roadmap s))))) /
             inject_Z (Z.of_nat (length (nodes (roadmap s)))))
            (1 / inject_Z (Z.of_nat numberDof)))
         (extendMaxLength_ s) in
     (dist < eps_dist \/ p = None \/
      (exists p0, p = Some p0 /\ path_length p0 < eps_length) ->
      ball_queries s' = ball_queries s) /\
     (forall p0,
        ~ dist < eps_dist -> p = Some p0 -> ~ path_length p0 < eps_length ->
        ball_queries s' = (path_end p0, cc, radius) :: ball_queries s)) /\
  (forall q s o s',
     improve q s = (o, s') ->
     let near0 := fst (nearestNode (roadmap s) q) in
     let dist := snd (nearestNode (roadmap s) q) in
     let p :=
       buildPath (configuration (roadmap s) near0) q (extendMaxLength_ s)
         true in
     let radius :=
       std_min
         (gamma_ s *
          std_pow
            (std_log (inject_Z (Z.of_nat (length (nodes (roadmap s))))) /
             inject_Z (Z.of_nat (length (nodes (roadmap s)))))
            (1 / inject_Z (Z.of_nat numberDof)))
         (extendMaxLength_ s) in
     (dist < eps_dist \/ p = None \/
      (exists p0, p = Some p0 /\ path_length p0 < eps_length) ->
      ball_queries s' = ball_queries s) /\
     (forall p0,
        ~ dist < eps_dist -> p = Some p0 -> ~ path_length p0 < eps_length ->
        ball_queries s' =
          (q, connectedComponent (roadmap s) (fst (roots_ s)), radius)
            :: ball_queries s)).
Proof.
  split.
  - intros target k q s o s' H. simpl.
    destruct (nearestNode_cc (roadmap s) q
                (connectedComponent (roadmap s) target))
      as [near0 dist] eqn:Hn. simpl.
    split.
    + intros Hstop. unfold extend in H. rewrite Hn in H. revert H.
      case_Qltb dist eps_dist; [by intros [= _ <-] |].
      destruct Hstop as [Hd | [Hp | (p0 & Hp & Hl)]].
      * lra.
      * rewrite Hp. by intros [= _ <-].
      * rewrite Hp. apply Qltb_lt in Hl. rewrite Hl. by intros [= _ <-].
    + intros p0 Hd Hp Hl.
      apply Qnot_lt_le, Qltb_ge in Hd. apply Qnot_lt_le, Qltb_ge in Hl.
      by destruct (extend_past_guards _ _ _ _ _ _ _ Hn Hd Hp Hl _ _ H)
        as (Hq & _).
  - intros q s o s' H. simpl.
    destruct (nearestNode (roadmap s) q) as [near0 dist] eqn:Hn. simpl.
    split.
    + intros Hstop. unfold improve in H. rewrite Hn in H. revert H.
      case_Qltb dist eps_dist; [by intros [= _ <-] |].
      destruct Hstop as [Hd | [Hp | (p0 & Hp & Hl)]].
      * lra.
      * rewrite Hp. by intros [= _ <-].
      * rewrite Hp. apply Qltb_lt in Hl. rewrite Hl. by intros [= _ <-].
    + intros p0 Hd Hp Hl.
      apply Qnot_lt_le, Qltb_ge in Hd. apply Qnot_lt_le, Qltb_ge in Hl.
      by destruct (improve_past_guards _ _ _ _ _ Hn Hd Hp Hl _ _ H)
        as (Hq & _).
Qed.

Lemma improve_same_settings q : preserves same_settings (improve q).
Proof.
  intros s o s' H.
  destruct (nearestNode (roadmap s) q) as [near0 dist] eqn:Hn.
  destruct (Qltb dist eps_dist) eqn:Hd.
  { unfold improve in H. rewrite Hn, Hd in H. inversion H.
    apply same_settings_refl. }
  destruct (buildPath (configuration (roadmap s) near0) q
              (extendMaxLength_ s) true) as [path0|] eqn:Hp.
  2:{ unfold improve in H. rewrite Hn, Hd, Hp in H. inversion H.
      apply same_settings_refl. }
  destruct (Qltb (path_length path0) eps_length) eqn:Hl.
  { unfold improve in H. rewrite Hn, Hd, Hp, Hl in H. inversion H.
    apply same_settings_refl. }
  by destruct (improve_past_guards _ _ _ _ _ Hn Hd Hp Hl _ _ H)
    as (_ & ? & _).
Qed.

End ImproveFacts.

(** ** [startSolve] (lines 153-170) and [oneStep] (lines 172-197) *)

Section StepFacts.
Context `{PF : Platform} `{CO : !Collaborators}.

(** X12: [startSolve] begins with the [startSolve] of the base class,
    which may write the roadmap.  When that call does not return,
    [startSolve] ends the same way and the members of [BiRrtStar] are as they
    were.  When it returns and the roadmap it leaves has no goal node, or
    more than one, [startSolve] throws [invalid_argument], the members of
    [BiRrtStar] being as they were.  When it returns and leaves exactly one
    goal node, [startSolve] returns, sets [gamma_] from the parameter,
    [extendMaxLength_] from the parameter or, when the parameter is not
    positive, to the square root of the number of degrees of freedom, points
    [roots_] at the init node and at the goal node, and records the null
    parent for each root in its own parent map, whose other entries stay;
    [startSolve] itself does not write the roadmap. *)
Theorem startSolve_spec s :
  let o := fst (Parent_startSolve (roadmap s)) in
  let r := snd (Parent_startSolve (roadmap s)) in
  let s0 :=
    mkBiRrtStar r (gamma_ s) (extendMaxLength_ s) (roots_ s) (toRoot_ s)
      (ball_queries s) in
  ((forall a, o <> Ret a) -> startSolve s = (o, s0)) /\
  (o = Ret tt -> length (goalNodes r) <> 1%nat ->
   startSolve s =
     (Throw (invalid_argument "there should be only one goal node."), s0)) /\
  (o = Ret tt ->
   forall goal, goalNodes r = [goal] ->
     exists s',
       startSolve s = (Ret tt, s') /\
       roadmap s' = r /\
       gamma_ s' = param_gamma /\
       extendMaxLength_ s' =
         (if Qle_bool param_maxStepLength 0
          then std_sqrt (inject_Z (Z.of_nat numberDof))
          else param_maxStepLength) /\
       roots_ s' = (initNode r, goal) /\
       fst (toRoot_ s') = <[initNode r := None]> (fst (toRoot_ s)) /\
       snd (toRoot_ s') = <[goal := None]> (snd (toRoot_ s)) /\
       ball_queries s' = ball_queries s).
Proof.
  simpl. unfold startSolve, bind, parent_startSolve.
  destruct (Parent_startSolve (roadmap s)) as [o r]. simpl.
  split; [|split].
  - intros Hne. destruct o as [a| | |]; [by destruct (Hne a) | done ..].
  - intros -> Hl.
    destruct (goalNodes r) as [|g [|g' l]]; simpl in Hl; done.
  - intros -> goal Hg. rewrite Hg. eexists. split; [done |].
    by repeat split.
Qed.

(** X20: [oneStep], however it stops, keeps [gamma_] and [extendMaxLength_]; the
    two roots stay where they were or change places, and they stay where
    they were when the roadmap does not have two connected components. *)
Theorem oneStep_frame fuel q s o s' :
  oneStep fuel q s = (o, s') ->
  gamma_ s' = gamma_ s /\ extendMaxLength_ s' = extendMaxLength_ s /\
  (roots_ s' = roots_ s \/ roots_ s' = swap2 (roots_ s)) /\
  (connectedComponents_size (roadmap s) <> 2%nat -> roots_ s' = roots_ s).
Proof.
  intros H. unfold oneStep in H.
  destruct (connectedComponents_size (roadmap s) =? 2)%nat eqn:Hcc.
  - apply Nat.eqb_eq in Hcc.
    assert (gamma_ s' = gamma_ s /\ extendMaxLength_ s' = extendMaxLength_ s /\
            (roots_ s' = roots_ s \/ roots_ s' = swap2 (roots_ s)))
      as (? & ? & ?); [|by repeat split].
    apply bind_inv in H as [([b q'] & s1 & He & H) | (o1 & He & _)].
    + apply extend_same_settings in He as (Hg & Hl & Hr).
      rewrite <- Hg, <- Hl, <- Hr. simpl in H. destruct b.
      * destruct (_ =? _)%nat; [inversion H; subst; split; [done |]; split; [done |]; by left |].
        apply bind_inv in H as [(r & s2 & Hc & H) | (o1 & Hc & _)].
        -- apply connect_same_settings in Hc as (Hg2 & Hl2 & Hr2).
           inversion H; subst; simpl. rewrite <- Hr2.
           split; [done |]. split; [done |]. by right.
        -- apply connect_same_settings in Hc as (Hg2 & Hl2 & Hr2).
           split; [congruence |]. split; [congruence |]. left. congruence.
      * inversion H; subst; simpl. split; [done |]. split; [done |]. by right.
    + apply extend_same_settings in He as (Hg & Hl & Hr).
      split; [done |]. split; [done |]. by left.
  - apply Nat.eqb_neq in Hcc.
    assert (same_settings s s') as (? & ? & ?);
      [|split; [done |]; split; [done |]; split; [by left | done]].
    revert H. generalize s o s'.
    change (preserves same_settings
      (bind (fillParentMaps fuel) (fun _ =>
       bind assert_sizes (fun _ =>
       bind (improve q) (fun _ => ret tt))))).
    apply preserves_bind; [apply same_settings_trans | | intros _].
    { intros s0 o0 s0' H0. unfold fillParentMaps in H0.
      repeat case_match; simplify_eq; by repeat split. }
    apply preserves_bind; [apply same_settings_trans | | intros _].
    { intros s0 o0 s0' H0. unfold assert_sizes, bind, assert_ in H0.
      repeat case_match; simplify_eq; by repeat split. }
    apply preserves_bind;
      [apply same_settings_trans | apply improve_same_settings | intros _].
    apply preserves_ret, same_settings_refl.
Qed.

(** X21: When the path validation accepts no part of any path, a call of
    [oneStep] on a roadmap with two connected components only swaps the two
    root slots and the two parent-map slots, whatever the sample; a second
    call gives the planner back as it was before the first. *)
Theorem oneStep_rejected fuel q s :
  (forall p, snd (pathValidation p) = None) ->
  connectedComponents_size (roadmap s) = 2%nat ->
  oneStep fuel q s = swap_slots s /\
  forall fuel' q',
    oneStep fuel' q' (snd (swap_slots s)) = (Ret tt, s).
Proof.
  intros Hrej Hcc.
  assert (Hb : forall q0 q1 l, buildPath q0 q1 l true = None).
  { intros q0 q1 l. unfold buildPath.
    destruct (steer q0 q1) as [p0|]; [|done].
    destruct pathProjector as [pr|]; [destruct (pr p0); [|done] |];
      simpl; apply Hrej. }
  assert (Hone : forall f c t, connectedComponents_size (roadmap t) = 2%nat ->
            oneStep f c t = swap_slots t).
  { intros f c t Ht. unfold oneStep. rewrite Ht. simpl.
    unfold bind, extend. destruct (nearestNode_cc _ _ _) as [n0 d].
    destruct (Qltb d eps_dist); [done |]. by rewrite Hb. }
  split; [by apply Hone |]. intros fuel' q'.
  rewrite Hone; [|done].
  by destruct s as [r g l [r0 r1] [m0 m1] b].
Qed.

End StepFacts.

(** ** The choose-parent loop (lines 262-286) *)

Section ChooseParentFacts.
Context `{PF : Platform} `{CO : !Collaborators}.

(** The loop reads the roadmap and the parent map and writes neither. *)
Lemma chooseParent_state k q nearNodes c s o s' :
  chooseParent k q nearNodes c s = (o, s') -> s' = s.
Proof.
  revert c. induction nearNodes as [|n rest IH]; intros c; simpl.
  - by intros [= _ <-].
  - destruct (n =? near c)%nat; [apply IH |].
    unfold bind at 1, get_roadmap.
    destruct (buildPath _ q (-1) false) as [p|]; [|apply IH].
    unfold bind at 1, computeCost_k.
    destruct (computeCost _ n) as [c_near|e| |]; try by intros [= _ <-].
    destruct (Qltb _ _); [destruct (validate p) |]; apply IH.
Qed.

(** One more record in [paths] for each near node. *)
Lemma chooseParent_paths k q nearNodes c s c' s' :
  chooseParent k q nearNodes c s = (Ret c', s') ->
  length (paths c') = (length (paths c) + length nearNodes)%nat.
Proof.
  revert c. induction nearNodes as [|n rest IH]; intros c; simpl.
  - intros [= <- _]. lia.
  - assert (Hstep : forall c1 x,
              paths c1 = paths c ++ [x] ->
              chooseParent k q rest c1 s = (Ret c', s') ->
              length (paths c') = (length (paths c) + S (length rest))%nat).
    { intros c1 x Hp H. apply IH in H. rewrite H, Hp, length_app. simpl. lia. }
    destruct (n =? near c)%nat; [by eapply Hstep |].
    unfold bind at 1, get_roadmap.
    destruct (buildPath _ q (-1) false) as [p|]; [|by eapply Hstep].
    unfold bind at 1, computeCost_k.
    destruct (computeCost _ n) as [c_near|e| |]; try done.
    destruct (Qltb _ _); [destruct (validate p) |]; by eapply Hstep.
Qed.

(** X13: The parent kept by the loop is the cheapest among the connections that
    the loop accepts.  The loop returns with the planner as it was, one
    record in [paths] for each near node, and a cost not greater than the
    one it started with; the cost it returns is not greater than
    [computeCost(n) + length] for any near node [n], other than the first
    candidate, whose direct path is built and passes the validation.  The
    candidate kept is the first one, or a near node with such a path whose
    [computeCost] plus the path length is the cost returned. *)
Theorem chooseParent_cheapest k q nearNodes near0 path0 cost0 s c' s' :
  chooseParent k q nearNodes (mkChoice cost0 near0 path0 []) s
    = (Ret c', s') ->
  s' = s /\
  length (paths c') = length nearNodes /\
  cost_q c' <= cost0 /\
  (forall n p c_n,
     n ∈ nearNodes -> n <> near0 ->
     buildPath (configuration (roadmap s) n) q (-1) false = Some p ->
     validate p = true ->
     computeCost (at2 k (toRoot_ s)) n = Ret c_n ->
     cost_q c' <= c_n + path_length p) /\
  ((near c' = near0 /\ near_path c' = path0 /\ cost_q c' = cost0) \/
   (near c' ∈ nearNodes /\
    buildPath (configuration (roadmap s) (near c')) q (-1) false
      = Some (near_path c') /\
    validate (near_path c') = true /\
    exists c_n, computeCost (at2 k (toRoot_ s)) (near c') = Ret c_n /\
                cost_q c' = c_n + path_length (near_path c'))).
Proof.
  intros H.
  split; [by eapply chooseParent_state |].
  split; [by apply chooseParent_paths in H |].
  set (picked := fun (l : list NodePtr_t) (c : Choice) =>
    (near c = near0 /\ near_path c = path0 /\ cost_q c = cost0) \/
    (near c ∈ l /\
     buildPath (configuration (roadmap s) (near c)) q (-1) false
       = Some (near_path c) /\
     validate (near_path c) = true /\
     exists c_n, computeCost (at2 k (toRoot_ s)) (near c) = Ret c_n /\
                 cost_q c = c_n + path_length (near_path c))).
  assert (Hgen : forall rest seen c,
    picked seen c ->
    chooseParent k q rest c s = (Ret c', s') ->
    cost_q c' <= cost_q c /\
    (forall n p c_n,
       n ∈ rest -> n <> near0 ->
       buildPath (configuration (roadmap s) n) q (-1) false = Some p ->
       validate p = true ->
       computeCost (at2 k (toRoot_ s)) n = Ret c_n ->
       cost_q c' <= c_n + path_length p) /\
    picked (seen ++ rest) c').
  { clear H. induction rest as [|n rest IH]; intros seen c Hc; simpl.
    - intros [= <- _]. split; [lra |]. split.
      + intros n p c_n Hin. by apply elem_of_nil in Hin.
      + by rewrite app_nil_r.
    - assert (Hkeep : forall c1,
        near c1 = near c -> near_path c1 = near_path c ->
        cost_q c1 = cost_q c ->
        (forall p c_n, n <> near0 ->
           buildPath (configuration (roadmap s) n) q (-1) false = Some p ->
           validate p = true ->
           computeCost (at2 k (toRoot_ s)) n = Ret c_n ->
           cost_q c <= c_n + path_length p) ->
        chooseParent k q rest c1 s = (Ret c', s') ->
        cost_q c' <= cost_q c /\
        (forall n0 p c_n,
           n0 ∈ n :: rest -> n0 <> near0 ->
           buildPath (configuration (roadmap s) n0) q (-1) false = Some p ->
           validate p = true ->
           computeCost (at2 k (toRoot_ s)) n0 = Ret c_n ->
           cost_q c' <= c_n + path_length p) /\
        picked (seen ++ n :: rest) c').
      { intros c1 Hn1 Hp1 Hc1 Hhere H.
        assert (Hpick : picked (seen ++ [n]) c1).
        { destruct Hc as [Hc | (Hin & Hc)]; [left | right].
          - by rewrite Hn1, Hp1, Hc1.
          - rewrite Hn1, Hp1, Hc1. split; [|done].
            apply elem_of_app. by left. }
        destruct (IH _ _ Hpick H) as (Hle & Hall & Hfin).
        rewrite Hc1 in Hle. split; [done |]. split.
        - intros n0 p c_n Hin Hne Hb Hv Hcn.
          apply elem_of_cons in Hin as [-> | Hin]; [|by eapply Hall].
          specialize (Hhere _ _ Hne Hb Hv Hcn). lra.
        - by rewrite <- app_assoc in Hfin. }
      destruct (n =? near c)%nat eqn:Hnn.
      { apply Nat.eqb_eq in Hnn. subst n. apply Hkeep; try done.
        intros p c_n Hne Hb Hv Hcn.
        destruct Hc as [(Hc & _) | (_ & Hb' & _ & c_n' & Hcn' & ->)];
          [done |].
        rewrite Hb in Hb'. injection Hb' as <-.
        rewrite Hcn in Hcn'. injection Hcn' as <-. lra. }
      unfold bind at 1, get_roadmap.
      destruct (buildPath _ q (-1) false) as [p|] eqn:Hb.
      2:{ apply Hkeep; done. }
      unfold bind at 1, computeCost_k.
      destruct (computeCost _ n) as [c_near|e| |] eqn:Hcn; try done.
      case_Qltb (c_near + path_length p) (cost_q c).
      2:{ apply Hkeep; try done. intros p' c_n _ Hb' _ Hcn'.
          assert (p' = p) by congruence. assert (c_n = c_near) by congruence.
          subst. lra. }
      destruct (validate p) eqn:Hv.
      2:{ apply Hkeep; try done. intros p' c_n _ Hb' Hv'.
          assert (p' = p) by congruence. congruence. }
      intros H.
      assert (Hpick : picked (seen ++ [n])
                (mkChoice (c_near + path_length p) n p
                   (paths c ++ [(true, Some p)]))).
      { right. simpl. split; [apply elem_of_app; right; by constructor |].
        split; [done |]. split; [done |]. eauto. }
      destruct (IH _ _ Hpick H) as (Hle & Hall & Hfin). simpl in Hle.
      split; [lra |]. split.
      + intros n0 p' c_n Hin Hne Hb' Hv' Hcn'.
        apply elem_of_cons in Hin as [-> | Hin]; [|by eapply Hall].
        assert (p' = p) by congruence. assert (c_n = c_near) by congruence.
        subst. lra.
      + by rewrite <- app_assoc in Hfin. }
  destruct (Hgen nearNodes [] (mkChoice cost0 near0 path0 []))
    as (Hle & Hall & Hfin); [by left | done |].
  simpl in Hle. split; [done |]. split; [done |]. done.
Qed.

End ChooseParentFacts.

(** ** [extend] keeps the parent map a tree and costs never grow *)

Section ExtendTree.
Context `{PF : Platform} `{CO : !Collaborators} {PLen : PathLaws}.

(** [computeCost] on a node that is not a key returns zero, when it
    returns. *)
Lemma computeCost_not_key map n r :
  map !! n = None -> computeCost map n = Ret r -> r = 0.
Proof.
  unfold computeCost. intros ->. destruct (size map); simpl;
    destruct past_the_end_second; by intros [= <-].
Qed.

Lemma reaches_no_worse map map' qnew c :
  no_worse map map' -> reaches map qnew c -> reaches map' qnew c.
Proof.
  intros [Hnw _] (es & Hc & Hle). destruct (Hnw _ _ Hc) as (es' & Hc' & Hle').
  exists es'. split; [done | lra].
Qed.

Lemma setParent_k_map k n e s o s' :
  to e = n ->
  setParent_k k n (Some e) s = (o, s') ->
  (o = Ret tt /\ is_Some (at2 k (toRoot_ s) !! from e) /\
   at2 k (toRoot_ s') = <[n := Some e]> (at2 k (toRoot_ s))) \/
  ((forall a, o <> Ret a) /\ at2 k (toRoot_ s') = at2 k (toRoot_ s)).
Proof.
  intros <-. unfold setParent_k, setParent. rewrite Nat.eqb_refl. simpl.
  rewrite andb_false_r.
  destruct (at2 k (toRoot_ s) !! from e) eqn:Hf; intros [= <- <-]; simpl;
    rewrite at2_set2_same; [left | right]; eauto.
Qed.

Lemma addEdge_inv a b p s o s1 :
  roadmap_addEdge a b p s = (o, s1) ->
  o = Ret (Some (mkEdge a b p)) /\ toRoot_ s1 = toRoot_ s.
Proof. by intros [= <- <-]. Qed.

Lemma addNode_inv c s o s1 :
  roadmap_addNode c s = (o, s1) ->
  o = Ret (fst (addNode (roadmap s) c)) /\ toRoot_ s1 = toRoot_ s.
Proof.
  unfold roadmap_addNode. destruct (addNode _ _). by intros [= <- <-].
Qed.

Lemma assert_inv b s o s1 :
  assert_ b s = (o, s1) -> s1 = s /\ (o = Ret tt \/ o = AssertFailure).
Proof. unfold assert_. destruct (_ && _); intros [= <- <-]; eauto. Qed.

Lemma repointed_refl qnew map : repointed qnew map map.
Proof. intros n e' H. by left. Qed.

Lemma repointed_trans qnew m1 m2 m3 :
  repointed qnew m1 m2 -> repointed qnew m2 m3 -> repointed qnew m1 m3.
Proof.
  intros H12 H23 n e' H.
  destruct (H23 _ _ H) as [H2 | (Hne & [x Hx] & Hnew)].
  - by apply H12.
  - right. split; [done |]. split; [|done].
    destruct (H12 _ _ Hx) as [-> | (_ & ? & _)]; eauto.
Qed.

(** A key of a tree is still a key of a map that is no worse. *)
Lemma keys_kept map map' n :
  tree map -> no_worse map map' -> is_Some (map !! n) -> is_Some (map' !! n).
Proof.
  intros Ht [Hnw _] Hn. destruct (Ht _ Hn) as (es & Hes).
  destruct (Hnw _ _ Hes) as (es' & Hes' & _). by eapply chain_key.
Qed.

(** Lines 289-292: [qnew] is hung below [near]. *)
Lemma attach_tree k near0 qnew p s o s' :
  tree (at2 k (toRoot_ s)) ->
  at2 k (toRoot_ s) !! qnew = None ->
  attach k near0 qnew p s = (o, s') ->
  tree (at2 k (toRoot_ s')) /\
  no_worse (at2 k (toRoot_ s)) (at2 k (toRoot_ s')) /\
  (o = Ret tt ->
   is_Some (at2 k (toRoot_ s) !! near0) /\
   at2 k (toRoot_ s') =
     <[qnew := Some (mkEdge near0 qnew p)]> (at2 k (toRoot_ s)) /\
   forall es, chain (at2 k (toRoot_ s)) near0 es ->
     chain (at2 k (toRoot_ s')) qnew (mkEdge near0 qnew p :: es)) /\
  ((forall a, o <> Ret a) -> at2 k (toRoot_ s') = at2 k (toRoot_ s)).
Proof.
  intros Ht Hq H. unfold attach in H.
  apply bind_inv in H as [(e & s1 & H1 & H) | (o1 & H1 & Hne & _)].
  2:{ apply addEdge_inv in H1 as [-> _]. by edestruct Hne. }
  apply addEdge_inv in H1 as [[= ->] Hm1].
  apply bind_inv in H as [(e2 & s2 & H2 & H) | (o2 & H2 & Hne & _)].
  2:{ apply addEdge_inv in H2 as [-> _]. by edestruct Hne. }
  apply addEdge_inv in H2 as [_ Hm2]. rewrite Hm1 in Hm2.
  apply bind_inv in H as [([] & s3 & H3 & H) | (o3 & H3 & Hne & Ho)].
  2:{ apply assert_inv in H3 as [-> [-> | ->]]; [by edestruct Hne |].
      rewrite Hm2. split; [done |]. split; [apply no_worse_refl |].
      subst o. done. }
  apply assert_inv in H3 as [-> _].
  apply setParent_k_map in H as [(-> & Hk & ->) | (Hne & ->)]; [| |done];
    rewrite Hm2 in *.
  - destruct (add_leaf (at2 k (toRoot_ s)) qnew (mkEdge near0 qnew p))
      as (Ht' & Hnw & Hc); [done | done | done |].
    split; [done |]. split; [done |]. split.
    + intros _. split; [done |]. split; [done |].
      intros es Hes. by apply Hc.
    + intros Hne. by destruct (Hne tt).
  - split; [done |]. split; [apply no_worse_refl |]. split; [|done].
    intros ->. by edestruct Hne.
Qed.

(** One turn of the rewiring loop. *)
Lemma rewire_one_tree chk k near0 qnew c n_i vp s o s' :
  tree (at2 k (toRoot_ s)) ->
  reaches (at2 k (toRoot_ s)) qnew c ->
  rewire_one chk k near0 qnew c n_i vp s = (o, s') ->
  tree (at2 k (toRoot_ s')) /\
  no_worse (at2 k (toRoot_ s)) (at2 k (toRoot_ s')) /\
  repointed qnew (at2 k (toRoot_ s)) (at2 k (toRoot_ s')).
Proof.
  intros Ht (es_q & Hq & Hle) H.
  assert (Hsame : forall t, toRoot_ t = toRoot_ s ->
            tree (at2 k (toRoot_ t)) /\
            no_worse (at2 k (toRoot_ s)) (at2 k (toRoot_ t)) /\
            repointed qnew (at2 k (toRoot_ s)) (at2 k (toRoot_ t))).
  { intros t ->. split; [done |].
    split; [apply no_worse_refl | apply repointed_refl]. }
  destruct vp as [v [p|]]; simpl in H;
    [|injection H as _ <-; by apply Hsame].
  destruct (n_i =? near0)%nat; [injection H as _ <-; by apply Hsame |].
  unfold bind at 1, computeCost_k in H.
  destruct (computeCost (at2 k (toRoot_ s)) n_i) as [c_i|e| |] eqn:Hci;
    try (injection H as _ <-; by apply Hsame).
  revert H. case_Qltb (c + path_length p) c_i;
    [|intros [= _ <-]; by apply Hsame].
  destruct (if v then true else validate p);
    [|intros [= _ <-]; by apply Hsame].
  intros H.
  pose proof (sum_lengths_ge es_q) as Hq0.
  pose proof (path_length_nonneg p) as Hp0.
  destruct (computeCost_tree _ _ _ Ht Hci) as [(esy & Hy & ->) | Hnone].
  2:{ apply computeCost_not_key in Hci; [|done]. subst. lra. }
  destruct (rewire_entry (at2 k (toRoot_ s)) n_i
              (mkEdge qnew n_i (reverse p)) es_q esy) as (Ht' & Hnw);
    [done | done | done | |].
  { simpl. pose proof (reverse_length p). lra. }
  assert (Hrp : repointed qnew (at2 k (toRoot_ s))
                  (<[n_i := Some (mkEdge qnew n_i (reverse p))]>
                     (at2 k (toRoot_ s)))).
  { intros n e' Hn. destruct (decide (n = n_i)) as [-> | Hne].
    - rewrite lookup_insert_eq in Hn. injection Hn as <-. right.
      split.
      { intros ->. rewrite (chain_functional _ _ _ _ Hy Hq) in *. lra. }
      split; [by eapply chain_key | eauto].
    - rewrite lookup_insert_ne in Hn by done. by left. }
  apply bind_inv in H as [(e1 & s1 & H1 & H) | (o1 & H1 & Hne & _)].
  2:{ apply addEdge_inv in H1 as [-> _]. by edestruct Hne. }
  apply addEdge_inv in H1 as [_ Hm1].
  apply bind_inv in H as [(e2 & s2 & H2 & H) | (o2 & H2 & Hne & _)].
  2:{ apply addEdge_inv in H2 as [-> _]. by edestruct Hne. }
  apply addEdge_inv in H2 as [[= ->] Hm2]. rewrite Hm1 in Hm2.
  apply bind_inv in H as [([] & s3 & H3 & H) | (o3 & H3 & Hne & Ho)].
  2:{ destruct chk.
      - apply assert_inv in H3 as [-> _]. by apply Hsame.
      - injection H3 as _ <-. by apply Hsame. }
  assert (s3 = s2) as ->.
  { destruct chk; [by apply assert_inv in H3 as [-> _] | by injection H3]. }
  apply setParent_k_map in H as [(-> & Hk & ->) | (Hne & ->)]; [| |done];
    rewrite Hm2 in *; [done | by apply Hsame].
Qed.

(** The rewiring loop (lines 294-308). *)
Lemma rewire_tree chk k near0 qnew c l s o s' :
  tree (at2 k (toRoot_ s)) ->
  reaches (at2 k (toRoot_ s)) qnew c ->
  rewire chk k near0 qnew c l s = (o, s') ->
  tree (at2 k (toRoot_ s')) /\
  no_worse (at2 k (toRoot_ s)) (at2 k (toRoot_ s')) /\
  repointed qnew (at2 k (toRoot_ s)) (at2 k (toRoot_ s')).
Proof.
  revert s. induction l as [|[n vp] rest IH]; intros s Ht Hq; simpl.
  - intros [= _ <-]. split; [done |].
    split; [apply no_worse_refl | apply repointed_refl].
  - intros H.
    apply bind_inv in H as [([] & s1 & H1 & H2) | (o1 & H1 & _)].
    + destruct (rewire_one_tree _ _ _ _ _ _ _ _ _ _ Ht Hq H1)
        as (Ht1 & Hnw1 & Hrp1).
      destruct (IH s1 Ht1 (reaches_no_worse _ _ _ _ Hnw1 Hq) H2)
        as (Ht2 & Hnw2 & Hrp2).
      split; [done |].
      split; [by eapply no_worse_trans | by eapply repointed_trans].
    + by eapply rewire_one_tree.
Qed.

(** The candidate kept by the choose-parent loop costs what the loop says,
    or less. *)
Lemma chooseParent_bound k q nearNodes c s c' s' :
  tree (at2 k (toRoot_ s)) ->
  (forall es, chain (at2 k (toRoot_ s)) (near c) es ->
     path_length (near_path c) + sum_lengths 0 es <= cost_q c) ->
  chooseParent k q nearNodes c s = (Ret c', s') ->
  cost_q c' <= cost_q c /\
  forall es, chain (at2 k (toRoot_ s)) (near c') es ->
    path_length (near_path c') + sum_lengths 0 es <= cost_q c'.
Proof.
  intros Ht. revert c. induction nearNodes as [|n rest IH]; intros c Hc; simpl.
  - intros [= <- _]. split; [lra | done].
  - destruct (n =? near c)%nat; [(intros H; eapply IH in H; [exact H | exact Hc]) |].
    unfold bind at 1, get_roadmap.
    destruct (buildPath _ q (-1) false) as [p|]; [|(intros H; eapply IH in H; [exact H | exact Hc])].
    unfold bind at 1, computeCost_k.
    destruct (computeCost _ n) as [c_near|e| |] eqn:Hcn; try done.
    case_Qltb (c_near + path_length p) (cost_q c); [|(intros H; eapply IH in H; [exact H | exact Hc])].
    destruct (validate p); [|(intros H; eapply IH in H; [exact H | exact Hc])].
    intros H. apply IH in H as [Hle Hb]; simpl in *.
    + split; [lra | done].
    + intros es Hes.
      destruct (computeCost_tree _ _ _ Ht Hcn) as [(es' & Hes' & ->) | Hnone].
      * rewrite (chain_functional _ _ _ _ Hes Hes'). lra.
      * apply chain_key in Hes as [x Hx]. congruence.
Qed.

(** Lines 289-308 of [extend] and 377-397 of [improve]: [qnew] is hung
    below the parent kept, then the near nodes are re-pointed. *)
Lemma hang_and_rewire {A} (x : A) chk k qnew (ch : Choice) l s o s' :
  let map := at2 k (toRoot_ s) in
  let map' := at2 k (toRoot_ s') in
  tree map -> map !! qnew = None ->
  (forall es, chain map (near ch) es ->
     path_length (near_path ch) + sum_lengths 0 es <= cost_q ch) ->
  bind (attach k (near ch) qnew (near_path ch)) (fun _ =>
  bind (rewire chk k (near ch) qnew (cost_q ch) l) (fun _ => ret x)) s
    = (o, s') ->
  tree map' /\ no_worse map map' /\
  (forall n e', map' !! n = Some e' ->
     map !! n = Some e' \/ new_entry qnew map n e') /\
  (forall a, o = Ret a -> a = x /\ is_Some (map' !! qnew)).
Proof.
  intros map map' Ht Hfresh Hb H. subst map map'.
  apply bind_inv in H as [([] & s5 & H5 & H) | (o5 & H5 & Hne & Ho)].
  2:{ destruct (attach_tree _ _ _ _ _ _ _ Ht Hfresh H5)
        as (Ht5 & Hnw5 & _ & Hm5).
      rewrite (Hm5 Hne). split; [done |]. split; [apply no_worse_refl |].
      split; [intros n e' Hn; by left |].
      intros a ->. destruct o5 as [a'|?| |]; [by destruct (Hne a') | done ..]. }
  destruct (attach_tree _ _ _ _ _ _ _ Ht Hfresh H5)
    as (Ht5 & Hnw5 & Hc5 & _).
  destruct (Hc5 eq_refl) as (Hkey & Hm5 & Hc5').
  destruct (Ht _ Hkey) as (es_n & Hes_n).
  specialize (Hc5' _ Hes_n). specialize (Hb _ Hes_n).
  assert (Hreach : reaches (at2 k (toRoot_ s5)) qnew (cost_q ch)).
  { eexists. split; [done |]. rewrite sum_lengths_step. simpl. lra. }
  assert (Hfin : forall t,
            tree (at2 k (toRoot_ t)) ->
            no_worse (at2 k (toRoot_ s5)) (at2 k (toRoot_ t)) ->
            repointed qnew (at2 k (toRoot_ s5)) (at2 k (toRoot_ t)) ->
            tree (at2 k (toRoot_ t)) /\
            no_worse (at2 k (toRoot_ s)) (at2 k (toRoot_ t)) /\
            (forall n e', at2 k (toRoot_ t) !! n = Some e' ->
               at2 k (toRoot_ s) !! n = Some e' \/
               new_entry qnew (at2 k (toRoot_ s)) n e') /\
            is_Some (at2 k (toRoot_ t) !! qnew)).
  { intros t Ht6 Hnw6 Hrp6. split; [done |].
    split; [by eapply no_worse_trans |]. split.
    - intros n e' Hn.
      destruct (Hrp6 _ _ Hn) as [H5n | (Hne & Hk5 & e & -> & Hf & Hto)].
      + rewrite Hm5 in H5n. destruct (decide (n = qnew)) as [-> | Hne].
        * rewrite lookup_insert_eq in H5n. injection H5n as <-. right.
          eexists. split; [done |]. split; [done |]. left. done.
        * rewrite lookup_insert_ne in H5n by done. by left.
      + right. exists e. split; [done |]. split; [done |]. right.
        split; [done |]. split; [|done].
        rewrite Hm5, lookup_insert_ne in Hk5 by done. done.
    - eapply keys_kept; [exact Ht5 | exact Hnw6 |].
      rewrite Hm5, lookup_insert_eq. eauto. }
  apply bind_inv in H as [([] & s6 & H6 & H) | (o6 & H6 & Hne & Ho)].
  2:{ destruct (rewire_tree _ _ _ _ _ _ _ _ _ Ht5 Hreach H6)
        as (Ht6 & Hnw6 & Hrp6).
      destruct (Hfin _ Ht6 Hnw6 Hrp6) as (? & ? & ? & ?).
      split; [done |]. split; [done |]. split; [done |].
      intros a ->. destruct o6 as [a'|?| |]; [by destruct (Hne a') | done ..]. }
  destruct (rewire_tree _ _ _ _ _ _ _ _ _ Ht5 Hreach H6)
    as (Ht6 & Hnw6 & Hrp6).
  injection H as <- <-.
  destruct (Hfin _ Ht6 Hnw6 Hrp6) as (? & ? & ? & ?).
  split; [done |]. split; [done |]. split; [done |].
  by intros a [= <-].
Qed.

(** The first candidate of the choose-parent loop costs what the code
    says. *)
Lemma first_candidate_bound map near0 c_near (path0 : Path) :
  tree map -> computeCost map near0 = Ret c_near ->
  forall es, chain map near0 es ->
    path_length path0 + sum_lengths 0 es <= c_near + path_length path0.
Proof.
  intros Ht Hc0 es Hes.
  destruct (computeCost_tree _ _ _ Ht Hc0) as [(es' & Hes' & ->) | Hnone].
  - rewrite (chain_functional _ _ _ _ Hes Hes'). lra.
  - apply chain_key in Hes as [x Hx]. congruence.
Qed.

(** X14: [extend], however it stops, keeps the shape of the parent map
    [toRoot_[k]], when the map is a tree (the parent chain of every key
    reaches a null entry) and the node that [addNode] hands back is new
    (not a key of the map, not one of the near nodes).  The map is still a
    tree; a key that holds the null edge still holds it, so that no root is
    re-pointed; every key is still a key; and an entry that is not the one
    of before is the entry of the new node, an edge arriving on it from a
    key of before, or the entry of a key of before that now holds an edge
    arriving on it from the new node.  When [extend] returns [true] the new
    node is a key. *)
Theorem extend_keeps_tree target k q s o s' :
  let map := at2 k (toRoot_ s) in
  let map' := at2 k (toRoot_ s') in
  let cc := connectedComponent (roadmap s) target in
  let near0 := fst (nearestNode_cc (roadmap s) q cc) in
  let built :=
    buildPath (configuration (roadmap s) near0) q (extendMaxLength_ s) true in
  let radius :=
    ball_radius (gamma_ s) (extendMaxLength_ s)
      (length (nodes (roadmap s))) in
  tree map ->
  (forall p, built = Some p ->
     map !! fst (addNode (roadmap s) (path_end p)) = None /\
     fst (addNode (roadmap s) (path_end p))
       ∉ nodesWithinBall (roadmap s) (path_end p) cc radius) ->
  extend target k q s = (o, s') ->
  tree map' /\
  (forall n, map !! n = Some None -> map' !! n = Some None) /\
  (forall n, is_Some (map !! n) -> is_Some (map' !! n)) /\
  (forall n e', map' !! n = Some e' ->
     map !! n = Some e' \/
     exists p, built = Some p /\
       new_entry (fst (addNode (roadmap s) (path_end p))) map n e') /\
  (forall q', o = Ret (true, q') ->
     exists p, built = Some p /\ q' = path_end p /\
       is_Some (map' !! fst (addNode (roadmap s) q'))).
Proof.
  intros map map' cc near0 built radius Ht Hfresh H.
  subst map map' cc near0 built radius.
  assert (Hpack : forall qnew p,
            buildPath
              (configuration (roadmap s)
                 (fst (nearestNode_cc (roadmap s) q
                         (connectedComponent (roadmap s) target))))
              q (extendMaxLength_ s) true = Some p ->
            qnew = fst (addNode (roadmap s) (path_end p)) ->
            tree (at2 k (toRoot_ s')) ->
            no_worse (at2 k (toRoot_ s)) (at2 k (toRoot_ s')) ->
            (forall n e', at2 k (toRoot_ s') !! n = Some e' ->
               at2 k (toRoot_ s) !! n = Some e' \/
               new_entry qnew (at2 k (toRoot_ s)) n e') ->
            (forall q', o = Ret (true, q') ->
               q' = path_end p /\ is_Some (at2 k (toRoot_ s') !! qnew)) ->
            tree (at2 k (toRoot_ s')) /\
            (forall n, at2 k (toRoot_ s) !! n = Some None ->
               at2 k (toRoot_ s') !! n = Some None) /\
            (forall n, is_Some (at2 k (toRoot_ s) !! n) ->
               is_Some (at2 k (toRoot_ s') !! n)) /\
            (forall n e', at2 k (toRoot_ s') !! n = Some e' ->
               at2 k (toRoot_ s) !! n = Some e' \/
               exists p,
                 buildPath
                   (configuration (roadmap s)
                      (fst (nearestNode_cc (roadmap s) q
                              (connectedComponent (roadmap s) target))))
                   q (extendMaxLength_ s) true = Some p /\
                 new_entry (fst (addNode (roadmap s) (path_end p)))
                   (at2 k (toRoot_ s)) n e') /\
            (forall q', o = Ret (true, q') ->
               exists p,
                 buildPath
                   (configuration (roadmap s)
                      (fst (nearestNode_cc (roadmap s) q
                              (connectedComponent (roadmap s) target))))
                   q (extendMaxLength_ s) true = Some p /\
                 q' = path_end p /\
                 is_Some (at2 k (toRoot_ s')
                            !! fst (addNode (roadmap s) q')))).
  { intros qnew p Hp -> Ht' Hnw Hent Hret.
    split; [done |]. split; [apply Hnw |].
    split; [intros n Hn; exact (keys_kept _ _ _ Ht Hnw Hn) |].
    split.
    - intros n e' Hn. destruct (Hent _ _ Hn) as [? | ?]; [by left |].
      right. eauto.
    - intros q' Hq'. destruct (Hret _ Hq') as [-> ?]. eauto. }
  assert (Hsame : forall u : outcome (bool * Configuration_t),
            (forall q', u <> Ret (true, q')) ->
            forall t, toRoot_ t = toRoot_ s -> (u, t) = (o, s') ->
            tree (at2 k (toRoot_ s')) /\
            (forall n, at2 k (toRoot_ s) !! n = Some None ->
               at2 k (toRoot_ s') !! n = Some None) /\
            (forall n, is_Some (at2 k (toRoot_ s) !! n) ->
               is_Some (at2 k (toRoot_ s') !! n)) /\
            (forall n e', at2 k (toRoot_ s') !! n = Some e' ->
               at2 k (toRoot_ s) !! n = Some e' \/
               exists p,
                 buildPath
                   (configuration (roadmap s)
                      (fst (nearestNode_cc (roadmap s) q
                              (connectedComponent (roadmap s) target))))
                   q (extendMaxLength_ s) true = Some p /\
                 new_entry (fst (addNode (roadmap s) (path_end p)))
                   (at2 k (toRoot_ s)) n e') /\
            (forall q', o = Ret (true, q') ->
               exists p,
                 buildPath
                   (configuration (roadmap s)
                      (fst (nearestNode_cc (roadmap s) q
                              (connectedComponent (roadmap s) target))))
                   q (extendMaxLength_ s) true = Some p /\
                 q' = path_end p /\
                 is_Some (at2 k (toRoot_ s')
                            !! fst (addNode (roadmap s) q')))).
  { intros u Hu t Hm [= <- <-]. rewrite Hm. split; [done |].
    split; [done |]. split; [done |].
    split; [intros n e' Hn; by left |].
    intros q' ->. by destruct (Hu q'). }
  unfold extend in H.
  destruct (nearestNode_cc _ _ _) as [near0 dist] eqn:Hn. simpl in *.
  revert H.
  destruct (Qltb dist eps_dist);
    [intros H; eapply Hsame; [| |exact H]; done |].
  destruct (buildPath _ q (extendMaxLength_ s) true) as [path0|] eqn:Hp;
    [|intros H; eapply Hsame; [| |exact H]; done].
  destruct (Qltb (path_length path0) eps_length);
    [intros H; eapply Hsame; [| |exact H]; done |].
  intros H. destruct (Hfresh _ eq_refl) as [Hnew _]. clear Hfresh.
  apply bind_inv in H as [(nn & s1 & H1 & H) | (o1 & H1 & Hne & _)].
  2:{ apply nodesWithinBall_inv in H1 as (-> & _). by edestruct Hne. }
  apply nodesWithinBall_inv in H1 as (_ & Hr1 & Hm1 & _).
  apply bind_inv in H as [(c_near & s2 & H2 & H) | (o2 & H2 & Hne & Ho)].
  2:{ unfold computeCost_k in H2. injection H2 as <- <-.
      eapply Hsame; [| exact Hm1 | reflexivity].
      intros q' ->.
      destruct (computeCost _ near0) as [a|?| |];
        [by destruct (Hne a) | done ..]. }
  unfold computeCost_k in H2. injection H2 as Hc0 <-.
  apply bind_inv in H as [(ch & s3 & H3 & H) | (o3 & H3 & Hne & Ho)].
  2:{ apply chooseParent_state in H3 as ->.
      eapply Hsame; [| exact Hm1 | reflexivity].
      intros q' ->. destruct o3 as [a|?| |]; [by destruct (Hne a) | done ..]. }
  pose proof (chooseParent_state _ _ _ _ _ _ _ H3) as ->.
  clear Hsame. rewrite <- Hm1 in Ht, Hnew, Hpack |- *.
  apply chooseParent_bound in H3 as [Hle Hb]; [|done |]; simpl in *;
    [|by apply first_candidate_bound].
  apply bind_inv in H as [(qnew & s4 & H4 & H) | (o4 & H4 & Hne & Ho)].
  2:{ apply addNode_inv in H4 as [-> _]. by edestruct Hne. }
  apply addNode_inv in H4 as [[= Hq4] Hm4]. rewrite Hr1 in Hq4.
  rewrite <- Hq4 in *. rewrite <- Hm4 in *.
  destruct (hang_and_rewire _ _ _ _ _ _ _ _ _ Ht Hnew Hb H)
    as (Ht' & Hnw & Hent & Hret).
  apply (Hpack qnew path0); try done.
  intros q' ->. destruct (Hret _ eq_refl) as [[= ->] ?]. done.
Qed.

End ExtendTree.

(** ** [improve] keeps both parent maps trees *)

Section ImproveTree.
Context `{PF : Platform} `{CO : !Collaborators} {PLen : PathLaws}.

Lemma other_improve_pass k q qnew nearNodes path0 near0 :
  preserves (keeps_other k) (improve_pass k q qnew nearNodes path0 near0).
Proof.
  unfold improve_pass.
  apply preserves_bind;
    [apply keeps_other_trans | apply other_computeCost_k | intros ?].
  apply preserves_bind;
    [apply keeps_other_trans | apply other_chooseParent | intros ?].
  apply preserves_bind;
    [apply keeps_other_trans | apply other_attach | intros ?].
  apply preserves_bind;
    [apply keeps_other_trans | apply other_rewire | intros ?].
  apply preserves_ret, keeps_other_refl.
Qed.

(** One turn of the [for] of [improve] on the parent map of its slot. *)
Lemma improve_pass_tree k q qnew nearNodes path0 near0 s o s' :
  let map := at2 k (toRoot_ s) in
  let map' := at2 k (toRoot_ s') in
  tree map -> map !! qnew = None ->
  improve_pass k q qnew nearNodes path0 near0 s = (o, s') ->
  tree map' /\ no_worse map map' /\
  (forall n e', map' !! n = Some e' ->
     map !! n = Some e' \/ new_entry qnew map n e').
Proof.
  intros map map' Ht Hfresh H. subst map map'. unfold improve_pass in H.
  assert (Hsame : forall t, toRoot_ t = toRoot_ s ->
            tree (at2 k (toRoot_ t)) /\
            no_worse (at2 k (toRoot_ s)) (at2 k (toRoot_ t)) /\
            (forall n e', at2 k (toRoot_ t) !! n = Some e' ->
               at2 k (toRoot_ s) !! n = Some e' \/
               new_entry qnew (at2 k (toRoot_ s)) n e')).
  { intros t ->. split; [done |]. split; [apply no_worse_refl |].
    intros n e' Hn. by left. }
  apply bind_inv in H as [(c_near & s2 & H2 & H) | (o2 & H2 & _)].
  2:{ injection H2 as _ <-. by apply Hsame. }
  unfold computeCost_k in H2. injection H2 as Hc0 <-.
  apply bind_inv in H as [(ch & s3 & H3 & H) | (o3 & H3 & _)].
  2:{ apply chooseParent_state in H3 as ->. by apply Hsame. }
  pose proof (chooseParent_state _ _ _ _ _ _ _ H3) as ->.
  apply chooseParent_bound in H3 as [Hle Hb]; [|done |]; simpl in *;
    [|by apply first_candidate_bound].
  by destruct (hang_and_rewire _ _ _ _ _ _ _ _ _ Ht Hfresh Hb H)
    as (? & ? & ? & _).
Qed.

(** X19: [improve], however it stops, keeps the shape of each of the two
    parent maps, when both are trees (the parent chain of every key reaches
    a null entry) and the node that [addNode] hands back for the sample is
    new (a key of neither map, not one of the near nodes).  Each map is
    still a tree; a key that holds the null edge still holds it, so that no
    root is re-pointed; every key is still a key; and an entry that is not
    the one of before is the entry of the new node, an edge arriving on it
    from a key of before, or the entry of a key of before that now holds an
    edge arriving on it from the new node. *)
Theorem improve_keeps_trees q s o s' :
  let qnew := fst (addNode (roadmap s) q) in
  let radius :=
    ball_radius (gamma_ s) (extendMaxLength_ s)
      (length (nodes (roadmap s))) in
  (forall k, tree (at2 k (toRoot_ s))) ->
  (forall k, at2 k (toRoot_ s) !! qnew = None) ->
  qnew ∉ nodesWithinBall (roadmap s) q
           (connectedComponent (roadmap s) (fst (roots_ s))) radius ->
  improve q s = (o, s') ->
  forall k,
    let map := at2 k (toRoot_ s) in
    let map' := at2 k (toRoot_ s') in
    tree map' /\
    (forall n, map !! n = Some None -> map' !! n = Some None) /\
    (forall n, is_Some (map !! n) -> is_Some (map' !! n)) /\
    (forall n e', map' !! n = Some e' ->
       map !! n = Some e' \/ new_entry qnew map n e').
Proof.
  intros qnew radius Ht Hfresh _ H. subst qnew radius.
  assert (Hpack : forall m m' qn,
            tree m -> tree m' -> no_worse m m' ->
            (forall n e', m' !! n = Some e' ->
               m !! n = Some e' \/ new_entry qn m n e') ->
            tree m' /\
            (forall n, m !! n = Some None -> m' !! n = Some None) /\
            (forall n, is_Some (m !! n) -> is_Some (m' !! n)) /\
            (forall n e', m' !! n = Some e' ->
               m !! n = Some e' \/ new_entry qn m n e')).
  { intros m m' qn Hm Hm' Hnw Hent. split; [done |]. split; [apply Hnw |].
    split; [intros n Hn; exact (keys_kept _ _ _ Hm Hnw Hn) | done]. }
  assert (Hsame : forall t, toRoot_ t = toRoot_ s ->
            forall k,
              tree (at2 k (toRoot_ t)) /\
              (forall n, at2 k (toRoot_ s) !! n = Some None ->
                 at2 k (toRoot_ t) !! n = Some None) /\
              (forall n, is_Some (at2 k (toRoot_ s) !! n) ->
                 is_Some (at2 k (toRoot_ t) !! n)) /\
              (forall n e', at2 k (toRoot_ t) !! n = Some e' ->
                 at2 k (toRoot_ s) !! n = Some e' \/
                 new_entry (fst (addNode (roadmap s) q))
                   (at2 k (toRoot_ s)) n e')).
  { intros t -> k. split; [done |]. split; [done |]. split; [done |].
    intros n e' Hn. by left. }
  unfold improve in H. destruct (nearestNode _ _) as [near0 dist].
  revert H.
  destruct (Qltb dist eps_dist); [intros [= _ <-]; by apply Hsame |].
  destruct (buildPath _ q (extendMaxLength_ s) true) as [path0|];
    [|intros [= _ <-]; by apply Hsame].
  destruct (Qltb (path_length path0) eps_length);
    [intros [= _ <-]; by apply Hsame |].
  intros H.
  apply bind_inv in H as [(nn & s1 & H1 & H) | (o1 & H1 & _)].
  2:{ apply nodesWithinBall_inv in H1 as (_ & _ & Hm1 & _). by apply Hsame. }
  apply nodesWithinBall_inv in H1 as (_ & Hr1 & Hm1 & _).
  apply bind_inv in H as [(qnew & s2 & H2 & H) | (o2 & H2 & _)].
  2:{ apply addNode_inv in H2 as [_ Hm2]. apply Hsame. congruence. }
  apply addNode_inv in H2 as [[= Hq2] Hm2].
  rewrite Hr1 in Hq2. rewrite <- Hq2 in *.
  assert (Hm : toRoot_ s2 = toRoot_ s) by congruence. clear Hsame.
  rewrite <- Hm in Ht, Hfresh |- *. clear Hm Hm1 Hm2.
  assert (Hpass0 : forall o3 s3 near1,
            improve_pass 0 q qnew nn path0 near1 s2 = (o3, s3) ->
            (tree (at2 0 (toRoot_ s3)) /\
             no_worse (at2 0 (toRoot_ s2)) (at2 0 (toRoot_ s3)) /\
             (forall n e', at2 0 (toRoot_ s3) !! n = Some e' ->
                at2 0 (toRoot_ s2) !! n = Some e' \/
                new_entry qnew (at2 0 (toRoot_ s2)) n e')) /\
            at2 1 (toRoot_ s3) = at2 1 (toRoot_ s2)).
  { intros o3 s3 near1 H3. split.
    - exact (improve_pass_tree _ _ _ _ _ _ _ _ _ (Ht 0%nat) (Hfresh 0%nat)
               H3).
    - by apply other_improve_pass in H3. }
  assert (Hpass1 : forall o3 s3 s4 near1,
            at2 1 (toRoot_ s3) = at2 1 (toRoot_ s2) ->
            improve_pass 1 q qnew nn path0 near1 s3 = (o3, s4) ->
            (tree (at2 1 (toRoot_ s4)) /\
             no_worse (at2 1 (toRoot_ s2)) (at2 1 (toRoot_ s4)) /\
             (forall n e', at2 1 (toRoot_ s4) !! n = Some e' ->
                at2 1 (toRoot_ s2) !! n = Some e' \/
                new_entry qnew (at2 1 (toRoot_ s2)) n e')) /\
            at2 0 (toRoot_ s4) = at2 0 (toRoot_ s3)).
  { intros o3 s3 s4 near1 Hm3 H3. split.
    - pose proof (improve_pass_tree 1 q qnew nn path0 near1 s3 o3 s4) as Hp.
      cbv zeta in Hp. rewrite Hm3 in Hp.
      apply Hp; [apply (Ht 1%nat) | apply (Hfresh 1%nat) | done].
    - by apply other_improve_pass in H3. }
  assert (Hk : forall t,
            (tree (at2 0 (toRoot_ t)) /\
             no_worse (at2 0 (toRoot_ s2)) (at2 0 (toRoot_ t)) /\
             (forall n e', at2 0 (toRoot_ t) !! n = Some e' ->
                at2 0 (toRoot_ s2) !! n = Some e' \/
                new_entry qnew (at2 0 (toRoot_ s2)) n e')) ->
            (tree (at2 1 (toRoot_ t)) /\
             no_worse (at2 1 (toRoot_ s2)) (at2 1 (toRoot_ t)) /\
             (forall n e', at2 1 (toRoot_ t) !! n = Some e' ->
                at2 1 (toRoot_ s2) !! n = Some e' \/
                new_entry qnew (at2 1 (toRoot_ s2)) n e')) ->
            forall k,
              tree (at2 k (toRoot_ t)) /\
              (forall n, at2 k (toRoot_ s2) !! n = Some None ->
                 at2 k (toRoot_ t) !! n = Some None) /\
              (forall n, is_Some (at2 k (toRoot_ s2) !! n) ->
                 is_Some (at2 k (toRoot_ t) !! n)) /\
              (forall n e', at2 k (toRoot_ t) !! n = Some e' ->
                 at2 k (toRoot_ s2) !! n = Some e' \/
                 new_entry qnew (at2 k (toRoot_ s2)) n e')).
  { intros t (? & ? & ?) (? & ? & ?) [|k].
    - apply Hpack; [apply (Ht 0%nat) | done ..].
    - apply (Hpack (at2 1 (toRoot_ s2)) (at2 1 (toRoot_ t)));
        [apply (Ht 1%nat) | done ..]. }
  assert (Hkeep : forall j t,
            at2 j (toRoot_ t) = at2 j (toRoot_ s2) ->
            tree (at2 j (toRoot_ t)) /\
            no_worse (at2 j (toRoot_ s2)) (at2 j (toRoot_ t)) /\
            (forall n e', at2 j (toRoot_ t) !! n = Some e' ->
               at2 j (toRoot_ s2) !! n = Some e' \/
               new_entry qnew (at2 j (toRoot_ s2)) n e')).
  { intros j t ->. split; [apply Ht |]. split; [apply no_worse_refl |].
    intros n e' Hn. by left. }
  apply bind_inv in H as [(near1 & s3 & H3 & H) | (o3 & H3 & _)].
  2:{ destruct (Hpass0 _ _ _ H3) as (H0 & Hm3).
      apply Hk; [done | by apply Hkeep]. }
  destruct (Hpass0 _ _ _ H3) as (H0 & Hm3).
  apply bind_inv in H as [(near2 & s4 & H4 & H) | (o4 & H4 & _)].
  2:{ destruct (Hpass1 _ _ _ _ Hm3 H4) as (H1 & Hm4).
      apply Hk; [by rewrite Hm4 | done]. }
  destruct (Hpass1 _ _ _ _ Hm3 H4) as (H1 & Hm4).
  injection H as _ <-. apply Hk; [by rewrite Hm4 | done].
Qed.

End ImproveTree.

(** ** Edges enter the roadmap in pairs *)

Section EdgePairs.
Context `{PF : Platform} `{CO : !Collaborators}.

Lemma pairs_refl s : adds_edge_pairs s s.
Proof. constructor. Qed.

Lemma pairs_trans s1 s2 s3 :
  adds_edge_pairs s1 s2 -> adds_edge_pairs s2 s3 -> adds_edge_pairs s1 s3.
Proof.
  unfold adds_edge_pairs. intros H1 H2.
  induction H2 as [|r' a b p _ IH]; [done | by constructor].
Qed.

Lemma pairs_same_roadmap s s' : roadmap s' = roadmap s -> adds_edge_pairs s s'.
Proof. unfold adds_edge_pairs. intros ->. constructor. Qed.

(** An edge and its reverse, then the rest. *)
Lemma pairs_addEdge_twice {A} a b p (f : EdgePtr_t -> EdgePtr_t -> M A) :
  (forall e1 e2, preserves adds_edge_pairs (f e1 e2)) ->
  preserves adds_edge_pairs
    (bind (roadmap_addEdge a b p) (fun e1 =>
     bind (roadmap_addEdge b a (reverse p)) (fun e2 => f e1 e2))).
Proof.
  intros Hf s o s' H. unfold bind at 1 2 in H. simpl in H.
  apply Hf in H. eapply pairs_trans; [|exact H].
  unfold adds_edge_pairs. simpl. apply pairs_more, pairs_none.
Qed.

Lemma pairs_setParent_k k n e : preserves adds_edge_pairs (setParent_k k n e).
Proof.
  intros s o s' H. unfold setParent_k in H.
  destruct (setParent _ n e). injection H as _ <-.
  by apply pairs_same_roadmap.
Qed.

Lemma pairs_assert (b : BiRrtStar -> bool) :
  preserves adds_edge_pairs (fun s => assert_ (b s) s).
Proof.
  intros s o s' H. apply assert_inv in H as [-> _]. apply pairs_refl.
Qed.

Lemma pairs_attach k near0 qnew p :
  preserves adds_edge_pairs (attach k near0 qnew p).
Proof.
  unfold attach.
  apply (pairs_addEdge_twice near0 qnew p (fun e1 _ =>
    bind (fun s =>
            assert_ (bool_decide (is_Some (at2 k (toRoot_ s) !! near0))) s)
      (fun _ => setParent_k k qnew e1))).
  intros e1 _.
  apply preserves_bind; [apply pairs_trans | apply pairs_assert | intros _].
  apply pairs_setParent_k.
Qed.

Lemma pairs_rewire_one chk k near0 qnew c n vp :
  preserves adds_edge_pairs (rewire_one chk k near0 qnew c n vp).
Proof.
  destruct vp as [v [p|]]; simpl; [|apply preserves_ret, pairs_refl].
  destruct (n =? near0)%nat; [apply preserves_ret, pairs_refl |].
  apply preserves_bind; [apply pairs_trans | | intros c_i].
  { intros s o s' [= _ <-]. apply pairs_refl. }
  destruct (Qltb _ _); [|apply preserves_ret, pairs_refl].
  destruct (if v then true else validate p);
    [|apply preserves_ret, pairs_refl].
  apply (pairs_addEdge_twice n qnew p (fun _ e2 =>
    bind (if chk
          then fun s =>
            assert_ (bool_decide (is_Some (at2 k (toRoot_ s) !! qnew))) s
          else ret tt)
      (fun _ => setParent_k k n e2))).
  intros _ e2.
  apply preserves_bind; [apply pairs_trans | | intros _].
  { destruct chk; [apply pairs_assert | apply preserves_ret, pairs_refl]. }
  apply pairs_setParent_k.
Qed.

Lemma pairs_rewire chk k near0 qnew c l :
  preserves adds_edge_pairs (rewire chk k near0 qnew c l).
Proof.
  induction l as [|[n vp] rest IH]; simpl; [apply preserves_ret, pairs_refl |].
  apply preserves_bind;
    [apply pairs_trans | apply pairs_rewire_one | intros _; apply IH].
Qed.

Lemma pairs_chooseParent k q nearNodes c :
  preserves adds_edge_pairs (chooseParent k q nearNodes c).
Proof.
  intros s o s' H. apply chooseParent_state in H as ->. apply pairs_refl.
Qed.

Lemma pairs_improve_pass k q qnew nearNodes path0 near0 :
  preserves adds_edge_pairs (improve_pass k q qnew nearNodes path0 near0).
Proof.
  unfold improve_pass.
  apply preserves_bind; [apply pairs_trans | | intros ?].
  { intros s o s' [= _ <-]. apply pairs_refl. }
  apply preserves_bind; [apply pairs_trans | apply pairs_chooseParent | intros ?].
  apply preserves_bind; [apply pairs_trans | apply pairs_attach | intros ?].
  apply preserves_bind; [apply pairs_trans | apply pairs_rewire | intros ?].
  apply preserves_ret, pairs_refl.
Qed.

(** X17: [extend] and [improve], however they stop, leave the roadmap as it was,
    or as [addNode] made it and then with edges added only: every edge that
    goes in is followed by the edge between the same two nodes in the other
    direction, carrying the reversed path.  No edge goes in alone and
    nothing is taken out. *)
Theorem edges_added_in_pairs :
  (forall target k q s o s',
     extend target k q s = (o, s') ->
     roadmap s' = roadmap s \/
     exists c, edge_pairs_added (snd (addNode (roadmap s) c)) (roadmap s')) /\
  (forall q s o s',
     improve q s = (o, s') ->
     roadmap s' = roadmap s \/
     edge_pairs_added (snd (addNode (roadmap s) q)) (roadmap s')).
Proof.
  split.
  - intros target k q s o s' H. unfold extend in H.
    destruct (nearestNode_cc _ _ _) as [near0 dist]. revert H.
    destruct (Qltb dist eps_dist); [intros [= _ <-]; by left |].
    destruct (buildPath _ q (extendMaxLength_ s) true) as [path0|];
      [|intros [= _ <-]; by left].
    destruct (Qltb (path_length path0) eps_length);
      [intros [= _ <-]; by left |].
    intros H.
    apply bind_inv in H as [(nn & s1 & H1 & H) | (o1 & H1 & _)].
    2:{ apply nodesWithinBall_inv in H1 as (_ & ? & _). by left. }
    apply nodesWithinBall_inv in H1 as (_ & Hr1 & _).
    apply bind_inv in H as [(c_near & s2 & H2 & H) | (o2 & H2 & _)].
    2:{ injection H2 as _ <-. by left. }
    injection H2 as _ <-.
    apply bind_inv in H as [(ch & s3 & H3 & H) | (o3 & H3 & _)].
    2:{ apply chooseParent_state in H3 as ->. by left. }
    apply chooseParent_state in H3 as ->.
    right. exists (path_end path0). rewrite <- Hr1.
    unfold bind at 1, roadmap_addNode in H.
    destruct (addNode (roadmap s1) (path_end path0)) as [qnew r]. simpl.
    change (adds_edge_pairs
      (mkBiRrtStar r (gamma_ s1) (extendMaxLength_ s1) (roots_ s1)
         (toRoot_ s1) (ball_queries s1)) s').
    revert H. generalize (mkBiRrtStar r (gamma_ s1) (extendMaxLength_ s1)
      (roots_ s1) (toRoot_ s1) (ball_queries s1)), o, s'.
    apply preserves_bind; [apply pairs_trans | apply pairs_attach | intros ?].
    apply preserves_bind; [apply pairs_trans | apply pairs_rewire | intros ?].
    apply preserves_ret, pairs_refl.
  - intros q s o s' H. unfold improve in H.
    destruct (nearestNode _ _) as [near0 dist]. revert H.
    destruct (Qltb dist eps_dist); [intros [= _ <-]; by left |].
    destruct (buildPath _ q (extendMaxLength_ s) true) as [path0|];
      [|intros [= _ <-]; by left].
    destruct (Qltb (path_length path0) eps_length);
      [intros [= _ <-]; by left |].
    intros H.
    apply bind_inv in H as [(nn & s1 & H1 & H) | (o1 & H1 & _)].
    2:{ apply nodesWithinBall_inv in H1 as (_ & ? & _). by left. }
    apply nodesWithinBall_inv in H1 as (_ & Hr1 & _).
    right. rewrite <- Hr1.
    unfold bind at 1, roadmap_addNode in H.
    destruct (addNode (roadmap s1) q) as [qnew r]. simpl.
    change (adds_edge_pairs
      (mkBiRrtStar r (gamma_ s1) (extendMaxLength_ s1) (roots_ s1)
         (toRoot_ s1) (ball_queries s1)) s').
    revert H. generalize (mkBiRrtStar r (gamma_ s1) (extendMaxLength_ s1)
      (roots_ s1) (toRoot_ s1) (ball_queries s1)), o, s'.
    apply preserves_bind;
      [apply pairs_trans | apply pairs_improve_pass | intros ?].
    apply preserves_bind;
      [apply pairs_trans | apply pairs_improve_pass | intros ?].
    apply preserves_ret, pairs_refl.
Qed.

End EdgePairs.

(** ** [setParent] followed by [computeCost] *)

Section SetParentThenCost.
Context `{PF : Platform}.


End SetParentThenCost.

(** * The test bench: witnesses and concrete runs *)

(** A closed equation checked by evaluation of its two sides. *)
Ltac by_evaluation :=
  lazymatch goal with
  | |- ?a = ?b => vm_cast_no_check (@eq_refl _ b)
  end.

(** The amended C8 on the test bench.  The edge [0 -> 1] is handed to
    [setParent] for node [1] while [0] is not a key: the logic error.  The
    edge [0 -> 2] is handed to [setParent] for node [1], [0] being a key and
    assertions on: the call stops on the assertion. *)
Lemma setParent_spec_witness :
  let e := @mkEdge Toy.paths 0 1 (Toy.mkSegment 0 1) in
  let e' := @mkEdge Toy.paths 0 2 (Toy.mkSegment 0 2) in
  let m : gmap nat (option (@Edge Toy.paths)) := {[ 0%nat := None ]} in
  (@setParent _ (Toy.platform false None) ∅ 1%nat (Some e) =
     (Throw (logic_error "could not find node from of edge in parent map."),
      ∅) /\
   exists ed, Some e = Some ed /\
     (∅ : gmap nat (option (@Edge Toy.paths))) !! @from Toy.paths ed = None /\
     (@to Toy.paths ed = 1%nat \/ @NDEBUG _ (Toy.platform false None) = true)) /\
  (@setParent _ (Toy.platform false None) m 1%nat (Some e') =
     (AssertFailure, m) /\
   exists ed, Some e' = Some ed /\ @to Toy.paths ed <> 1%nat /\
     @NDEBUG _ (Toy.platform false None) = false).
Proof.
  intros e e' m.
  assert (H : @setParent _ (Toy.platform false None) ∅ 1%nat (Some e) =
              (Throw (logic_error
                 "could not find node from of edge in parent map."), ∅))
    by by_evaluation.
  assert (H' : @setParent _ (Toy.platform false None) m 1%nat (Some e') =
               (AssertFailure, m)) by by_evaluation.
  split.
  - split; [exact H |].
    exact (proj1 (proj1 (setParent_spec _ _ _ _ _ H)) eq_refl).
  - split; [exact H' |].
    exact (proj1 (proj1 (proj2 (proj2 (proj2 (proj2
             (setParent_spec _ _ _ _ _ H')))))) eq_refl).
Defined.

(** C8, as stated, at a concrete input: the edge [0 -> 2] is handed to
    [setParent] for node [1], [0] being a key.  With assertions on, the call
    stops on the assertion; with assertions compiled out it returns and
    writes the entry.  No logic error is thrown in either build. *)
Lemma setParent_to_mismatch_not_reported :
  let e := @mkEdge Toy.paths 0 2 (Toy.mkSegment 0 2) in
  let m : gmap nat (option (@Edge Toy.paths)) := {[ 0%nat := None ]} in
  @to Toy.paths e <> 1%nat /\
  @setParent _ (Toy.platform false None) m 1%nat (Some e)
    = (AssertFailure, m) /\
  @setParent _ (Toy.platform true None) m 1%nat (Some e)
    = (Ret tt, <[1%nat := Some e]> m) /\
  ~ (forall ndebug,
       fst (@setParent _ (Toy.platform ndebug None) m 1%nat (Some e)) =
       Throw (logic_error "could not find node from of edge in parent map.")).
Proof.
  intros e m. split; [simpl; lia |].
  assert (Hon : @setParent _ (Toy.platform false None) m 1%nat (Some e)
                = (AssertFailure, m)) by by_evaluation.
  split; [exact Hon |]. split; [by_evaluation |].
  intros H. specialize (H false). rewrite Hon in H. discriminate.
Qed.

(** C4 at a concrete input: the cost of a node that is not a key of the
    map, when the read through [map.end()] yields a null pointer.  The call
    returns [0]; no error is raised. *)
Theorem computeCost_orphan_not_reported :
  @computeCost _ (Toy.platform false None) ∅ 7%nat = Ret 0.
Proof. by_evaluation. Qed.

(** The same on a chain of one edge whose source is not a key: the length of
    the edge is returned as if the chain had reached a root. *)
Lemma computeCost_broken_chain_not_reported :
  let e := @mkEdge Toy.paths 3 1 (Toy.mkSegment 5 10) in
  @computeCost _ (Toy.platform false None) {[ 1%nat := Some e ]} 1%nat
    = Ret (0 + 5).
Proof. intros e. by_evaluation. Qed.

(** The amended C5 on the test bench: from the planner on [two_nodes], the
    sample [1/2] makes [extend] add a node without joining the trees;
    [connect] then joins them and the slots are swapped. *)
Lemma oneStep_growth_swap_witness :
  let s := Toy.growth_planner in
  let s' := snd (@oneStep _ Toy.bench Toy.growth_collaborators 10 (1 # 2) s) in
  roots_ s' = (1%nat, 0%nat) /\
  exists b q' s1,
    @extend _ Toy.bench Toy.growth_collaborators (fst (roots_ s)) 0 (1 # 2) s
      = (Ret (b, q'), s1).
Proof.
  intros s s'. split; [by_evaluation |].
  assert (H0 : @connectedComponents_size _ Toy.growth_collaborators
                 (roadmap s) = 2%nat) by by_evaluation.
  assert (Hf : fst (@oneStep _ Toy.bench Toy.growth_collaborators 10 (1 # 2) s)
               = Ret tt) by by_evaluation.
  assert (H1 : @oneStep _ Toy.bench Toy.growth_collaborators 10 (1 # 2) s
               = (Ret tt, s')).
  { rewrite <- Hf. apply surjective_pairing. }
  destruct (@oneStep_growth_swap _ Toy.bench Toy.growth_collaborators
              10%nat (1 # 2) s s' H0 H1) as (b & q' & s1 & He & _).
  exists b, q', s1. exact He.
Defined.

(** C5, as stated, at a concrete input: the planner on [two_nodes] is in
    the growth phase, the sample is the goal configuration [1]; [extend]
    reaches the goal node itself, the two trees are joined, and [oneStep]
    returns with the slots unswapped. *)
Lemma oneStep_growth_no_swap :
  let s := Toy.growth_planner in
  let r := @oneStep _ Toy.bench Toy.growth_collaborators 10 1 s in
  @connectedComponents_size _ Toy.growth_collaborators (roadmap s) = 2%nat /\
  fst r = Ret tt /\
  roots_ (snd r) = roots_ s /\
  roots_ (snd r) <> swap2 (roots_ s) /\
  map_to_list (fst (toRoot_ (snd r))) =
    [(1%nat, Some (@mkEdge Toy.paths 0 1 (Toy.mkSegment 0 1))); (0%nat, None)].
Proof.
  intros s r.
  assert (Hr : roots_ (snd r) = (0%nat, 1%nat)) by by_evaluation.
  assert (Hs : roots_ s = (0%nat, 1%nat)) by by_evaluation.
  split; [by_evaluation |]. split; [by_evaluation |].
  split; [by rewrite Hr, Hs |].
  split; [rewrite Hr, Hs; discriminate |].
  by_evaluation.
Qed.

(** ** [improve] on the test bench *)

(** C2 at a concrete input: the planner on [four_nodes], sample [22/5].
    The nearest node is node 2 (at [4]); the first turn of the [for] picks
    node 3 (at [5]) as parent for [toRoot_[0]].  The second turn starts from
    node 3 with the path built from node 2, finds nothing better, and stores
    under [toRoot_[1]] an edge that leaves node 3 and carries the path that
    starts at the configuration of node 2. *)
Theorem improve_second_pass_keeps_first_parent :
  let s := Toy.refine_planner in
  let r := @oneStep _ Toy.bench Toy.refine_collaborators 100 (22 # 5) s in
  fst r = Ret tt /\
  @nearestNode _ Toy.refine_collaborators (roadmap s) (22 # 5)
    = (2%nat, 2 # 5) /\
  @configuration _ Toy.refine_collaborators (roadmap s) 2%nat = 4 /\
  @configuration _ Toy.refine_collaborators (roadmap s) 3%nat = 5 /\
  fst (toRoot_ (snd r)) !! 4%nat =
    Some (Some (@mkEdge Toy.paths 3 4 (Toy.mkSegment 5 (22 # 5)))) /\
  snd (toRoot_ (snd r)) !! 4%nat =
    Some (Some (@mkEdge Toy.paths 3 4 (Toy.mkSegment 4 (22 # 5)))).
Proof. intros s r. repeat split; by_evaluation. Qed.

(** ** [computeParentMap] on the test bench *)

(** C1 at a concrete input: on [four_nodes], from node 0, the elements
    leave the queue with costs 0, 5, 10, 15, 10, 6, 7: the greatest queued
    cost comes out first.  The parent map returned is nonetheless the
    shortest-path tree. *)
Theorem computeParentMap_pops_greatest_first :
  let out := @outEdges _ Toy.refine_collaborators Toy.four_nodes in
  (snd <$> @computeParentMap_run _ Toy.bench 100 out 0%nat)
    = Some [0; 5; 10; 15; 10; 6; 7] /\
  (map_to_list <$> @computeParentMap _ Toy.bench 100 out 0%nat)
    = Some
        [(2%nat, Some (@mkEdge Toy.paths 3 2 (Toy.mkSegment 5 4)));
         (3%nat, Some (@mkEdge Toy.paths 0 3 (Toy.mkSegment 0 5)));
         (1%nat, Some (@mkEdge Toy.paths 3 1 (Toy.mkSegment 5 10)));
         (0%nat, None)].
Proof. intros out. split; by_evaluation. Qed.

(** C9 on the test bench: the sample is the configuration of the start
    node, at distance [0] from it. *)
Lemma extend_guards_witness :
  @extend _ Toy.bench Toy.growth_collaborators 0%nat 0%nat 0
    Toy.growth_planner
  = (Ret (false, 0), Toy.growth_planner).
Proof.
  apply (proj1 (@extend_guards _ Toy.bench Toy.growth_collaborators
                  0%nat 0%nat 0 Toy.growth_planner)).
  left. unfold Qlt, Z.lt. by_evaluation.
Defined.

(** A comparison of two closed rationals that does not hold. *)
Ltac not_less :=
  let H := fresh in
  intros H; unfold Qlt, Z.lt in H;
  lazymatch type of H with
  | ?a = Lt =>
      let E := fresh in
      first [ assert (E : a = Gt) by by_evaluation
            | assert (E : a = Eq) by by_evaluation ];
      rewrite E in H; discriminate H
  end.

(** C6 on the test bench.  [extend] towards [1/2] from the start node of
    [two_nodes], two nodes in the roadmap: one query, centred on [1/2].
    [improve] on [detour] with the sample [2], three nodes in the roadmap:
    one query, centred on [2]. *)
Lemma ball_radius_queries_witness :
  let s := Toy.growth_planner in
  let r := @extend _ Toy.bench Toy.growth_collaborators 0%nat 0%nat (1 # 2) s in
  let t := Toy.detour_planner in
  let u := @improve _ Toy.bench Toy.refine_collaborators (2 # 1) t in
  ball_queries (snd r) =
    (1 # 2, @connectedComponent _ Toy.growth_collaborators (roadmap s) 0%nat,
     std_min
       (gamma_ s *
        @std_pow _ Toy.growth_collaborators
          (@std_log _ Toy.growth_collaborators
             (inject_Z (Z.of_nat (length (nodes (roadmap s))))) /
           inject_Z (Z.of_nat (length (nodes (roadmap s)))))
          (1 / inject_Z (Z.of_nat (@numberDof _ Toy.growth_collaborators))))
       (extendMaxLength_ s)) :: ball_queries s /\
  ball_queries (snd u) =
    (2 # 1,
     @connectedComponent _ Toy.refine_collaborators (roadmap t)
       (fst (roots_ t)),
     std_min
       (gamma_ t *
        @std_pow _ Toy.refine_collaborators
          (@std_log _ Toy.refine_collaborators
             (inject_Z (Z.of_nat (length (nodes (roadmap t))))) /
           inject_Z (Z.of_nat (length (nodes (roadmap t)))))
          (1 / inject_Z (Z.of_nat (@numberDof _ Toy.refine_collaborators))))
       (extendMaxLength_ t)) :: ball_queries t.
Proof.
  intros s r t u. split.
  - apply (proj2 (proj1 (@ball_radius_queries _ Toy.bench
                           Toy.growth_collaborators)
                    0%nat 0%nat (1 # 2) s (fst r) (snd r)
                    (surjective_pairing _))
             (Toy.mkSegment 0 (1 # 2))).
    + not_less.
    + by_evaluation.
    + not_less.
  - apply (proj2 (proj2 (@ball_radius_queries _ Toy.bench
                           Toy.refine_collaborators)
                    (2 # 1) t (fst u) (snd u) (surjective_pairing _))
             (Toy.mkSegment 3 (2 # 1))).
    + not_less.
    + by_evaluation.
    + not_less.
Defined.

Lemma toy_platform_laws ndebug garbage :
  @PlatformLaws Toy.paths (Toy.platform ndebug garbage).
Proof.
  split; simpl.
  - apply pop_greatest_None.
  - apply pop_greatest_perm.
  - apply pop_greatest_top.
Qed.

(** ** The test bench satisfies the roadmap vocabulary *)

Lemma toy_lengths_nonneg (p : @Path Toy.paths) : 0 <= @path_length Toy.paths p.
Proof. apply Qabs_nonneg. Qed.

Lemma four_nodes_wf : @roadmap_wf _ Toy.refine_collaborators Toy.four_nodes.
Proof.
  split.
  - apply NoDup_seq.
  - intros n e _ He. split; [|apply toy_lengths_nonneg].
    apply list_elem_of_filter in He as [_ He].
    change (e ∈ Toy.two_way 0 3 0 5 ++ Toy.two_way 2 3 4 5 ++
                Toy.two_way 3 1 5 10) in He.
    change (@to Toy.paths e ∈ [0; 1; 2; 3]%nat).
    unfold Toy.two_way in He. simpl in He.
    repeat (apply elem_of_cons in He as [-> | He]);
      [simpl; set_solver .. | inversion He].
Qed.

Lemma four_nodes_edge (a b : nat) (qa qb : Q) :
  @mkEdge Toy.paths a b (Toy.mkSegment qa qb) ∈ Toy.g_edges Toy.four_nodes ->
  @reachable Toy.paths (@outEdges _ Toy.refine_collaborators Toy.four_nodes)
    a b.
Proof.
  intros H. apply rtc_once.
  exists (@mkEdge Toy.paths a b (Toy.mkSegment qa qb)). split; [|reflexivity].
  simpl. unfold Toy.g_outEdges. apply list_elem_of_filter. by split.
Qed.

Lemma four_nodes_one_component :
  @one_component _ Toy.refine_collaborators Toy.four_nodes.
Proof.
  assert (Hub : forall a, a ∈ [0; 1; 2; 3]%nat ->
            @reachable Toy.paths
              (@outEdges _ Toy.refine_collaborators Toy.four_nodes) a 3%nat /\
            @reachable Toy.paths
              (@outEdges _ Toy.refine_collaborators Toy.four_nodes) 3%nat a).
  { intros a Ha.
    repeat (apply elem_of_cons in Ha as [-> | Ha]); [.. | inversion Ha].
    - split; [apply (four_nodes_edge 0 3 0 5) | apply (four_nodes_edge 3 0 5 0)];
        unfold Toy.four_nodes, Toy.two_way; simpl; set_solver.
    - split; [apply (four_nodes_edge 1 3 10 5) | apply (four_nodes_edge 3 1 5 10)];
        unfold Toy.four_nodes, Toy.two_way; simpl; set_solver.
    - split; [apply (four_nodes_edge 2 3 4 5) | apply (four_nodes_edge 3 2 5 4)];
        unfold Toy.four_nodes, Toy.two_way; simpl; set_solver.
    - split; apply rtc_refl. }
  intros a b Ha Hb.
  destruct (Hub a Ha) as [Ha3 _]. destruct (Hub b Hb) as [_ H3b].
  by eapply rtc_trans.
Qed.

(** C7 on the test bench: the planner on [four_nodes] right after
    [startSolve], whose parent maps hold the two roots only. *)
Lemma oneStep_fills_parent_maps_witness :
  let s := Toy.refine_planner in
  exists fuel0, forall fuel, (fuel0 <= fuel)%nat ->
    exists m0 m1 s1,
      @computeParentMap _ Toy.bench fuel (outEdges (roadmap s))
        (fst (roots_ s)) = Some m0 /\
      @computeParentMap _ Toy.bench fuel (outEdges (roadmap s))
        (snd (roots_ s)) = Some m1 /\
      @fillParentMaps _ Toy.bench _ fuel s = (Ret tt, s1) /\
      toRoot_ s1 = (m0, m1) /\ roadmap s1 = roadmap s /\
      dom m0 = list_to_set (nodes (roadmap s)) /\
      dom m1 = list_to_set (nodes (roadmap s)) /\
      size m0 = length (nodes (roadmap s)) /\
      size m1 = length (nodes (roadmap s)) /\
      @assert_sizes _ Toy.bench _ s1 = (Ret tt, s1) /\
      @oneStep _ Toy.bench _ fuel (22 # 5) s =
        @bind _ _ _ _ (@improve _ Toy.bench _ (22 # 5)) (fun _ => ret tt) s1.
Proof.
  intros s.
  assert (Hr : roadmap s = Toy.four_nodes) by by_evaluation.
  assert (Hroots : roots_ s = (0%nat, 1%nat)) by by_evaluation.
  assert (Hcc : @connectedComponents_size _ Toy.refine_collaborators
                  Toy.four_nodes = 1%nat) by by_evaluation.
  apply (@oneStep_fills_parent_maps _ Toy.bench (toy_platform_laws _ _)
           Toy.refine_collaborators (22 # 5) s).
  - rewrite Hr. apply four_nodes_wf.
  - rewrite Hr. apply four_nodes_one_component.
  - rewrite Hr, Hroots. change (0%nat ∈ [0; 1; 2; 3]%nat). repeat constructor.
  - rewrite Hr, Hroots. change (1%nat ∈ [0; 1; 2; 3]%nat). repeat constructor.
  - rewrite Hr, Hcc. discriminate.
  - rewrite Hroots. by_evaluation.
Defined.


(** ** The test bench satisfies the laws on paths *)

Lemma toy_path_laws : @PathLaws Toy.paths.
Proof.
  split.
  - apply toy_lengths_nonneg.
  - intros [a b]. change (Qabs (a - b) == Qabs (b - a)).
    rewrite <- (Qabs_opp (b - a)). apply Qabs_wd. ring.
Qed.

Lemma toy_build_laws m g :
  @BuildLaws _ (Toy.collaborators m g Toy.accept_all).
Proof.
  split.
  - intros p p' [= <-]. apply Qle_refl.
  - intros [a b] l Hl _.
    change (Qabs (Qred (a + (if Qltb b a then -1 else 1) * (0 + l)) -
                  Qred (a + (if Qltb b a then -1 else 1) * 0)) == l).
    rewrite !Qred_correct.
    destruct (Qltb b a).
    + setoid_replace (a + -1 * (0 + l) - (a + -1 * 0)) with (- l)
        using relation Qeq by ring.
      rewrite Qabs_opp. apply Qabs_pos. lra.
    + setoid_replace (a + 1 * (0 + l) - (a + 1 * 0)) with l
        using relation Qeq by ring.
      apply Qabs_pos. lra.
Qed.

Lemma toy_out_from (g : Toy.Graph) n (e : @Edge Toy.paths) :
  e ∈ Toy.g_outEdges g n -> @from Toy.paths e = n.
Proof. intros H. by apply list_elem_of_filter in H as [? _]. Qed.

Lemma toy_out_nonneg (g : Toy.Graph) n (e : @Edge Toy.paths) :
  e ∈ Toy.g_outEdges g n -> 0 <= @path_length Toy.paths (@path Toy.paths e).
Proof. intros _. apply toy_lengths_nonneg. Qed.

(** ** [computeCost] on the test bench *)

(** A chain of one edge below a root. *)
Lemma computeCost_sums_chain_witness :
  let e := @mkEdge Toy.paths 0 1 (Toy.mkSegment 0 1) in
  let m : gmap nat (option (@Edge Toy.paths)) :=
    <[1%nat := Some e]> {[ 0%nat := None ]} in
  exists r, @computeCost _ Toy.bench m 1%nat = Ret r /\
            r == @walk_cost Toy.paths [e].
Proof.
  intros e m.
  apply (@computeCost_sums_chain _ Toy.bench m 1%nat [e]).
  apply chain_step; [by_evaluation |].
  apply chain_root. by_evaluation.
Defined.

(** A chain of one edge whose source is not a key. *)
Lemma computeCost_orphan_witness :
  let e := @mkEdge Toy.paths 3 1 (Toy.mkSegment 5 10) in
  let m : gmap nat (option (@Edge Toy.paths)) := {[ 1%nat := Some e ]} in
  (exists r, @computeCost _ (Toy.platform false None) m 1%nat = Ret r /\
             r == @walk_cost Toy.paths [e]) /\
  @computeCost _ (Toy.platform false (Some e)) m 1%nat
    = Throw (logic_error "this node has no parent.").
Proof.
  intros e m.
  assert (Hb : @broken_chain Toy.paths m 1%nat [e]).
  { apply broken_step; [by_evaluation |]. apply broken_here. by_evaluation. }
  split.
  - apply (proj1 (@computeCost_orphan _ (Toy.platform false None) m 1%nat
                    [e] Hb)).
    reflexivity.
  - apply (proj2 (@computeCost_orphan _ (Toy.platform false (Some e)) m
                    1%nat [e] Hb)).
    discriminate.
Defined.

(** Two nodes that are each other's parent. *)
Lemma computeCost_diverges_iff_cycle_witness :
  let e12 := @mkEdge Toy.paths 1 2 (Toy.mkSegment 0 1) in
  let e21 := @mkEdge Toy.paths 2 1 (Toy.mkSegment 1 0) in
  let m : gmap nat (option (@Edge Toy.paths)) :=
    <[1%nat := Some e21]> {[ 2%nat := Some e12 ]} in
  @computeCost _ Toy.bench m 1%nat = Diverges /\
  @runs_into_cycle Toy.paths m 1%nat.
Proof.
  intros e12 e21 m.
  assert (H : @computeCost _ Toy.bench m 1%nat = Diverges) by by_evaluation.
  split; [exact H |].
  exact (proj1 (@computeCost_diverges_iff_cycle _ Toy.bench m 1%nat) H).
Defined.

(** ** [computeParentMap] on [four_nodes] *)

Lemma four_nodes_parent_map :
  exists m,
    @computeParentMap _ Toy.bench 100
      (@outEdges _ Toy.refine_collaborators Toy.four_nodes) 0%nat = Some m /\
    m !! 0%nat = Some None /\
    m !! 3%nat = Some (Some (@mkEdge Toy.paths 0 3 (Toy.mkSegment 0 5))) /\
    m !! 2%nat = Some (Some (@mkEdge Toy.paths 3 2 (Toy.mkSegment 5 4))).
Proof.
  destruct (@computeParentMap _ Toy.bench 100
              (@outEdges _ Toy.refine_collaborators Toy.four_nodes) 0%nat)
    as [m|] eqn:Hm.
  - exists m. split; [done |].
    assert (H0 : (@computeParentMap _ Toy.bench 100
                    (@outEdges _ Toy.refine_collaborators Toy.four_nodes)
                    0%nat ≫= (.!! 0%nat)) = Some None) by by_evaluation.
    assert (H3 : (@computeParentMap _ Toy.bench 100
                    (@outEdges _ Toy.refine_collaborators Toy.four_nodes)
                    0%nat ≫= (.!! 3%nat))
                 = Some (Some (@mkEdge Toy.paths 0 3 (Toy.mkSegment 0 5))))
      by by_evaluation.
    assert (H2 : (@computeParentMap _ Toy.bench 100
                    (@outEdges _ Toy.refine_collaborators Toy.four_nodes)
                    0%nat ≫= (.!! 2%nat))
                 = Some (Some (@mkEdge Toy.paths 3 2 (Toy.mkSegment 5 4))))
      by by_evaluation.
    rewrite Hm in H0, H3, H2. done.
  - assert (H : match @computeParentMap _ Toy.bench 100
                        (@outEdges _ Toy.refine_collaborators Toy.four_nodes)
                        0%nat
                with Some _ => true | None => false end = true)
      by by_evaluation.
    rewrite Hm in H. discriminate.
Qed.

Lemma computeParentMap_keys_witness :
  let out := @outEdges _ Toy.refine_collaborators Toy.four_nodes in
  exists m,
    @computeParentMap _ Toy.bench 100 out 0%nat = Some m /\
    forall n, n ∈ dom m <-> @reachable Toy.paths out 0%nat n.
Proof.
  intros out. destruct four_nodes_parent_map as (m & Hm & _).
  exists m. split; [exact Hm |].
  exact (@computeParentMap_keys _ Toy.bench (toy_platform_laws _ _)
           100%nat out 0%nat m Hm).
Defined.

Lemma computeParentMap_terminates_witness :
  let out := @outEdges _ Toy.refine_collaborators Toy.four_nodes in
  exists fuel0 m,
    (forall fuel, (fuel0 <= fuel)%nat ->
       @computeParentMap _ Toy.bench fuel out 0%nat = Some m) /\
    (forall fuel m',
       @computeParentMap _ Toy.bench fuel out 0%nat = Some m' -> m' = m).
Proof.
  intros out.
  apply (@computeParentMap_terminates _ Toy.bench (toy_platform_laws _ _)
           out [0; 1; 2; 3]%nat 0%nat).
  - repeat constructor.
  - exact (proj2 four_nodes_wf).
Defined.

Lemma computeParentMap_parent_map_witness :
  let out := @outEdges _ Toy.refine_collaborators Toy.four_nodes in
  exists m,
    @computeParentMap _ Toy.bench 100 out 0%nat = Some m /\
    m !! 0%nat = Some None /\
    (forall n, m !! n = Some None -> n = 0%nat) /\
    (forall n e, m !! n = Some (Some e) ->
       @to Toy.paths e = n /\ e ∈ out (@from Toy.paths e) /\
       is_Some (m !! @from Toy.paths e)) /\
    @tree Toy.paths m.
Proof.
  intros out. destruct four_nodes_parent_map as (m & Hm & _).
  exists m. split; [exact Hm |].
  exact (@computeParentMap_parent_map _ Toy.bench (toy_platform_laws _ _)
           100%nat out 0%nat m (toy_out_nonneg Toy.four_nodes)
           (toy_out_from Toy.four_nodes) Hm).
Defined.


(** ** [buildPath] on the test bench *)

(** From [0] towards [10] with a cap of [3]. *)
Lemma buildPath_capped_witness :
  exists p,
    @buildPath _ Toy.refine_collaborators 0 10 3 true = Some p /\
    @path_length Toy.paths p <= 3.
Proof.
  exists (Toy.mkSegment 0 3).
  assert (H : @buildPath _ Toy.refine_collaborators 0 10 3 true
              = Some (Toy.mkSegment 0 3)) by by_evaluation.
  split; [exact H |].
  apply (@buildPath_capped _ Toy.refine_collaborators (toy_build_laws _ _)
           0 10 3 true (Toy.mkSegment 0 3)); [reflexivity | exact H].
Defined.

(** ** The planner on the test bench *)

(** [extend] towards [1/2] from the start node of [two_nodes]. *)
Lemma extend_connect_frame_witness :
  let s := Toy.growth_planner in
  let r := @extend _ Toy.bench Toy.growth_collaborators 0%nat 0%nat (1 # 2) s in
  same_settings s (snd r) /\ keeps_other 0 s (snd r).
Proof.
  intros s r.
  apply (proj1 (@extend_connect_frame _ Toy.bench Toy.growth_collaborators)
           0%nat 0%nat (1 # 2) s (fst r) (snd r)).
  apply surjective_pairing.
Defined.

(** [connect] towards [1/2] from the goal node of [two_nodes]. *)
Lemma connect_outcome_witness :
  let s := Toy.growth_planner in
  let r :=
    @connect _ Toy.bench Toy.growth_collaborators 10 1%nat 1%nat (1 # 2) s in
  (fst r = Ret true ->
   @connectedComponents_size _ Toy.growth_collaborators (roadmap (snd r))
     <> 2%nat) /\
  (fst r = Ret false ->
   @connectedComponents_size _ Toy.growth_collaborators (roadmap (snd r))
     = 2%nat) /\
  (@connectedComponents_size _ Toy.growth_collaborators (roadmap s) <> 2%nat ->
   fst r = Ret true /\ snd r = s).
Proof.
  intros s r.
  apply (@connect_outcome _ Toy.bench Toy.growth_collaborators
           10%nat 1%nat 1%nat (1 # 2) s (fst r) (snd r)).
  apply surjective_pairing.
Defined.

(** The sample is the configuration of the start node of [four_nodes]. *)
Lemma improve_guards_witness :
  @improve _ Toy.bench Toy.refine_collaborators 0 Toy.refine_planner
  = (Ret false, Toy.refine_planner).
Proof.
  apply (proj1 (@improve_guards _ Toy.bench Toy.refine_collaborators
                  0 Toy.refine_planner)).
  left. unfold Qlt, Z.lt. by_evaluation.
Defined.

(** [startSolve] on [two_nodes], whose only goal node is node 1; the base
    class returns and leaves the roadmap as it is. *)
Lemma startSolve_spec_witness :
  let s := @create _ Toy.growth_collaborators Toy.two_nodes (0%nat, 0%nat) in
  let r := snd (@Parent_startSolve _ Toy.growth_collaborators (roadmap s)) in
  exists s',
    @startSolve _ Toy.bench Toy.growth_collaborators s = (Ret tt, s') /\
    roadmap s' = r /\
    gamma_ s' = @param_gamma _ Toy.growth_collaborators /\
    extendMaxLength_ s' =
      (if Qle_bool (@param_maxStepLength _ Toy.growth_collaborators) 0
       then @std_sqrt _ Toy.growth_collaborators
              (inject_Z (Z.of_nat (@numberDof _ Toy.growth_collaborators)))
       else @param_maxStepLength _ Toy.growth_collaborators) /\
    roots_ s' = (@initNode _ Toy.growth_collaborators r, 1%nat) /\
    fst (toRoot_ s') =
      <[@initNode _ Toy.growth_collaborators r := None]> (fst (toRoot_ s)) /\
    snd (toRoot_ s') = <[1%nat := None]> (snd (toRoot_ s)) /\
    ball_queries s' = ball_queries s.
Proof.
  intros s r.
  apply (proj2 (proj2 (@startSolve_spec _ Toy.bench Toy.growth_collaborators
                         s)) eq_refl 1%nat).
  reflexivity.
Defined.

(** One step of the planner on [two_nodes], sample [1/2]. *)
Lemma oneStep_frame_witness :
  let s := Toy.growth_planner in
  let r := @oneStep _ Toy.bench Toy.growth_collaborators 10 (1 # 2) s in
  gamma_ (snd r) = gamma_ s /\
  extendMaxLength_ (snd r) = extendMaxLength_ s /\
  (roots_ (snd r) = roots_ s \/ roots_ (snd r) = swap2 (roots_ s)) /\
  (@connectedComponents_size _ Toy.growth_collaborators (roadmap s) <> 2%nat ->
   roots_ (snd r) = roots_ s).
Proof.
  intros s r.
  apply (@oneStep_frame _ Toy.bench Toy.growth_collaborators
           10%nat (1 # 2) s (fst r) (snd r)).
  apply surjective_pairing.
Defined.

(** The planner on [two_nodes] when every path is rejected. *)
Lemma oneStep_rejected_witness :
  let s := Toy.blocked_planner in
  @oneStep _ Toy.bench Toy.blocked_collaborators 10 (1 # 2) s
    = @swap_slots _ Toy.blocked_collaborators s /\
  forall fuel' q',
    @oneStep _ Toy.bench Toy.blocked_collaborators fuel' q'
      (snd (@swap_slots _ Toy.blocked_collaborators s)) = (Ret tt, s).
Proof.
  intros s.
  apply (@oneStep_rejected _ Toy.bench Toy.blocked_collaborators
           10%nat (1 # 2) s).
  - intros p. reflexivity.
  - by_evaluation.
Defined.

(** The choose-parent loop of the planner on [four_nodes] for the sample
    [22/5], with the start node as only near node and node 3 as first
    candidate. *)
Lemma chooseParent_cheapest_witness :
  let s := Toy.refine_planner in
  let first := Toy.mkSegment 5 (22 # 5) in
  exists c',
    fst (@chooseParent _ Toy.bench Toy.refine_collaborators 0 (22 # 5)
           [0%nat] (@mkChoice Toy.paths 100 3%nat first []) s) = Ret c' /\
    length (@paths Toy.paths c') = 1%nat /\
    @cost_q Toy.paths c' <= 100.
Proof.
  intros s first.
  destruct (@chooseParent _ Toy.bench Toy.refine_collaborators 0 (22 # 5)
              [0%nat] (@mkChoice Toy.paths 100 3%nat first []) s)
    as [o s'] eqn:H.
  assert (Ho : match
                 fst (@chooseParent _ Toy.bench Toy.refine_collaborators 0
                        (22 # 5) [0%nat] (@mkChoice Toy.paths 100 3%nat first []) s)
               with Ret _ => true | _ => false end = true) by by_evaluation.
  rewrite H in Ho. simpl in Ho.
  destruct o as [c'| | |]; try discriminate Ho.
  exists c'. split; [reflexivity |].
  destruct (@chooseParent_cheapest _ Toy.bench Toy.refine_collaborators
              0%nat (22 # 5) [0%nat] 3%nat first 100 s c' s' H)
    as (_ & Hl & Hc & _).
  split; [exact Hl | exact Hc].
Defined.

(** The two parent maps of the planner on [detour]: node 2 hangs below
    node 1 in both. *)
Lemma detour_maps :
  at2 0 (toRoot_ Toy.detour_planner) =
    <[2%nat := Some (@mkEdge Toy.paths 1 2 (Toy.mkSegment 10 3))]>
      (<[1%nat := Some (@mkEdge Toy.paths 0 1 (Toy.mkSegment 0 10))]>
         (<[0%nat := None]> ∅)) /\
  at2 1 (toRoot_ Toy.detour_planner) =
    <[2%nat := Some (@mkEdge Toy.paths 1 2 (Toy.mkSegment 10 3))]>
      (<[0%nat := Some (@mkEdge Toy.paths 1 0 (Toy.mkSegment 10 0))]>
         (<[1%nat := None]> ∅)).
Proof. split; by_evaluation. Qed.

Lemma detour_trees k : @tree Toy.paths (at2 k (toRoot_ Toy.detour_planner)).
Proof.
  destruct detour_maps as [H0 H1].
  assert (Hk : at2 k (toRoot_ Toy.detour_planner)
               = at2 0 (toRoot_ Toy.detour_planner) \/
               at2 k (toRoot_ Toy.detour_planner)
               = at2 1 (toRoot_ Toy.detour_planner)).
  { destruct k; [by left | by right]. }
  destruct Hk as [-> | ->].
  - rewrite H0. clear.
    set (m := <[2%nat := _]> _).
    assert (C0 : @chain Toy.paths m 0%nat []) by by apply chain_root.
    assert (C1 : @chain Toy.paths m 1%nat
                   [@mkEdge Toy.paths 0 1 (Toy.mkSegment 0 10)])
      by (by apply chain_step).
    assert (C2 : @chain Toy.paths m 2%nat
                   [@mkEdge Toy.paths 1 2 (Toy.mkSegment 10 3);
                    @mkEdge Toy.paths 0 1 (Toy.mkSegment 0 10)])
      by (by apply chain_step).
    intros n [x Hx]. subst m.
    repeat (apply lookup_insert_Some in Hx as [[<- _] | [_ Hx]]; [eauto |]).
    by rewrite lookup_empty in Hx.
  - rewrite H1. clear.
    set (m := <[2%nat := _]> _).
    assert (C1 : @chain Toy.paths m 1%nat []) by by apply chain_root.
    assert (C0 : @chain Toy.paths m 0%nat
                   [@mkEdge Toy.paths 1 0 (Toy.mkSegment 10 0)])
      by (by apply chain_step).
    assert (C2 : @chain Toy.paths m 2%nat
                   [@mkEdge Toy.paths 1 2 (Toy.mkSegment 10 3)])
      by (by apply chain_step).
    intros n [x Hx]. subst m.
    repeat (apply lookup_insert_Some in Hx as [[<- _] | [_ Hx]]; [eauto |]).
    by rewrite lookup_empty in Hx.
Qed.

(** Node 3 is none of the nodes 0 and 2. *)
Lemma three_not_near : 3%nat ∉ [0%nat; 2%nat].
Proof.
  intros H. repeat (apply elem_of_cons in H as [H | H]; [discriminate H |]).
  by apply elem_of_nil in H.
Qed.

(** The parent map of the start's tree behind the wall: node 3 (at [3/5])
    hangs below node 2 (at [9/10]). *)
Lemma walled_map :
  at2 0 (toRoot_ Toy.walled_planner) =
    <[3%nat := Some (@mkEdge Toy.paths 2 3 (Toy.mkSegment (9 # 10) (3 # 5)))]>
      (<[2%nat := Some (@mkEdge Toy.paths 0 2 (Toy.mkSegment 0 (9 # 10)))]>
         (<[0%nat := None]> ∅)).
Proof. by_evaluation. Qed.

Lemma walled_tree : @tree Toy.paths (at2 0 (toRoot_ Toy.walled_planner)).
Proof.
  rewrite walled_map.
  set (m := <[3%nat := _]> _).
  assert (C0 : @chain Toy.paths m 0%nat []) by by apply chain_root.
  assert (C2 : @chain Toy.paths m 2%nat
                 [@mkEdge Toy.paths 0 2 (Toy.mkSegment 0 (9 # 10))])
    by (by apply chain_step).
  assert (C3 : @chain Toy.paths m 3%nat
                 [@mkEdge Toy.paths 2 3 (Toy.mkSegment (9 # 10) (3 # 5));
                  @mkEdge Toy.paths 0 2 (Toy.mkSegment 0 (9 # 10))])
    by (by apply chain_step).
  intros n [x Hx]. subst m.
  repeat (apply lookup_insert_Some in Hx as [[<- _] | [_ Hx]]; [eauto |]).
  by rewrite lookup_empty in Hx.
Qed.

(** Node 4 is none of the nodes 0 and 3. *)
Lemma four_not_near : 4%nat ∉ [0%nat; 3%nat].
Proof.
  intros H. repeat (apply elem_of_cons in H as [H | H]; [discriminate H |]).
  by apply elem_of_nil in H.
Qed.

(** The call of [extend] that the fifth [oneStep] makes behind the wall,
    with the sample [8/25].  The nearest node is node 3 (at [3/5]), whose
    chain passes through node 2 at [9/10]; the near nodes are nodes 0 and
    3.  The choose-parent loop moves the parent to node 0; the new node is
    node 4; the rewiring loop re-points node 3 to it. *)
Lemma extend_keeps_tree_witness :
  let s := Toy.walled_planner in
  let r :=
    @extend _ Toy.bench Toy.walled_collaborators (fst (roots_ s)) 0%nat
      (8 # 25) s in
  let map := at2 0 (toRoot_ s) in
  let map' := at2 0 (toRoot_ (snd r)) in
  @connectedComponents_size _ Toy.walled_collaborators (roadmap s) = 2%nat /\
  fst (@nearestNode_cc _ Toy.walled_collaborators (roadmap s) (8 # 25)
         (connectedComponent (roadmap s) (fst (roots_ s)))) = 3%nat /\
  fst r = Ret (true, 8 # 25) /\
  map' !! 4%nat
    = Some (Some (@mkEdge Toy.paths 0 4 (Toy.mkSegment 0 (8 # 25)))) /\
  map !! 3%nat
    = Some (Some (@mkEdge Toy.paths 2 3 (Toy.mkSegment (9 # 10) (3 # 5)))) /\
  map' !! 3%nat
    = Some (Some (@mkEdge Toy.paths 4 3 (Toy.mkSegment (8 # 25) (3 # 5)))) /\
  @tree Toy.paths map' /\
  (forall n, map !! n = Some None -> map' !! n = Some None) /\
  (forall n, is_Some (map !! n) -> is_Some (map' !! n)) /\
  (forall n e', map' !! n = Some e' ->
     map !! n = Some e' \/ @new_entry Toy.paths 4%nat map n e').
Proof.
  intros s r map map'.
  assert (Hb : @buildPath _ Toy.walled_collaborators
                 (configuration (roadmap s)
                    (fst (nearestNode_cc (roadmap s) (8 # 25)
                            (connectedComponent (roadmap s)
                               (fst (roots_ s))))))
                 (8 # 25) (extendMaxLength_ s) true
               = Some (Toy.mkSegment (3 # 5) (8 # 25))) by by_evaluation.
  assert (Hq : fst (@addNode _ Toy.walled_collaborators (roadmap s) (8 # 25))
               = 4%nat) by by_evaluation.
  split; [by_evaluation |]. split; [by_evaluation |].
  split; [by_evaluation |]. split; [by_evaluation |].
  split; [by_evaluation |]. split; [by_evaluation |].
  destruct (@extend_keeps_tree _ Toy.bench Toy.walled_collaborators
              toy_path_laws (fst (roots_ s)) 0%nat (8 # 25) s (fst r) (snd r))
    as (Ht & Hnull & Hkeys & Hent & _).
  - apply walled_tree.
  - intros p Hp. rewrite Hb in Hp. injection Hp as <-.
    change (@path_end Toy.paths (Toy.mkSegment (3 # 5) (8 # 25)))
      with (8 # 25).
    rewrite Hq. split; [by_evaluation |].
    lazymatch goal with
    | |- _ ∉ ?l =>
        assert (Hnn : l = [0%nat; 3%nat]) by by_evaluation; rewrite Hnn
    end.
    apply four_not_near.
  - apply surjective_pairing.
  - split; [exact Ht |]. split; [exact Hnull |]. split; [exact Hkeys |].
    intros n e' Hn. destruct (Hent n e' Hn) as [? | (p & Hp & Hnew)];
      [by left |].
    right. rewrite Hb in Hp. injection Hp as <-.
    change (@path_end Toy.paths (Toy.mkSegment (3 # 5) (8 # 25)))
      with (8 # 25) in Hnew.
    rewrite Hq in Hnew. exact Hnew.
Defined.

(** [improve] on [detour] with the sample [2], on the planner as [oneStep]
    hands it over: one connected component, the parent maps filled, the two
    assertions on the sizes passed.  The new node is node 3.  In
    the map rooted at the start, node 3 hangs below node 0 and node 2 is
    re-pointed to node 3; in the map rooted at the goal, node 3 hangs below
    node 2 and node 0 is re-pointed to node 3. *)
Lemma improve_keeps_trees_witness :
  let s := Toy.detour_planner in
  let r := @improve _ Toy.bench Toy.refine_collaborators (2 # 1) s in
  let shape := fun k : nat =>
    @tree Toy.paths (at2 k (toRoot_ (snd r))) /\
    (forall n, at2 k (toRoot_ s) !! n = Some None ->
       at2 k (toRoot_ (snd r)) !! n = Some None) /\
    (forall n, is_Some (at2 k (toRoot_ s) !! n) ->
       is_Some (at2 k (toRoot_ (snd r)) !! n)) /\
    (forall n e', at2 k (toRoot_ (snd r)) !! n = Some e' ->
       at2 k (toRoot_ s) !! n = Some e' \/
       @new_entry Toy.paths 3%nat (at2 k (toRoot_ s)) n e') in
  @connectedComponents_size _ Toy.refine_collaborators (roadmap s) = 1%nat /\
  fst (@assert_sizes _ Toy.bench Toy.refine_collaborators s) = Ret tt /\
  fst r = Ret true /\
  at2 0 (toRoot_ (snd r)) !! 2%nat
    = Some (Some (@mkEdge Toy.paths 3 2 (Toy.mkSegment 2 3))) /\
  at2 1 (toRoot_ (snd r)) !! 0%nat
    = Some (Some (@mkEdge Toy.paths 3 0 (Toy.mkSegment 2 3))) /\
  shape 0%nat /\ shape 1%nat.
Proof.
  intros s r shape. subst shape.
  assert (Hq : fst (@addNode _ Toy.refine_collaborators (roadmap s) (2 # 1))
               = 3%nat) by by_evaluation.
  split; [by_evaluation |]. split; [by_evaluation |].
  split; [by_evaluation |]. split; [by_evaluation |].
  split; [by_evaluation |].
  assert (H : forall k,
            @tree Toy.paths (at2 k (toRoot_ (snd r))) /\
            (forall n, at2 k (toRoot_ s) !! n = Some None ->
               at2 k (toRoot_ (snd r)) !! n = Some None) /\
            (forall n, is_Some (at2 k (toRoot_ s) !! n) ->
               is_Some (at2 k (toRoot_ (snd r)) !! n)) /\
            (forall n e', at2 k (toRoot_ (snd r)) !! n = Some e' ->
               at2 k (toRoot_ s) !! n = Some e' \/
               @new_entry Toy.paths 3%nat (at2 k (toRoot_ s)) n e')).
  { rewrite <- Hq.
    apply (@improve_keeps_trees _ Toy.bench Toy.refine_collaborators
             toy_path_laws (2 # 1) s (fst r) (snd r)).
    - apply detour_trees.
    - rewrite Hq. intros [|k].
      + by_evaluation.
      + change (at2 (S k) (toRoot_ s)) with (at2 1 (toRoot_ s)). by_evaluation.
    - rewrite Hq.
      lazymatch goal with
      | |- _ ∉ ?l =>
          assert (Hnn : l = [0%nat; 2%nat]) by by_evaluation; rewrite Hnn
      end.
      apply three_not_near.
    - apply surjective_pairing. }
  split; [exact (H 0%nat) | exact (H 1%nat)].
Defined.

(** [extend] towards [1/2] from the start node of [two_nodes]. *)
Lemma edges_added_in_pairs_witness :
  let s := Toy.growth_planner in
  let r := @extend _ Toy.bench Toy.growth_collaborators 0%nat 0%nat (1 # 2) s in
  roadmap (snd r) = roadmap s \/
  exists c,
    edge_pairs_added (snd (addNode (roadmap s) c)) (roadmap (snd r)).
Proof.
  intros s r.
  apply (proj1 (@edges_added_in_pairs _ Toy.bench Toy.growth_collaborators)
           0%nat 0%nat (1 # 2) s (fst r) (snd r)).
  apply surjective_pairing.
Defined.


